(** * DRAMSim3 with PIM: the control-word decoder and the per-cut engine

    A shallow embedding of [src/dram_system.cc]: the PIM transaction queue
    ([WillAcceptTransaction], [AddTransaction]) and the PIM part of
    [JedecDRAMSystem::ClockTick] (refresh look-ahead, control-word decoder,
    per-cut state machine and command emission).

    The per-channel controllers are external to this file of the
    repository: what [ClockTick] reads from them is a field of
    [Controller], and [GetReadyCommand] and [AddressUnmapping] are
    parameters of the development.

    Conventions. The globals that [dram_system.h] declares are taken as
    [int]s, [bool]s and vectors of them. [assert] is taken as compiled in.
    A vector access out of range, a division by zero and a shift by 32 or
    more are undefined behaviour and end the run with [Undef]. *)

From stdpp Require Import base list numbers.
From Stdlib Require Import ZArith Lia.

Open Scope Z_scope.

(** ** Outcomes of a run

    [Ok] is a normal return. [Abort] is a failed [assert] or a call of
    [AbruptExit]. [Undef] is undefined behaviour of the C++ program: a
    vector indexed out of range, a division by zero, a shift by the width
    of the type or more. *)

Inductive result (A : Type) : Type :=
  | Ok (a : A)
  | Abort
  | Undef.

Arguments Ok {A} a.
Arguments Abort {A}.
Arguments Undef {A}.

Definition bind {A B} (m : result A) (f : A → result B) : result B :=
  match m with
  | Ok a => f a
  | Abort => Abort
  | Undef => Undef
  end.

Notation "x <- m ; k" := (bind m (fun x => k))
  (at level 20, m at level 100, k at level 200, only parsing).
Notation "' p <- m ; k" := (bind m (fun x => match x with p => k end))
  (at level 20, p pattern, m at level 100, k at level 200, only parsing).

Definition assert (b : bool) : result unit := if b then Ok tt else Abort.

Definition nonzero (d : Z) : result unit := if d =? 0 then Undef else Ok tt.

Definition is_ok {A} (r : result A) : bool :=
  match r with Ok _ => true | _ => false end.

(** ** Machine integers

    [int] is 32 bits wide; [wrap] is the two's complement reduction, which
    is what the conversion from [uint64_t] and the arithmetic of the
    compiled program compute. [/] and [%] truncate towards zero; every
    divisor is tested with [nonzero] before its first use. *)

Definition wrap (z : Z) : Z := (z + 2 ^ 31) mod 2 ^ 32 - 2 ^ 31.

Definition u64 (z : Z) : Z := z mod 2 ^ 64.

Definition iadd (a b : Z) : Z := wrap (a + b).
Definition isub (a b : Z) : Z := wrap (a - b).
Definition imul (a b : Z) : Z := wrap (a * b).

Infix "+!" := iadd (at level 50, left associativity).
Infix "-!" := isub (at level 50, left associativity).
Infix "*!" := imul (at level 40, left associativity).
Infix "/!" := Z.quot (at level 40, left associativity).
Infix "%!" := Z.rem (at level 40, left associativity).

(** [1 << i] at type [int]. *)
Definition shl1 (i : Z) : result Z :=
  if (i <? 0) || (32 <=? i) then Undef else Ok (wrap (Z.shiftl 1 i)).

(** [address & (1 << i)] as a condition, [address] a [uint64_t]. *)
Definition mask_bit (address i : Z) : result bool :=
  m <- shl1 i; Ok (negb (Z.land address (u64 m) =? 0)).

(** ** Vectors *)

Definition vget {A} (v : list A) (i : Z) : result A :=
  if i <? 0 then Undef
  else match v !! Z.to_nat i with
       | Some x => Ok x
       | None => Undef
       end.

Definition vset {A} (v : list A) (i : Z) (x : A) : result (list A) :=
  if (i <? 0) || (Z.of_nat (length v) <=? i) then Undef
  else Ok (<[Z.to_nat i := x]> v).

(** [v.assign(n, x)] *)
Definition assign {A} (n : Z) (x : A) : list A := replicate (Z.to_nat n) x.

(** The values [0], [1], ..., [n-1] of a loop counter. *)
Definition range (n : Z) : list Z := Z.of_nat <$> seq 0 (Z.to_nat n).

(** ** Data model *)

(** Modelled from the spec: the command kinds of [common.h], which is not
    part of [src/]. [SIZE] is the kind of the sentinel [Command()], the one
    [IsValid] rejects. *)
Inductive CommandType : Type :=
  | ACTIVATE | READ | WRITE | PRECHARGE
  | PIM_ACTIVATE | PIM_READ | PIM_READ_PRECHARGE
  | PIM_WRITE | PIM_WRITE_PRECHARGE
  | SIZE.

#[global] Instance CommandType_eq_dec : EqDecision CommandType.
Proof. solve_decision. Defined.

Record Address : Type := mkAddress {
  channel : Z; rank : Z; bankgroup : Z; bank : Z; row : Z; column : Z }.

Record Command : Type := mkCommand {
  cmd_type : CommandType; addr : Address; hex_addr : Z }.

Definition IsValid (c : Command) : bool := bool_decide (cmd_type c ≠ SIZE).

Definition Channel (c : Command) : Z := channel (addr c).

(** Modelled from the spec: the part of a per-channel controller that the
    DRAM system reads and writes ([controller.h] is not part of [src/]). *)
Record Controller : Type := mkController {
  pim_refresh_coming : bool;
  IsInRef : bool;
  pim_refresh_coming2 : bool;
  wr_multitenant : bool;
  rd_w_cmds_ : list Command;
  rd_in_cmds_ : list Command;
  release_time : list Z;
  wr_cmds_ : list Command }.

(** Modelled from the spec: the fields of [Config] that [ClockTick] reads
    ([configuration.h] is not part of [src/]). *)
Record Config : Type := mkConfig {
  channels : Z; banks : Z; banks_per_group : Z; columns : Z; BL : Z;
  tCCD_L : Z; tRCDWR : Z; tRCDRD : Z }.

Record ConfigState : Type := mkConfigState {
  vcuts : Z; hcuts : Z; mcf : Z; ucf : Z; mc : Z; df : Z;
  M_tile_size : Z; vcuts_next : Z; hcuts_next : Z;
  kernel_size : Z; stride : Z }.

Record CutState : Type := mkCutState {
  base_rows_w : list Z; base_rows_in : list Z; base_rows_out : list Z;
  M : list Z; N : list Z; K : list Z;
  M_it : list Z; K_tile_it : list Z; N_it : list Z;
  M_out_it : list Z; N_out_tile_it : list Z;
  in_pim : list bool; iw_status : list Z;
  in_cnt : list Z; out_cnt : list Z; vpu_cnt : list Z;
  in_act_placed : list bool; w_act_placed : list bool;
  out_act_placed : list bool;
  output_valid : list Z }.

Record System : Type := mkSystem {
  cfg : ConfigState;
  cut : CutState;
  turn_off : bool;
  pim_trans_queue_ : list Z;
  pim_trans_queue_depth_ : Z;
  ctrls_ : list Controller;
  clk_ : Z;
  last_req_clk_ : Z }.

(** *** Field updates *)

Definition with_cut (c : CutState) (s : System) : System :=
  mkSystem (cfg s) c (turn_off s) (pim_trans_queue_ s)
    (pim_trans_queue_depth_ s) (ctrls_ s) (clk_ s) (last_req_clk_ s).

Definition with_turn_off (b : bool) (s : System) : System :=
  mkSystem (cfg s) (cut s) b (pim_trans_queue_ s)
    (pim_trans_queue_depth_ s) (ctrls_ s) (clk_ s) (last_req_clk_ s).

Definition with_queue (q : list Z) (s : System) : System :=
  mkSystem (cfg s) (cut s) (turn_off s) q
    (pim_trans_queue_depth_ s) (ctrls_ s) (clk_ s) (last_req_clk_ s).

Definition with_ctrls (cs : list Controller) (s : System) : System :=
  mkSystem (cfg s) (cut s) (turn_off s) (pim_trans_queue_ s)
    (pim_trans_queue_depth_ s) cs (clk_ s) (last_req_clk_ s).

Definition with_clk (t : Z) (s : System) : System :=
  mkSystem (cfg s) (cut s) (turn_off s) (pim_trans_queue_ s)
    (pim_trans_queue_depth_ s) (ctrls_ s) t (last_req_clk_ s).

Definition with_last_req_clk (t : Z) (s : System) : System :=
  mkSystem (cfg s) (cut s) (turn_off s) (pim_trans_queue_ s)
    (pim_trans_queue_depth_ s) (ctrls_ s) (clk_ s) t.

Definition set_base_rows_w v c := mkCutState v (base_rows_in c) (base_rows_out c) (M c) (N c) (K c) (M_it c) (K_tile_it c) (N_it c) (M_out_it c) (N_out_tile_it c) (in_pim c) (iw_status c) (in_cnt c) (out_cnt c) (vpu_cnt c) (in_act_placed c) (w_act_placed c) (out_act_placed c) (output_valid c).
Definition set_base_rows_in v c := mkCutState (base_rows_w c) v (base_rows_out c) (M c) (N c) (K c) (M_it c) (K_tile_it c) (N_it c) (M_out_it c) (N_out_tile_it c) (in_pim c) (iw_status c) (in_cnt c) (out_cnt c) (vpu_cnt c) (in_act_placed c) (w_act_placed c) (out_act_placed c) (output_valid c).
Definition set_base_rows_out v c := mkCutState (base_rows_w c) (base_rows_in c) v (M c) (N c) (K c) (M_it c) (K_tile_it c) (N_it c) (M_out_it c) (N_out_tile_it c) (in_pim c) (iw_status c) (in_cnt c) (out_cnt c) (vpu_cnt c) (in_act_placed c) (w_act_placed c) (out_act_placed c) (output_valid c).
Definition set_M v c := mkCutState (base_rows_w c) (base_rows_in c) (base_rows_out c) v (N c) (K c) (M_it c) (K_tile_it c) (N_it c) (M_out_it c) (N_out_tile_it c) (in_pim c) (iw_status c) (in_cnt c) (out_cnt c) (vpu_cnt c) (in_act_placed c) (w_act_placed c) (out_act_placed c) (output_valid c).
Definition set_N v c := mkCutState (base_rows_w c) (base_rows_in c) (base_rows_out c) (M c) v (K c) (M_it c) (K_tile_it c) (N_it c) (M_out_it c) (N_out_tile_it c) (in_pim c) (iw_status c) (in_cnt c) (out_cnt c) (vpu_cnt c) (in_act_placed c) (w_act_placed c) (out_act_placed c) (output_valid c).
Definition set_K v c := mkCutState (base_rows_w c) (base_rows_in c) (base_rows_out c) (M c) (N c) v (M_it c) (K_tile_it c) (N_it c) (M_out_it c) (N_out_tile_it c) (in_pim c) (iw_status c) (in_cnt c) (out_cnt c) (vpu_cnt c) (in_act_placed c) (w_act_placed c) (out_act_placed c) (output_valid c).
Definition set_M_it v c := mkCutState (base_rows_w c) (base_rows_in c) (base_rows_out c) (M c) (N c) (K c) v (K_tile_it c) (N_it c) (M_out_it c) (N_out_tile_it c) (in_pim c) (iw_status c) (in_cnt c) (out_cnt c) (vpu_cnt c) (in_act_placed c) (w_act_placed c) (out_act_placed c) (output_valid c).
Definition set_K_tile_it v c := mkCutState (base_rows_w c) (base_rows_in c) (base_rows_out c) (M c) (N c) (K c) (M_it c) v (N_it c) (M_out_it c) (N_out_tile_it c) (in_pim c) (iw_status c) (in_cnt c) (out_cnt c) (vpu_cnt c) (in_act_placed c) (w_act_placed c) (out_act_placed c) (output_valid c).
Definition set_N_it v c := mkCutState (base_rows_w c) (base_rows_in c) (base_rows_out c) (M c) (N c) (K c) (M_it c) (K_tile_it c) v (M_out_it c) (N_out_tile_it c) (in_pim c) (iw_status c) (in_cnt c) (out_cnt c) (vpu_cnt c) (in_act_placed c) (w_act_placed c) (out_act_placed c) (output_valid c).
Definition set_M_out_it v c := mkCutState (base_rows_w c) (base_rows_in c) (base_rows_out c) (M c) (N c) (K c) (M_it c) (K_tile_it c) (N_it c) v (N_out_tile_it c) (in_pim c) (iw_status c) (in_cnt c) (out_cnt c) (vpu_cnt c) (in_act_placed c) (w_act_placed c) (out_act_placed c) (output_valid c).
Definition set_N_out_tile_it v c := mkCutState (base_rows_w c) (base_rows_in c) (base_rows_out c) (M c) (N c) (K c) (M_it c) (K_tile_it c) (N_it c) (M_out_it c) v (in_pim c) (iw_status c) (in_cnt c) (out_cnt c) (vpu_cnt c) (in_act_placed c) (w_act_placed c) (out_act_placed c) (output_valid c).
Definition set_in_pim v c := mkCutState (base_rows_w c) (base_rows_in c) (base_rows_out c) (M c) (N c) (K c) (M_it c) (K_tile_it c) (N_it c) (M_out_it c) (N_out_tile_it c) v (iw_status c) (in_cnt c) (out_cnt c) (vpu_cnt c) (in_act_placed c) (w_act_placed c) (out_act_placed c) (output_valid c).
Definition set_iw_status v c := mkCutState (base_rows_w c) (base_rows_in c) (base_rows_out c) (M c) (N c) (K c) (M_it c) (K_tile_it c) (N_it c) (M_out_it c) (N_out_tile_it c) (in_pim c) v (in_cnt c) (out_cnt c) (vpu_cnt c) (in_act_placed c) (w_act_placed c) (out_act_placed c) (output_valid c).
Definition set_in_cnt v c := mkCutState (base_rows_w c) (base_rows_in c) (base_rows_out c) (M c) (N c) (K c) (M_it c) (K_tile_it c) (N_it c) (M_out_it c) (N_out_tile_it c) (in_pim c) (iw_status c) v (out_cnt c) (vpu_cnt c) (in_act_placed c) (w_act_placed c) (out_act_placed c) (output_valid c).
Definition set_out_cnt v c := mkCutState (base_rows_w c) (base_rows_in c) (base_rows_out c) (M c) (N c) (K c) (M_it c) (K_tile_it c) (N_it c) (M_out_it c) (N_out_tile_it c) (in_pim c) (iw_status c) (in_cnt c) v (vpu_cnt c) (in_act_placed c) (w_act_placed c) (out_act_placed c) (output_valid c).
Definition set_vpu_cnt v c := mkCutState (base_rows_w c) (base_rows_in c) (base_rows_out c) (M c) (N c) (K c) (M_it c) (K_tile_it c) (N_it c) (M_out_it c) (N_out_tile_it c) (in_pim c) (iw_status c) (in_cnt c) (out_cnt c) v (in_act_placed c) (w_act_placed c) (out_act_placed c) (output_valid c).
Definition set_in_act_placed v c := mkCutState (base_rows_w c) (base_rows_in c) (base_rows_out c) (M c) (N c) (K c) (M_it c) (K_tile_it c) (N_it c) (M_out_it c) (N_out_tile_it c) (in_pim c) (iw_status c) (in_cnt c) (out_cnt c) (vpu_cnt c) v (w_act_placed c) (out_act_placed c) (output_valid c).
Definition set_w_act_placed v c := mkCutState (base_rows_w c) (base_rows_in c) (base_rows_out c) (M c) (N c) (K c) (M_it c) (K_tile_it c) (N_it c) (M_out_it c) (N_out_tile_it c) (in_pim c) (iw_status c) (in_cnt c) (out_cnt c) (vpu_cnt c) (in_act_placed c) v (out_act_placed c) (output_valid c).
Definition set_out_act_placed v c := mkCutState (base_rows_w c) (base_rows_in c) (base_rows_out c) (M c) (N c) (K c) (M_it c) (K_tile_it c) (N_it c) (M_out_it c) (N_out_tile_it c) (in_pim c) (iw_status c) (in_cnt c) (out_cnt c) (vpu_cnt c) (in_act_placed c) (w_act_placed c) v (output_valid c).
Definition set_output_valid v c := mkCutState (base_rows_w c) (base_rows_in c) (base_rows_out c) (M c) (N c) (K c) (M_it c) (K_tile_it c) (N_it c) (M_out_it c) (N_out_tile_it c) (in_pim c) (iw_status c) (in_cnt c) (out_cnt c) (vpu_cnt c) (in_act_placed c) (w_act_placed c) (out_act_placed c) v.

(** [vec[i] = x] on one of the per-cut vectors: [put fld set_fld i x c]. *)
Definition put {A} (fld : CutState → list A)
    (set_fld : list A → CutState → CutState) (i : Z) (x : A) (c : CutState)
    : result CutState :=
  v <- vset (fld c) i x; Ok (set_fld v c).

(** Modelled from the spec: the state before any control word ([dram_system.h]
    is not part of [src/]). [vcuts = hcuts = -1] is the "not configured"
    mark that [ClockTick] tests, and every per-cut vector is empty. *)
Definition empty_cut : CutState :=
  mkCutState [] [] [] [] [] [] [] [] [] [] [] [] [] [] [] [] [] [] [] [].

Definition unconfigured : ConfigState :=
  mkConfigState (-1) (-1) 0 0 0 0 0 0 0 0 0.

Definition fresh_controller : Controller :=
  mkController false false false false [] [] [] [].

Definition initial_system (depth : Z) (nchan : nat) : System :=
  mkSystem unconfigured empty_cut false [] depth
    (replicate nchan fresh_controller) 0 0.

(** ** The PIM transaction queue *)

(** [pim_trans_queue_depth_] is taken as a [size_t], like the size it is
    compared with. *)
Definition WillAcceptTransaction (s : System) : bool :=
  Z.of_nat (length (pim_trans_queue_ s)) <? pim_trans_queue_depth_ s.

Definition AddTransaction (s : System) (hex : Z) : result (System * bool) :=
  let ok := WillAcceptTransaction s in
  _ <- assert ok;
  let s := if ok then with_queue (pim_trans_queue_ s ++ [hex]) s else s in
  Ok (with_last_req_clk (clk_ s) s, ok).

(** ** The control-word decoder *)

Definition bw_cutNo : Z := 4.
Definition bw_vcuts : Z := 3.
Definition bw_hcuts : Z := 1.
Definition bw_mcf : Z := 3.
Definition bw_ucf : Z := 3.
Definition bw_df : Z := 1.
Definition bw_Mtile : Z := 4.
Definition bw_kernelSize : Z := 5.
Definition bw_stride : Z := 5.
Definition bw_dimValue : Z := 32.
Definition bw_baseRow : Z := 22.
Definition bw_loadType : Z := 2.

(** [address & ((1 << bw) - 1)] *)
Definition field (address bw : Z) : Z := Z.land address (Z.shiftl 1 bw - 1).

Definition is_compute (w : Z) : bool := negb (Z.land w 1 =? 0).

(** [(addr & (1 << 6)) && (addr & (1 << 5))], the test of the second
    branch. *)
Definition cutting (w : Z) : bool :=
  negb (Z.land w (Z.shiftl 1 6) =? 0) && negb (Z.land w (Z.shiftl 1 5) =? 0).

Definition is_configure (w : Z) : bool := negb (is_compute w) && cutting w.

Definition is_load (w : Z) : bool :=
  negb (is_compute w) && negb (is_configure w).

(** The condition [(address & (1 << i)) && (M[i] != 0 && N[i] != 0 &&
    K[i] != 0)] of the first loop of the Compute-Enable branch: evaluated
    left to right, stopping at the first false operand. *)
Definition cut_ready (c : CutState) (address i : Z) : result bool :=
  sel <- mask_bit address i;
  if sel then
    m <- vget (M c) i;
    if m =? 0 then Ok false else
    n <- vget (N c) i;
    if n =? 0 then Ok false else
    k <- vget (K c) i;
    Ok (negb (k =? 0))
  else Ok false.

(** The first loop: [configured] after the cuts in [idx]. The statement
    under the [if] is empty; the [else] clears [configured]. *)
Fixpoint all_configured (c : CutState) (address : Z) (idx : list Z)
    (configured : bool) : result bool :=
  match idx with
  | [] => Ok configured
  | i :: idx =>
      ready <- cut_ready c address i;
      all_configured c address idx (if ready then configured else false)
  end.

(** The second loop: [in_pim[i] = true] for the selected cuts. *)
Fixpoint enable_cuts (address : Z) (idx : list Z) (v : list bool)
    : result (list bool) :=
  match idx with
  | [] => Ok v
  | i :: idx =>
      sel <- mask_bit address i;
      v <- (if sel then vset v i true else Ok v);
      enable_cuts address idx v
  end.

Definition compute_enable (w : Z) (rest : list Z) (s : System)
    : result System :=
  let address := Z.shiftr w 1 in
  let cuts := vcuts (cfg s) *! hcuts (cfg s) in
  configured <- all_configured (cut s) address (range cuts) true;
  if configured then
    v <- enable_cuts address (range cuts) (in_pim (cut s));
    Ok (with_queue rest (with_cut (set_in_pim v (cut s)) s))
  else Ok s.

Definition set_multitenant (c : Controller) : Controller :=
  mkController (pim_refresh_coming c) (IsInRef c) (pim_refresh_coming2 c)
    true (rd_w_cmds_ c) (rd_in_cmds_ c) (release_time c) (wr_cmds_ c).

Definition fresh_cuts (cuts : Z) : CutState :=
  mkCutState (assign cuts 0) (assign cuts 0) (assign cuts 0)
    (assign cuts 0) (assign cuts 0) (assign cuts 0)
    (assign cuts 0) (assign cuts 0) (assign cuts 0)
    (assign cuts 0) (assign cuts 0)
    (assign cuts false) (assign cuts 0)
    (assign cuts 0) (assign cuts (-1)) (assign cuts 0)
    (assign cuts false) (assign cuts false) (assign cuts false)
    (assign cuts 0).

Definition configure (w : Z) (rest : list Z) (s : System) : result System :=
  let address := Z.shiftr (Z.shiftr (Z.shiftr w 1) 4) 2 in
  let vcuts' := wrap (Z.shiftl 1 (field address bw_vcuts)) in
  let address := Z.shiftr address bw_vcuts in
  let hcuts' := wrap (Z.shiftl 1 (field address bw_hcuts)) in
  let address := Z.shiftr address bw_hcuts in
  let mcf' := wrap (Z.shiftl 1 (field address bw_mcf)) in
  let address := Z.shiftr address bw_mcf in
  let ucf' := wrap (Z.shiftl 1 (field address bw_ucf)) in
  let address := Z.shiftr address bw_ucf in
  let df' := wrap (field address bw_df) in
  let address := Z.shiftr address bw_df in
  let mc' := mcf' *! ucf' in
  let ctrls' :=
    if 1 <? vcuts' *! hcuts' then set_multitenant <$> ctrls_ s
    else ctrls_ s in
  let M_tile_size' := wrap (Z.shiftl 1 (field address bw_Mtile)) in
  let address := Z.shiftr address bw_Mtile in
  let vcuts_next' := wrap (Z.shiftl 1 (field address bw_vcuts)) in
  let address := Z.shiftr address bw_vcuts in
  let hcuts_next' := wrap (Z.shiftl 1 (field address bw_hcuts)) in
  let address := Z.shiftr address bw_hcuts in
  let kernel_size' := wrap (field address bw_kernelSize) in
  let address := Z.shiftr address bw_kernelSize in
  let stride' := wrap (field address bw_stride) in
  _ <- assert (M_tile_size' <=? 2048);
  let cuts := vcuts' *! hcuts' in
  Ok (mkSystem
          (mkConfigState vcuts' hcuts' mcf' ucf' mc' df' M_tile_size'
             vcuts_next' hcuts_next' kernel_size' stride')
          (fresh_cuts cuts) (turn_off s) rest (pim_trans_queue_depth_ s)
          ctrls' (clk_ s) (last_req_clk_ s)).

Definition load (w : Z) (rest : list Z) (s : System) : result System :=
  let address := Z.shiftr w 1 in
  let cut_no := wrap (field address bw_cutNo) in
  let address := Z.shiftr address 4 in
  let loadType := wrap (field address bw_loadType) in
  let address := Z.shiftr address bw_loadType in
  let dim_value := wrap (field address bw_dimValue) in
  let address := Z.shiftr address bw_dimValue in
  let base_row := field address bw_baseRow in
  c <- (if loadType =? 0 then
         c <- put base_rows_w set_base_rows_w cut_no (wrap base_row) (cut s);
         put M set_M cut_no dim_value c
       else if loadType =? 1 then
         c <- put base_rows_out set_base_rows_out cut_no (wrap base_row) (cut s);
         put K set_K cut_no dim_value c
       else if loadType =? 2 then
         c <- put base_rows_in set_base_rows_in cut_no (wrap base_row) (cut s);
         put N set_N cut_no dim_value c
       else Abort);
  Ok (with_queue rest (with_cut c s)).

Definition decode (s : System) : result System :=
  match pim_trans_queue_ s with
  | [] => Ok s
  | w :: rest =>
      if is_compute w then compute_enable w rest s
      else if cutting w then configure w rest s
      else load w rest s
  end.

(** ** The per-cut engine *)

Record Batches : Type := mkBatches {
  w_cmds : list Command; in_cmds : list Command; out_cmds : list Command }.

(** The locals that [ClockTick] computes for cut [i] before the [switch]. *)
Record Geometry : Type := mkGeometry {
  vcut_no : Z; cut_height : Z; hcut_no : Z; cut_width : Z;
  N_tile_size : Z; N_tile_it : Z; M_tile_it : Z;
  M_current_tile_size : Z; K_tile_size : Z; weight_banks_reduce : Z }.

Definition empty {A} (l : list A) : bool :=
  match l with [] => true | _ => false end.

(** [cmds.begin()->cmd_type], read only where [cmds] is not empty. *)
Definition head_type (l : list Command) : CommandType :=
  match l with c :: _ => cmd_type c | [] => SIZE end.

Definition is_type (t : CommandType) (l : list Command) : bool :=
  bool_decide (head_type l = t).

Definition push_rd_w (cmd : Command) (c : Controller) : Controller :=
  mkController (pim_refresh_coming c) (IsInRef c) (pim_refresh_coming2 c)
    (wr_multitenant c) (rd_w_cmds_ c ++ [cmd]) (rd_in_cmds_ c)
    (release_time c) (wr_cmds_ c).

Definition push_rd_in (cmd : Command) (t : Z) (c : Controller) : Controller :=
  mkController (pim_refresh_coming c) (IsInRef c) (pim_refresh_coming2 c)
    (wr_multitenant c) (rd_w_cmds_ c) (rd_in_cmds_ c ++ [cmd])
    (release_time c ++ [t]) (wr_cmds_ c).

Definition push_wr (cmd : Command) (c : Controller) : Controller :=
  mkController (pim_refresh_coming c) (IsInRef c) (pim_refresh_coming2 c)
    (wr_multitenant c) (rd_w_cmds_ c) (rd_in_cmds_ c)
    (release_time c) (wr_cmds_ c ++ [cmd]).

(** [for (auto& it2 : batch) ctrls_[it2.Channel()]->lane.push_back(it2)] *)
Fixpoint emit (push : Command → Controller → Controller)
    (batch : list Command) (cs : list Controller) : result (list Controller) :=
  match batch with
  | [] => Ok cs
  | cmd :: batch =>
      c <- vget cs (Channel cmd);
      cs <- vset cs (Channel cmd) (push cmd c);
      emit push batch cs
  end.

Definition emit_all (clk : Z) (b : Batches) (cs : list Controller)
    : result (list Controller) :=
  cs <- emit push_rd_w (w_cmds b) cs;
  cs <- emit (fun cmd => push_rd_in cmd (wrap clk)) (in_cmds b) cs;
  emit push_wr (out_cmds b) cs.

(** The refresh look-ahead at the head of [ClockTick]. *)
Fixpoint clear_placed (idx : list Z) (c : CutState) : result CutState :=
  match idx with
  | [] => Ok c
  | j :: idx =>
      c <- put in_act_placed set_in_act_placed j false c;
      c <- put w_act_placed set_w_act_placed j false c;
      c <- put out_act_placed set_out_act_placed j false c;
      clear_placed idx c
  end.

Definition has_config (g : ConfigState) : bool :=
  negb (vcuts g =? -1) && negb (hcuts g =? -1).

Fixpoint refresh_lookahead (g : ConfigState) (cs : list Controller)
    (c : CutState) (wait_refresh : bool) : result (CutState * bool) :=
  match cs with
  | [] => Ok (c, wait_refresh)
  | ctrl :: cs =>
      if pim_refresh_coming ctrl && has_config g then
        c <- clear_placed (range (vcuts g *! hcuts g)) c;
        refresh_lookahead g cs c true
      else refresh_lookahead g cs c wait_refresh
  end.

Definition any_in_ref (cs : list Controller) : bool :=
  existsb (fun c => IsInRef c || pim_refresh_coming2 c) cs.

Section Engine.

Variable config_ : Config.

(** [ctrls_[ch]->GetReadyCommand(cmd, clk_)], for the controller of channel
    [ch] in its current state. *)
Variable GetReadyCommand : Z → Controller → Command → Z → Command.

Variable AddressUnmapping : Address → Z.

(** The controller's own [ClockTick], and a controller after the loop at
    the head of the system's [ClockTick] has drained its finished
    transactions. *)
Variable Controller_ClockTick : Controller → Controller.
Variable Controller_drained : Controller → Controller.

Definition geometry (g : ConfigState) (c : CutState) (i : Z)
    : result Geometry :=
  _ <- nonzero (vcuts g);
  let vcut_no := i %! vcuts g in
  _ <- nonzero (hcuts g);
  let cut_height := channels config_ /! hcuts g in
  let hcut_no := i /! vcuts g in
  let cut_width := banks config_ /! vcuts g in
  let N_tile_size := 128 /! vcuts g in
  nit <- vget (N_it c) i;
  _ <- nonzero N_tile_size;
  let N_tile_it := nit /! N_tile_size in
  mit <- vget (M_it c) i;
  _ <- nonzero (M_tile_size g);
  let M_tile_it := mit /! M_tile_size g in
  m <- vget (M c) i;
  let M_current_tile_size :=
    if m <? M_tile_size g *! (M_tile_it +! 1) then m %! M_tile_size g
    else M_tile_size g in
  k <- vget (K c) i;
  let K_tile_size := Z.min (cut_height *! 16) k in
  let weight_banks_reduce := if df g =? 1 then 16 else 1 in
  Ok (mkGeometry vcut_no cut_height hcut_no cut_width N_tile_size N_tile_it
        M_tile_it M_current_tile_size K_tile_size weight_banks_reduce).

(** The two nested loops that build the weight batch and the output batch:
    a command that is not ready, or whose kind differs from the first kind
    of the batch, empties the batch and leaves both loops. *)
Fixpoint atomic_inner (cs : list Controller) (clk : Z)
    (mk : Z → result (Z * Command)) (ks : list Z) (acc : list Command)
    : result (list Command) :=
  match ks with
  | [] => Ok acc
  | k :: ks =>
      '(ch, cmd) <- mk k;
      ctrl <- vget cs ch;
      let ready_cmd := GetReadyCommand ch ctrl cmd clk in
      if negb (IsValid ready_cmd) then Ok []
      else
        let acc := acc ++ [ready_cmd] in
        if bool_decide (head_type acc ≠ cmd_type ready_cmd) then Ok []
        else atomic_inner cs clk mk ks acc
  end.

Fixpoint atomic_outer (cs : list Controller) (clk : Z)
    (mk : Z → Z → result (Z * Command)) (js ks : list Z)
    (acc : list Command) : result (list Command) :=
  match js with
  | [] => Ok acc
  | j :: js =>
      acc <- atomic_inner cs clk (mk j) ks acc;
      if empty acc then Ok [] else atomic_outer cs clk mk js ks acc
  end.

(** The loops of the input batch: a command that is not ready empties the
    batch and leaves the inner loop only; a differing kind raises [mixed]. *)
Fixpoint feed_inner (cs : list Controller) (clk : Z)
    (mk : Z → result (Z * Command)) (ks : list Z)
    (acc : list Command) (mixed : bool) : result (list Command * bool) :=
  match ks with
  | [] => Ok (acc, mixed)
  | k :: ks =>
      '(ch, cmd) <- mk k;
      ctrl <- vget cs ch;
      let ready_cmd := GetReadyCommand ch ctrl cmd clk in
      if negb (IsValid ready_cmd) then Ok ([], mixed)
      else
        let acc := acc ++ [ready_cmd] in
        feed_inner cs clk mk ks acc
          (if bool_decide (head_type acc ≠ cmd_type ready_cmd) then true
           else mixed)
  end.

Fixpoint feed_outer (cs : list Controller) (clk : Z)
    (mk : Z → Z → result (Z * Command)) (js ks : list Z)
    (acc : list Command) (mixed : bool) : result (list Command * bool) :=
  match js with
  | [] => Ok (acc, mixed)
  | j :: js =>
      '(acc, mixed) <- feed_inner cs clk (mk j) ks acc mixed;
      feed_outer cs clk mk js ks acc mixed
  end.

(** *** State 0: fetching weight *)

Definition weight_cmd (geo : Geometry) (c : CutState)
    (i col_offset j k : Z) : result (Z * Command) :=
  let ch := hcut_no geo *! cut_height geo +! j in
  let bk := vcut_no geo *! cut_width geo +! k *! weight_banks_reduce geo in
  _ <- nonzero (banks_per_group config_);
  let bg := bk /! banks_per_group config_ in
  let bk := bk %! banks_per_group config_ in
  base <- vget (base_rows_w c) i;
  _ <- nonzero (BL config_);
  let per_row := columns config_ /! BL config_ in
  _ <- nonzero per_row;
  let addr :=
    mkAddress ch 0 bg bk (base +! col_offset /! per_row)
      (col_offset %! per_row) in
  let hex_addr := AddressUnmapping addr in
  n <- vget (N c) i;
  _ <- nonzero (banks config_);
  let d := Z.min n ((128 /! banks config_) *! weight_banks_reduce geo) in
  _ <- nonzero d;
  let cmd_type :=
    if ((column addr +! 1) %! d =? 0) || ((column addr +! 1) %! per_row =? 0)
    then PIM_READ_PRECHARGE else PIM_READ in
  Ok (ch, mkCommand cmd_type addr hex_addr).

Definition fetch_weight (g : ConfigState) (geo : Geometry)
    (wait_refresh : bool) (cs : list Controller) (clk i : Z) (c : CutState)
    : result (CutState * list Command) :=
  n <- vget (N c) i;
  let nbanks := cut_width geo /! weight_banks_reduce geo in
  _ <- nonzero nbanks;
  let N_tile_size_per_bank :=
    Z.min n ((N_tile_size geo -! 1) /! nbanks +! 1) in
  k <- vget (K c) i;
  _ <- nonzero (K_tile_size geo);
  kti <- vget (K_tile_it c) i;
  nit <- vget (N_it c) i;
  let col_offset :=
    N_tile_it geo
      *! (N_tile_size_per_bank *! ((k -! 1) /! K_tile_size geo +! 1))
    +! kti *! N_tile_size_per_bank +! nit %! N_tile_size geo in
  w <- atomic_outer cs clk (weight_cmd geo c i col_offset)
         (range (cut_height geo)) (range nbanks) [];
  if empty w then Ok (c, [])
  else if is_type PIM_ACTIVATE w then
    placed <- vget (w_act_placed c) i;
    if placed || wait_refresh then Ok (c, [])
    else
      c <- put w_act_placed set_w_act_placed i true c;
      Ok (c, w)
  else
    c <- (if is_type PIM_READ_PRECHARGE w
          then put w_act_placed set_w_act_placed i false c else Ok c);
    if (df g =? 1) && is_type PRECHARGE w then Ok (c, w)
    else
      nit <- vget (N_it c) i;
      let nit := nit +! 1 in
      c <- put N_it set_N_it i nit c;
      _ <- nonzero N_tile_size_per_bank;
      if (nit %! N_tile_size_per_bank =? 0)
         && ((N_tile_size geo =? N_tile_size_per_bank)
             || negb (nit %! N_tile_size geo =? 0))
      then
        c <- put N_it set_N_it i (N_tile_size geo *! N_tile_it geo) c;
        st <- vget (iw_status c) i;
        c <- put iw_status set_iw_status i (st +! 1) c;
        Ok (c, w)
      else Ok (c, w).

(** *** State 1: weight finished *)

Definition weight_finished (cuts i : Z) (c : CutState) : result CutState :=
  st <- vget (iw_status c) i;
  c <- put iw_status set_iw_status i (st +! 1) c;
  c <- put vpu_cnt set_vpu_cnt i 1 c;
  if (cuts =? 1) && existsb (fun x => (x =? 0) || (x =? 3)) (iw_status c)
  then
    st <- vget (iw_status c) i;
    put iw_status set_iw_status i (st -! 1) c
  else Ok c.

(** *** State 2: feeding input *)

Definition input_cmd (g : ConfigState) (geo : Geometry) (c : CutState)
    (i col_offset j k : Z) : result (Z * Command) :=
  let ch := hcut_no geo *! cut_height geo +! j in
  _ <- nonzero (mc g);
  let bk := vcut_no geo *! cut_width geo +! k *! (cut_width geo /! mc g) in
  _ <- nonzero (banks_per_group config_);
  let bg := bk /! banks_per_group config_ in
  let bk := bk %! banks_per_group config_ in
  base <- vget (base_rows_in c) i;
  _ <- nonzero (BL config_);
  let per_row := columns config_ /! BL config_ in
  _ <- nonzero per_row;
  let addr :=
    mkAddress ch 0 bg bk (base +! col_offset /! per_row)
      (col_offset %! per_row) in
  let hex_addr := AddressUnmapping addr in
  mit <- vget (M_it c) i;
  m <- vget (M c) i;
  let close := mit +! 1 =? m in
  close <- (if df g =? 1 then
              if close then
                kti <- vget (K_tile_it c) i;
                kk <- vget (K c) i;
                Ok (kk <=? (kti +! 1) *! K_tile_size geo)
              else Ok false
            else Ok close);
  let cmd_type :=
    if (column addr =? per_row -! 1) || close
    then PIM_READ_PRECHARGE else PIM_READ in
  Ok (ch, mkCommand cmd_type addr hex_addr).

Definition is_pim_read (cmd : Command) : bool :=
  bool_decide (cmd_type cmd = PIM_READ)
  || bool_decide (cmd_type cmd = PIM_READ_PRECHARGE).

(** The iterator updates at the end of state 2, after a READ batch went
    out. *)
Definition advance_input (g : ConfigState) (geo : Geometry) (i : Z)
    (c : CutState) : result CutState :=
  kti <- vget (K_tile_it c) i;
  kk <- vget (K c) i;
  mit <- vget (M_it c) i;
  c <- (if (kk <=? (kti +! 1) *! K_tile_size geo)
           && (mit %! M_tile_size g =? 0)
        then put out_cnt set_out_cnt i
               (Z.max 1 (tCCD_L config_ *! (3 +! 16) -! tRCDWR config_)) c
        else Ok c);
  let mit := mit +! 1 in
  c <- put M_it set_M_it i mit c;
  m <- vget (M c) i;
  if (mit %! M_tile_size g =? 0) || (mit =? m) then
    _ <- nonzero (vcuts g *! mc g);
    c <- put in_cnt set_in_cnt i
           (Z.max 1 (tCCD_L config_ *! Z.max (128 /! (vcuts g *! mc g)) 16
                     -! tRCDRD config_)) c;
    st <- vget (iw_status c) i;
    c <- put iw_status set_iw_status i (st +! 1) c;
    c <- put M_it set_M_it i (M_tile_size g *! M_tile_it geo) c;
    let kti := kti +! 1 in
    c <- put K_tile_it set_K_tile_it i kti c;
    if kk <=? kti *! K_tile_size geo then
      c <- put K_tile_it set_K_tile_it i 0 c;
      let nit := N_tile_size geo *! (N_tile_it geo +! 1) in
      c <- put N_it set_N_it i nit c;
      n <- vget (N c) i;
      if n <=? nit then
        c <- put N_it set_N_it i 0 c;
        let mit := M_tile_size g *! (M_tile_it geo +! 1) in
        c <- put M_it set_M_it i mit c;
        if m <=? mit then put in_cnt set_in_cnt i (-1) c
        else Ok c
      else Ok c
    else Ok c
  else Ok c.

Definition feed_input (g : ConfigState) (geo : Geometry)
    (wait_refresh : bool) (cs : list Controller) (clk cuts i : Z)
    (c : CutState) : result (CutState * list Command) :=
  v <- vget (vpu_cnt c) i;
  c <- put vpu_cnt set_vpu_cnt i (v -! 1) c;
  c <- put vpu_cnt set_vpu_cnt i (Z.max 0 (v -! 1)) c;
  kk <- vget (K c) i;
  _ <- nonzero (K_tile_size geo);
  kti <- vget (K_tile_it c) i;
  mit <- vget (M_it c) i;
  _ <- nonzero (M_tile_size g);
  let col_offset :=
    M_tile_it geo
      *! (M_tile_size g *! ((kk -! 1) /! K_tile_size geo +! 1))
    +! kti *! M_current_tile_size geo +! mit %! M_tile_size g in
  '(batch, mixed) <- feed_outer cs clk (input_cmd g geo c i col_offset)
                       (range (cut_height geo)) (range (mc g)) [] false;
  if (1 <? cuts)
     && negb (Z.of_nat (length batch) =? u64 (cut_height geo))
  then Ok (c, [])
  else
    let batch := if mixed then filter (fun x => negb (is_pim_read x)) batch
                 else batch in
    if empty batch then Ok (c, [])
    else if is_type PIM_ACTIVATE batch then
      placed <- (if mixed then Ok false else vget (in_act_placed c) i);
      if placed || wait_refresh then Ok (c, [])
      else
        c <- put in_act_placed set_in_act_placed i true c;
        Ok (c, batch)
    else
      c <- (if is_type PIM_READ_PRECHARGE batch
            then put in_act_placed set_in_act_placed i false c else Ok c);
      v <- vget (vpu_cnt c) i;
      if negb (v =? 0) then Ok (c, [])
      else
        _ <- assert (128 /! vcuts g <? M_tile_size g);
        c <- advance_input g geo i c;
        Ok (c, batch).

(** *** State 3: input finished *)

Definition input_finished (i : Z) (c : CutState) : result CutState :=
  cnt <- vget (in_cnt c) i;
  if cnt =? -1 then Ok c
  else
    let cnt := Z.max 0 (cnt -! 1) in
    c <- put in_cnt set_in_cnt i cnt c;
    if cnt =? 0 then
      ov <- vget (output_valid c) i;
      if ov =? 0 then put iw_status set_iw_status i 0 c else Ok c
    else Ok c.

(** *** Output write-back *)

Definition count_down (i : Z) (c : CutState) : result CutState :=
  oc <- vget (out_cnt c) i;
  c <- (if oc =? 0 then
          ov <- vget (output_valid c) i;
          put output_valid set_output_valid i (ov +! 1) c
        else Ok c);
  oc <- vget (out_cnt c) i;
  if negb (oc =? -1) then put out_cnt set_out_cnt i (oc -! 1) c else Ok c.

Definition output_cmd (g : ConfigState) (geo : Geometry) (c : CutState)
    (i col_offset vcut_out_no cut_height_out M_out j k : Z)
    : result (Z * Command) :=
  let ch :=
    hcut_no geo *! cut_height geo +! vcut_out_no *! cut_height_out +! j in
  _ <- nonzero (mc g);
  let bk := vcut_no geo *! cut_width geo +! k *! (cut_width geo /! mc g) in
  let bk := if negb (df g =? 1) then bk +! 1 else bk in
  _ <- nonzero (banks_per_group config_);
  let bg := bk /! banks_per_group config_ in
  let bk := bk %! banks_per_group config_ in
  base <- vget (base_rows_out c) i;
  _ <- nonzero (BL config_);
  let per_row := columns config_ /! BL config_ in
  _ <- nonzero per_row;
  let addr :=
    mkAddress ch 0 bg bk (base +! col_offset /! per_row)
      (col_offset %! per_row) in
  let hex_addr := AddressUnmapping addr in
  moi <- vget (M_out_it c) i;
  let cmd_type :=
    if (column addr =? per_row -! 1) || (moi +! 1 =? M_out)
    then PIM_WRITE_PRECHARGE else PIM_WRITE in
  Ok (ch, mkCommand cmd_type addr hex_addr).

(** [turn_off] after the loop over [in_pim] that follows "Output
    Exhausted"; the diagnostic line reads three vectors at every cut that
    is still active. *)
Fixpoint none_active (c : CutState) (idx : list Z) (off : bool)
    : result bool :=
  match idx with
  | [] => Ok off
  | j :: idx =>
      p <- vget (in_pim c) j;
      if p then
        _ <- vget (M_out_it c) j;
        _ <- vget (K_tile_it c) j;
        _ <- vget (N_out_tile_it c) j;
        none_active c idx false
      else none_active c idx off
  end.

Definition advance_output (g : ConfigState) (geo : Geometry)
    (i M_tile_size_out M_out_tile_it M_out N_out N_tile_size_out : Z)
    (c : CutState) (off : bool) : result (CutState * bool) :=
  moi <- vget (M_out_it c) i;
  let moi := moi +! 1 in
  c <- put M_out_it set_M_out_it i moi c;
  if (moi %! M_tile_size_out =? 0) || (moi =? M_out) then
    c <- put M_out_it set_M_out_it i (M_tile_size_out *! M_out_tile_it) c;
    noti <- vget (N_out_tile_it c) i;
    let noti := noti +! 1 in
    c <- put N_out_tile_it set_N_out_tile_it i noti c;
    '(c, off) <-
      (if N_out <=? noti *! N_tile_size_out then
         c <- put N_out_tile_it set_N_out_tile_it i 0 c;
         let moi := M_tile_size_out *! (M_out_tile_it +! 1) in
         c <- put M_out_it set_M_out_it i moi c;
         if M_out <=? moi then
           cnt <- vget (in_cnt c) i;
           _ <- assert (cnt =? -1);
           c <- put in_pim set_in_pim i false c;
           c <- (if cut_height geo <? vcuts g
                 then put in_pim set_in_pim (i +! 1) false c else Ok c);
           off <- none_active c (range (Z.of_nat (length (in_pim c)))) true;
           Ok (c, off)
         else Ok (c, off)
       else Ok (c, off));
    ov <- vget (output_valid c) i;
    c <- put output_valid set_output_valid i (ov -! 1) c;
    c <- (if cut_height geo <? vcuts g then
            ov <- vget (output_valid c) (i +! 1);
            put output_valid set_output_valid (i +! 1) (ov -! 1) c
          else Ok c);
    Ok (c, off)
  else Ok (c, off).

Definition write_output (g : ConfigState) (geo : Geometry)
    (wait_refresh : bool) (cs : list Controller) (clk i : Z)
    (output_ready : bool) (c : CutState) (off : bool)
    : result (CutState * bool * list Command) :=
  c <- count_down i c;
  let out_enable :=
    (0 <? cut_height geo /! vcuts g) || (vcut_no geo %! 2 =? 0) in
  ov <- vget (output_valid c) i;
  if (0 <? ov) && output_ready && out_enable then
    m <- vget (M c) i;
    noti <- vget (N_out_tile_it c) i;
    let vcut_out_no :=
      if m =? 1 then vcut_no geo
      else if vcuts g =? 16 then vcut_no geo /! 2
      else (vcut_no geo +! noti) %! vcuts g in
    let M_tile_size_out :=
      if df g =? 1 then (M_tile_size g /! 128) *! mcf g else M_tile_size g in
    moi <- vget (M_out_it c) i;
    _ <- nonzero M_tile_size_out;
    let M_out_tile_it := moi /! M_tile_size_out in
    let M_out := if df g =? 1 then Z.max 1 (m *! mcf g /! 128) else m in
    let M_out_current_tile_size :=
      if M_out <? M_tile_size_out *! (M_out_tile_it +! 1)
      then M_out %! M_tile_size_out else M_tile_size_out in
    n <- vget (N c) i;
    let N_out := if df g =? 1 then 128 else n in
    let N_tile_size_out := if df g =? 1 then 128 else N_tile_size geo in
    _ <- nonzero N_tile_size_out;
    let N_tile_num := (n -! 1) /! N_tile_size_out +! 1 in
    let N_tile_num_ch := N_tile_num /! vcuts g in
    let N_tile_num_ch :=
      N_tile_num_ch
      +! (if noti %! vcuts g <? N_tile_num %! vcuts g then 1 else 0) in
    let N_tile_it_ch := noti /! vcuts g in
    let col_offset :=
      M_out_tile_it *! (M_tile_size_out *! N_tile_num_ch)
      +! N_tile_it_ch *! M_out_current_tile_size
      +! moi %! M_tile_size_out in
    let cut_height_out :=
      if cut_height geo <? vcuts g then 1 else cut_height geo /! vcuts g in
    let k_bound := if df g =? 1 then 1 else mc g in
    out <- atomic_outer cs clk
             (output_cmd g geo c i col_offset vcut_out_no cut_height_out
                M_out)
             (range cut_height_out) (range k_bound) [];
    if empty out then Ok (c, off, [])
    else if is_type PIM_ACTIVATE out then
      placed <- vget (out_act_placed c) i;
      if placed || wait_refresh then Ok (c, off, [])
      else
        c <- put out_act_placed set_out_act_placed i true c;
        Ok (c, off, out)
    else
      c <- (if is_type PIM_WRITE_PRECHARGE out
            then put out_act_placed set_out_act_placed i false c else Ok c);
      '(c, off) <- advance_output g geo i M_tile_size_out M_out_tile_it
                     M_out N_out N_tile_size_out c off;
      Ok (c, off, out)
  else Ok (c, off, []).

(** *** One iteration of the loop over the cuts *)

Definition run_state (g : ConfigState) (geo : Geometry)
    (wait_refresh : bool) (cs : list Controller) (clk cuts i st : Z)
    (c : CutState) : result (CutState * list Command * list Command) :=
  if st =? 0 then
    '(c, w) <- fetch_weight g geo wait_refresh cs clk i c; Ok (c, w, [])
  else if st =? 1 then
    c <- weight_finished cuts i c; Ok (c, [], [])
  else if st =? 2 then
    '(c, b) <- feed_input g geo wait_refresh cs clk cuts i c; Ok (c, [], b)
  else if st =? 3 then
    c <- input_finished i c; Ok (c, [], [])
  else Ok (c, [], []).

Definition no_batches : Batches := mkBatches [] [] [].

Definition cut_step (wait_refresh is_in_ref : bool) (cuts i : Z)
    (s : System) : result (System * Batches) :=
  p <- vget (in_pim (cut s)) i;
  if negb p || is_in_ref then Ok (s, no_batches)
  else
    geo <- geometry (cfg s) (cut s) i;
    st <- vget (iw_status (cut s)) i;
    let output_ready := st =? 3 in
    '(c, w, inb) <- run_state (cfg s) geo wait_refresh (ctrls_ s) (clk_ s)
                      cuts i st (cut s);
    '(c, off, out) <- write_output (cfg s) geo wait_refresh (ctrls_ s)
                        (clk_ s) i output_ready c (turn_off s);
    let b := mkBatches w inb out in
    cs <- emit_all (clk_ s) b (ctrls_ s);
    Ok (with_ctrls cs (with_turn_off off (with_cut c s)), b).

(** The loop over the cuts; the second component lists, cut by cut, the
    batches that went to the controllers. *)
Fixpoint cut_loop (wait_refresh is_in_ref : bool) (cuts : Z)
    (idx : list Z) (s : System) (log : list Batches)
    : result (System * list Batches) :=
  match idx with
  | [] => Ok (s, log)
  | i :: idx =>
      '(s, b) <- cut_step wait_refresh is_in_ref cuts i s;
      cut_loop wait_refresh is_in_ref cuts idx s (log ++ [b])
  end.

Definition wait_refresh_of (s : System) : bool :=
  existsb pim_refresh_coming (ctrls_ s) && has_config (cfg s).

(** [ClockTick] from the refresh look-ahead to the end of the loop over
    the cuts. *)
Definition pim_tick (s : System) : result (System * list Batches) :=
  '(c, wait_refresh) <- refresh_lookahead (cfg s) (ctrls_ s) (cut s) false;
  s <- decode (with_cut c s);
  let is_in_ref := any_in_ref (ctrls_ s) in
  let cuts :=
    if has_config (cfg s) then vcuts (cfg s) *! hcuts (cfg s) else 0 in
  cut_loop wait_refresh is_in_ref cuts (range cuts) s [].

Definition ClockTick (s : System) : result System :=
  let s := with_ctrls (Controller_drained <$> ctrls_ s) s in
  '(s, _) <- pim_tick s;
  let s := with_ctrls (Controller_ClockTick <$> ctrls_ s) s in
  Ok (with_clk (u64 (clk_ s + 1)) s).

End Engine.

(** ** Control words and controllers for concrete runs *)

(** The three control-word layouts, field by field from bit 0. *)
Definition enable_word (mask : Z) : Z := Z.lor 1 (Z.shiftl mask 1).

Definition load_word (cut_no loadType dim_value base_row : Z) : Z :=
  Z.lor (Z.shiftl cut_no 1)
    (Z.lor (Z.shiftl loadType 5)
       (Z.lor (Z.shiftl dim_value 7) (Z.shiftl base_row 39))).

Definition configure_word (lg_vcuts lg_hcuts lg_mcf lg_ucf df lg_Mtile : Z)
    : Z :=
  Z.lor (Z.shiftl 3 5)
    (Z.lor (Z.shiftl lg_vcuts 7)
       (Z.lor (Z.shiftl lg_hcuts 10)
          (Z.lor (Z.shiftl lg_mcf 11)
             (Z.lor (Z.shiftl lg_ucf 14)
                (Z.lor (Z.shiftl df 17) (Z.shiftl lg_Mtile 18)))))).

(** A controller that is ready for every command it is asked for, and one
    that answers every request with the ACTIVATE that must precede it. *)
Definition ready_as_asked (ch : Z) (c : Controller) (cmd : Command) (clk : Z)
    : Command := cmd.

Definition ready_activate (ch : Z) (c : Controller) (cmd : Command)
    (clk : Z) : Command :=
  mkCommand PIM_ACTIVATE (addr cmd) (hex_addr cmd).

Definition flat_address (a : Address) : Z := 0.

Definition ddr_config : Config := mkConfig 4 16 4 1024 8 6 20 20.

(** ** Views and concrete states *)

(** The bits [lo], ..., [lo + width - 1] of a word, as the layout of the
    control words names them. *)
Definition bits (w lo width : Z) : Z := (w / 2 ^ lo) mod 2 ^ width.

(** What a Load writes: the three base-row vectors and the three
    dimension vectors. *)
Definition loaded (c : CutState) :=
  (base_rows_w c, base_rows_in c, base_rows_out c, M c, K c, N c).

Definition run (r : result System) (s : System) : System :=
  match r with Ok s' => s' | _ => s end.

Definition two_cuts : System :=
  Eval vm_compute in
    let s := with_queue [configure_word 1 0 0 0 0 8] (initial_system 8 2) in
    run (decode s) s.

Definition load_request : System :=
  with_queue [load_word 1 0 16 3; load_word 1 0 16 3] two_cuts.

Definition load_done : System :=
  Eval vm_compute in run (decode load_request) load_request.

Definition ready_request : System :=
  Eval vm_compute in
    let s :=
      with_queue [load_word 0 0 4 1; load_word 0 1 4 2; load_word 0 2 4 3;
                  load_word 1 0 4 4; load_word 1 1 4 5; load_word 1 2 4 6;
                  enable_word 1] two_cuts in
    let s := run (decode s) s in let s := run (decode s) s in
    let s := run (decode s) s in let s := run (decode s) s in
    let s := run (decode s) s in run (decode s) s.

Definition load_sized (n : nat) (c : CutState) : Prop :=
  length (base_rows_w c) = n ∧ length (base_rows_in c) = n
  ∧ length (base_rows_out c) = n
  ∧ length (M c) = n ∧ length (N c) = n ∧ length (K c) = n.

Definition overflowing_load : System :=
  with_queue [load_word 5 0 16 3] two_cuts.

Definition early_enable : System :=
  with_queue [enable_word 1] (initial_system 8 2).

Definition configure_request : System :=
  with_queue [configure_word 1 0 2 1 0 8] (initial_system 8 2).

(** [c'] differs from [c] in the placement flags at most by flags that
    went down. *)
Definition lowered {A} (fld : A → list bool) (c c' : A) : Prop :=
  length (fld c') = length (fld c)
  ∧ ∀ j b, fld c' !! j = Some b → b = false ∨ fld c !! j = Some b.

Definition only_lowered (c c' : CutState) : Prop :=
  lowered in_act_placed c c' ∧ lowered w_act_placed c c'
  ∧ lowered out_act_placed c c'.

Definition no_activate (b : Batches) : Prop :=
  is_type PIM_ACTIVATE (w_cmds b) = false
  ∧ is_type PIM_ACTIVATE (in_cmds b) = false
  ∧ is_type PIM_ACTIVATE (out_cmds b) = false.

Definition ncuts (g : ConfigState) : Z := vcuts g *! hcuts g.

Definition placed_clear (n : Z) (c : CutState) : Prop :=
  ∀ j, 0 <= j < n →
    in_act_placed c !! Z.to_nat j = Some false
    ∧ w_act_placed c !! Z.to_nat j = Some false
    ∧ out_act_placed c !! Z.to_nat j = Some false.

(** A cut state with the three placement-flag vectors blanked. *)
Definition unplaced (c : CutState) : CutState :=
  set_in_act_placed [] (set_w_act_placed [] (set_out_act_placed [] c)).

Definition lanes (c : Controller) :=
  (rd_w_cmds_ c, rd_in_cmds_ c, release_time c, wr_cmds_ c).

Definition after_tick (oracle : Z → Controller → Command → Z → Command)
    (s : System) : System :=
  match pim_tick ddr_config oracle flat_address s with
  | Ok (s', _) => s'
  | _ => s
  end.

Definition refresh_coming (c : Controller) : Controller :=
  mkController true (IsInRef c) (pim_refresh_coming2 c) (wr_multitenant c)
    (rd_w_cmds_ c) (rd_in_cmds_ c) (release_time c) (wr_cmds_ c).

Definition in_refresh (c : Controller) : Controller :=
  mkController (pim_refresh_coming c) true (pim_refresh_coming2 c)
    (wr_multitenant c) (rd_w_cmds_ c) (rd_in_cmds_ c) (release_time c)
    (wr_cmds_ c).

(** One cut over 4 channels and 16 banks, M = N = K = 16, loaded and about
    to be enabled. *)
Definition one_cut_loaded : System :=
  Eval vm_compute in
    let s :=
      with_queue [configure_word 0 0 0 0 0 8; load_word 0 0 16 3;
                  load_word 0 1 16 5; load_word 0 2 16 7; enable_word 1]
        (initial_system 8 4) in
    after_tick ready_as_asked
      (after_tick ready_as_asked
         (after_tick ready_as_asked (after_tick ready_as_asked s))).

Definition enable_while_refresh_coming : System :=
  with_ctrls (refresh_coming <$> ctrls_ one_cut_loaded) one_cut_loaded.

(** The same cut after its first weight ACTIVATE went out, on a tick
    where the controllers are in refresh and report a coming refresh. *)
Definition activated_in_refresh : System :=
  Eval vm_compute in
    let s := after_tick ready_activate one_cut_loaded in
    with_ctrls (in_refresh <$> (refresh_coming <$> ctrls_ s)) s.

(** ** The iterator bounds of a cut *)

Section Bounds.

Variable config_ : Config.

(** [N_tile_size_per_bank] of state 0, for a cut whose [N] is [n]. *)
Definition per_bank (g : ConfigState) (n : Z) : Z :=
  Z.min n
    ((128 ÷ vcuts g -! 1)
       ÷ (banks config_ ÷ vcuts g ÷ (if df g =? 1 then 16 else 1)) +! 1).

(** The bounds on the iterators of one cut: [mit] and [nit] are
    [M_it] and [N_it]; [cnt] and [st] are [in_cnt] and [iw_status].
    [M_it] is below [M] until the end of the computation, which leaves it
    at the next multiple of the tile size; [N_it] is in a tile that starts
    below [N], and has not passed a multiple of [per_bank] in it. *)
Definition M_bounds (g : ConfigState) (m mit cnt st : Z) : Prop :=
  0 <= mit
  ∧ (mit < m ∨ (mit < m + M_tile_size g ∧ cnt = -1 ∧ st = 3)).

Definition N_bounds (g : ConfigState) (n nit : Z) : Prop :=
  0 <= nit
  ∧ (128 ÷ vcuts g) * (nit ÷ (128 ÷ vcuts g)) < n
  ∧ nit ÷ per_bank g n
    = (128 ÷ vcuts g) * (nit ÷ (128 ÷ vcuts g)) ÷ per_bank g n.

Definition bounds (g : ConfigState) (m n mit nit cnt st : Z) : Prop :=
  0 < n ∧ n + 128 < 2 ^ 31 ∧ m + M_tile_size g < 2 ^ 31
  ∧ M_bounds g m mit cnt st ∧ N_bounds g n nit.

Definition tile_bounds (g : ConfigState) (c : CutState) (i : nat) : Prop :=
  ∃ m n mit nit cnt st,
    M c !! i = Some m ∧ N c !! i = Some n
    ∧ M_it c !! i = Some mit ∧ N_it c !! i = Some nit
    ∧ in_cnt c !! i = Some cnt ∧ iw_status c !! i = Some st
    ∧ bounds g m n mit nit cnt st.

Definition well_formed (g : ConfigState) : Prop :=
  0 <= banks config_ ∧ 1 <= vcuts g <= 128 ∧ 0 < M_tile_size g.

Definition geometry_of (g : ConfigState) (c : CutState) (j : Z)
    (geo : Geometry) : Prop :=
  ∃ nit mit,
    vget (N_it c) j = Ok nit ∧ vget (M_it c) j = Ok mit
    ∧ N_tile_size geo = 128 ÷ vcuts g
    ∧ N_tile_it geo = nit ÷ (128 ÷ vcuts g)
    ∧ M_tile_it geo = mit ÷ M_tile_size g
    ∧ cut_width geo = banks config_ ÷ vcuts g
    ∧ weight_banks_reduce geo = (if df g =? 1 then 16 else 1).

End Bounds.

Definition no_reconfig (s : System) : Prop :=
  match pim_trans_queue_ s with
  | [] => True
  | w :: _ => is_compute w = true
  end.

Fixpoint ticks (oracle : Z → Controller → Command → Z → Command) (n : nat)
    (s : System) : System :=
  match n with
  | O => s
  | S n => ticks oracle n (after_tick oracle s)
  end.

(** The cut of [one_cut_loaded] (M = 16, one M-tile of 256) 24 ticks
    later, in state 2 with one input row left. *)
Definition last_input_row : System :=
  Eval vm_compute in
    with_ctrls (replicate 4 fresh_controller)
      (ticks ready_as_asked 24 one_cut_loaded).

(** One cut with M = K = 1 and N = 130, which is two N-tiles of 128, at
    the third weight fetch of the second tile. *)
Definition second_tile_fetch : System :=
  Eval vm_compute in
    with_ctrls (replicate 4 fresh_controller)
      (ticks ready_as_asked 764
         (with_queue [configure_word 0 0 0 0 0 8; load_word 0 0 1 3;
                      load_word 0 1 1 5; load_word 0 2 130 7; enable_word 1]
            (initial_system 8 4))).

(** ** Channel selection and conventional transactions *)

(** Modelled from the spec: the fields of [Config] that [GetChannel] reads
    ([configuration.h] is not part of [src/]); the shift counts are [int]s
    and the mask is a [uint64_t]. *)
Record AddressMap : Type := mkAddressMap {
  shift_bits : Z; ch_pos : Z; ch_mask : Z }.

(** [x >> n] at type [uint64_t], [n] an [int]. *)
Definition shr64 (x n : Z) : result Z :=
  if (n <? 0) || (64 <=? n) then Undef else Ok (Z.shiftr x n).

Definition GetChannel (m : AddressMap) (hex_addr : Z) : result Z :=
  hex_addr <- shr64 (u64 hex_addr) (shift_bits m);
  hex_addr <- shr64 hex_addr (ch_pos m);
  Ok (wrap (Z.land hex_addr (u64 (ch_mask m)))).

(** Modelled from the spec: the fields of a [Transaction] that this file
    reads and writes ([common.h] is not part of [src/]). [trans_addr] is
    the field [addr]. *)
Record Transaction : Type := mkTransaction {
  trans_addr : Z; is_write : bool; added_cycle : Z;
  targetChans : list Z; targetBanks : list Z; row_addr : Z; col_num : Z }.

(** Modelled from the spec: [Transaction(hex_addr, is_write)], which names
    two fields; the others start at zero or empty. *)
Definition new_transaction (hex : Z) (w : bool) : Transaction :=
  mkTransaction hex w 0 [] [] 0 0.

Section Conventional.

Variable map_ : AddressMap.

(** [ctrls_[channel]->WillAcceptTransaction(hex_addr, is_write)] and
    [ctrls_[channel]->AddTransaction(trans)] belong to the controller. *)
Variable Controller_WillAcceptTransaction : Controller → Z → bool → bool.
Variable Controller_AddTransaction : Controller → Transaction → Controller.

(** [WillAcceptTransaction(hex_addr, is_write)] *)
Definition WillAcceptTransaction_rw (s : System) (hex : Z) (w : bool)
    : result bool :=
  ch <- GetChannel map_ hex;
  c <- vget (ctrls_ s) ch;
  Ok (Controller_WillAcceptTransaction c hex w).

(** [AddTransaction(hex_addr, is_write)] *)
Definition AddTransaction_rw (s : System) (hex : Z) (w : bool)
    : result (System * bool) :=
  ch <- GetChannel map_ hex;
  c <- vget (ctrls_ s) ch;
  let ok := Controller_WillAcceptTransaction c hex w in
  _ <- assert ok;
  cs <- (if ok then
           c <- vget (ctrls_ s) ch;
           vset (ctrls_ s) ch
             (Controller_AddTransaction c (new_transaction hex w))
         else Ok (ctrls_ s));
  Ok (with_last_req_clk (clk_ s) (with_ctrls cs s), ok).

End Conventional.

(** ** [GetReadyCommandPIM] *)

(** Modelled from the spec: [Command()], the sentinel that [IsValid]
    rejects. *)
Definition invalid_command : Command :=
  mkCommand SIZE (mkAddress (-1) (-1) (-1) (-1) (-1) (-1)) 0.

(** The command that [GetReadyCommandPIM] asks the controller of channel
    [itC] for, at bank [itB]. *)
Definition wanted (trans : Transaction) (type : CommandType) (itC itB : Z)
    : Command :=
  mkCommand type
    (mkAddress (wrap itC) 0 0 (wrap itB) (wrap (row_addr trans))
       (wrap (col_num trans)))
    (trans_addr trans).

(** A loop body either leaves the function with a command or goes on with
    the loop's variables. *)
Inductive flow (A : Type) : Type :=
  | Return (c : Command)
  | Next (a : A).

Arguments Return {A} c.
Arguments Next {A} a.

Section ReadyPIM.

Variable GetReadyCommand : Z → Controller → Command → Z → Command.

(** [bank_occupancy_[itC][itB]] *)
Definition occupied (occ : list (list bool)) (itC itB : Z) : result bool :=
  r <- vget occ itC; vget r itB.

(** The loop over [targetBanks]; its variables are [first], [sameornot]
    and [ready_cmd]. The line printed on failure reads the occupancy
    again. *)
Fixpoint over_banks (cs : list Controller) (occ : list (list bool))
    (clk : Z) (trans : Transaction) (type : CommandType) (itC : Z)
    (bs : list Z) (st : bool * bool * Command)
    : result (flow (bool * bool * Command)) :=
  match bs with
  | [] => Ok (Next st)
  | itB :: bs =>
      let '(first, sameornot, _) := st in
      let cmd := wanted trans type itC itB in
      ctrl <- vget cs itC;
      let ready_cmd := GetReadyCommand itC ctrl cmd clk in
      let same := bool_decide (cmd_type cmd = cmd_type ready_cmd) in
      if negb first && negb (eqb sameornot same)
      then Ok (Return invalid_command)
      else
        let sameornot := if first then same else sameornot in
        fail <- (if negb (IsValid ready_cmd) then Ok true
                 else occupied occ itC itB);
        if fail then
          _ <- occupied occ itC itB; Ok (Return invalid_command)
        else
          over_banks cs occ clk trans type itC bs
            (false, sameornot, ready_cmd)
  end.

Fixpoint over_chans (cs : list Controller) (occ : list (list bool))
    (clk : Z) (trans : Transaction) (type : CommandType)
    (chs : list Z) (st : bool * bool * Command)
    : result (flow (bool * bool * Command)) :=
  match chs with
  | [] => Ok (Next st)
  | itC :: chs =>
      r <- over_banks cs occ clk trans type itC (targetBanks trans) st;
      match r with
      | Return c => Ok (Return c)
      | Next st => over_chans cs occ clk trans type chs st
      end
  end.

Definition GetReadyCommandPIM (cs : list Controller)
    (occ : list (list bool)) (clk : Z) (trans : Transaction)
    (type : CommandType) : result Command :=
  r <- over_chans cs occ clk trans type (targetChans trans)
         (true, false, invalid_command);
  match r with
  | Return c => Ok c
  | Next (_, _, ready_cmd) => Ok ready_cmd
  end.

End ReadyPIM.

(** ** The ideal memory *)

Inductive Callback : Type :=
  | read_callback_ (a : Z)
  | write_callback_ (a : Z).

Module Ideal.

Record System : Type := mkSystem {
  infinite_buffer_q_ : list Transaction; latency_ : Z; clk_ : Z }.

(** [clk_ - trans_it->added_cycle >= static_cast<uint64_t>(latency_)] *)
Definition due (s : System) (t : Transaction) : bool :=
  u64 (latency_ s) <=? u64 (clk_ s - added_cycle t).

Definition callback (t : Transaction) : Callback :=
  if is_write t then write_callback_ (trans_addr t)
  else read_callback_ (trans_addr t).

Definition AddTransaction (s : System) (hex : Z) (w : bool)
    : System * bool :=
  let trans := new_transaction hex w in
  let trans :=
    mkTransaction (trans_addr trans) (is_write trans) (clk_ s)
      (targetChans trans) (targetBanks trans) (row_addr trans)
      (col_num trans) in
  (mkSystem (infinite_buffer_q_ s ++ [trans]) (latency_ s) (clk_ s), true).

(** The loop of [ClockTick] from the position of [trans_it]: the queue
    that is left and the callbacks, in the order of the calls. [erase]
    returns the position of the next transaction, and the increment at the
    end of the body steps over it. *)
Fixpoint scan (s : System) (q : list Transaction)
    : list Transaction * list Callback :=
  match q with
  | [] => ([], [])
  | t :: rest =>
      if due s t then
        match rest with
        | [] => ([], [callback t])
        | t' :: rest' =>
            let '(q', cbs) := scan s rest' in (t' :: q', callback t :: cbs)
        end
      else
        let '(q', cbs) := scan s rest in (t :: q', cbs)
  end.

Definition ClockTick (s : System) : System * list Callback :=
  let '(q, cbs) := scan s (infinite_buffer_q_ s) in
  (mkSystem q (latency_ s) (u64 (clk_ s + 1)), cbs).

End Ideal.

(** A controller that accepts reads only, and one that records what it
    is given in its write lane. *)
Definition accept_reads (c : Controller) (hex : Z) (w : bool) : bool :=
  negb w.

Definition count_transaction (c : Controller) (t : Transaction)
    : Controller :=
  push_wr (mkCommand (if is_write t then WRITE else READ)
             (mkAddress 0 0 0 0 0 0) (trans_addr t)) c.


(** What [GetReadyCommandPIM] requires of one target: the controller of
    channel [itC] exists and has a valid command ready for bank [itB], the
    bank is not occupied, and the ready command is of the requested kind
    exactly if [same] says so. *)
Definition target_ready
    (GetReadyCommand : Z → Controller → Command → Z → Command)
    (cs : list Controller) (occ : list (list bool)) (clk : Z)
    (trans : Transaction) (type : CommandType) (same : bool) (itC itB : Z)
    : Prop :=
  ∃ ctrl,
    vget cs itC = Ok ctrl
    ∧ occupied occ itC itB = Ok false
    ∧ IsValid (GetReadyCommand itC ctrl (wanted trans type itC itB) clk)
      = true
    ∧ bool_decide
        (type
         = cmd_type (GetReadyCommand itC ctrl (wanted trans type itC itB) clk))
      = same.

(** The loop variables of [GetReadyCommandPIM] between two iterations:
    before the first one [ready_cmd] is still [rc0]; afterwards it is a
    valid command that agrees with [sameornot]. *)
Definition ready_state (type : CommandType) (rc0 : Command)
    (st : bool * bool * Command) : Prop :=
  let '(first, sameornot, ready_cmd) := st in
  if first then ready_cmd = rc0
  else IsValid ready_cmd = true
       ∧ bool_decide (type = cmd_type ready_cmd) = sameornot.

(** A PIM transaction for two channels and two banks, and the occupancy
    table of a system of two channels of four banks, all free. *)
Definition pim_request : Transaction :=
  mkTransaction 0 false 0 [0; 1] [0; 2] 3 5.

Definition free_banks : list (list bool) := replicate 2 (replicate 4 false).

(** [n] ticks of the ideal memory. *)
Fixpoint ideal_ticks (n : nat) (s : Ideal.System) : Ideal.System :=
  match n with
  | O => s
  | S n => ideal_ticks n (Ideal.ClockTick s).1
  end.

(** An ideal memory of latency 3 at cycle 10, with one read that is due,
    one write that is due and one read that is not. *)
Definition ideal_busy : Ideal.System :=
  Ideal.mkSystem
    [mkTransaction 64 false 2 [] [] 0 0; mkTransaction 128 true 4 [] [] 0 0;
     mkTransaction 192 false 9 [] [] 0 0] 3 10.

(** The per-cut vectors that the engine owns: the iterators, the state
    and the counters. With [loaded] they are the whole cut state. *)
Definition engine_state (c : CutState) :=
  (M_it c, K_tile_it c, N_it c, M_out_it c, N_out_tile_it c,
   in_pim c, iw_status c, in_cnt c, out_cnt c, vpu_cnt c,
   in_act_placed c, w_act_placed c, out_act_placed c, output_valid c).

(** What the loop over the cuts has no statement for. *)
Definition outside_engine (s : System) :=
  (cfg s, pim_trans_queue_ s, pim_trans_queue_depth_ s, clk_ s,
   last_req_clk_ s).


(** The commands of a batch that go to the controller of channel [j]. *)
Definition sent_to (j : nat) (l : list Command) : list Command :=
  filter (λ cmd, Channel cmd = Z.of_nat j) l.

(** The controller of channel [j] after the batches [b] of one cut went
    out at clock [clk]. *)
Definition deliver (j : nat) (clk : Z) (b : Batches) (c : Controller)
    : Controller :=
  mkController (pim_refresh_coming c) (IsInRef c) (pim_refresh_coming2 c)
    (wr_multitenant c)
    (rd_w_cmds_ c ++ sent_to j (w_cmds b))
    (rd_in_cmds_ c ++ sent_to j (in_cmds b))
    (release_time c ++ replicate (length (sent_to j (in_cmds b))) (wrap clk))
    (wr_cmds_ c ++ sent_to j (out_cmds b)).

(** All commands of a batch are valid and of the kind of the first. *)
Definition homogeneous (l : list Command) : Prop :=
  Forall (λ c, IsValid c = true ∧ cmd_type c = head_type l) l.

(** What holds of the batches of one cut: the weight batch and the output
    batch are of one kind; the input batch holds valid commands only, and
    is of one kind or without any read. *)
Definition batch_ok (b : Batches) : Prop :=
  homogeneous (w_cmds b) ∧ homogeneous (out_cmds b)
  ∧ Forall (λ c, IsValid c = true) (in_cmds b)
  ∧ (homogeneous (in_cmds b)
     ∨ Forall (λ c, is_pim_read c = false) (in_cmds b)).

(** The lengths of the twenty per-cut vectors. *)
Definition sizes (c : CutState) : list nat :=
  [length (base_rows_w c); length (base_rows_in c); length (base_rows_out c);
   length (M c); length (N c); length (K c);
   length (M_it c); length (K_tile_it c); length (N_it c);
   length (M_out_it c); length (N_out_tile_it c);
   length (in_pim c); length (iw_status c);
   length (in_cnt c); length (out_cnt c); length (vpu_cnt c);
   length (in_act_placed c); length (w_act_placed c);
   length (out_act_placed c); length (output_valid c)].

(** Every per-cut vector has one entry for each cut of the
    configuration. *)
Definition sized (s : System) : Prop :=
  sizes (cut s) = replicate 20 (Z.to_nat (ncuts (cfg s))).

(** The state and the counters of every cut are in their ranges: the
    state is 0, 1, 2 or 3, [in_cnt] and [out_cnt] are at least -1, and
    [vpu_cnt] is not negative. *)
Definition counters_ok (c : CutState) : Prop :=
  Forall (λ st, 0 <= st <= 3) (iw_status c)
  ∧ Forall (λ x, -1 <= x < 2 ^ 31) (in_cnt c)
  ∧ Forall (λ x, -1 <= x < 2 ^ 31) (out_cnt c)
  ∧ Forall (λ x, 0 <= x < 2 ^ 31) (vpu_cnt c).

(** The entries of the twenty per-cut vectors at one cut. *)
Definition entries (c : CutState) (k : nat) :=
  (base_rows_w c !! k, base_rows_in c !! k, base_rows_out c !! k,
   M c !! k, N c !! k, K c !! k,
   M_it c !! k, K_tile_it c !! k, N_it c !! k,
   M_out_it c !! k, N_out_tile_it c !! k,
   in_pim c !! k, iw_status c !! k,
   in_cnt c !! k, out_cnt c !! k, vpu_cnt c !! k,
   in_act_placed c !! k, w_act_placed c !! k, out_act_placed c !! k,
   output_valid c !! k).

(** [turn_off] is down, or no cut is enabled. *)
Definition off_means_idle (s : System) : Prop :=
  turn_off s = false ∨ Forall (λ p, p = false) (in_pim (cut s)).

(** Two cuts over two channels, both loaded and enabled. *)
Definition both_enabled : System :=
  Eval vm_compute in
    let s := with_queue [enable_word 3] ready_request in run (decode s) s.

Definition narrow_config : Config := mkConfig 2 16 4 1024 8 6 20 20.

(** One cut with M = N = K = 1, 100 ticks after its control words went
    in: its only output tile is due. *)
Definition last_output : System :=
  Eval vm_compute in
    with_ctrls (replicate 4 fresh_controller)
      (ticks ready_as_asked 100
         (with_queue [configure_word 0 0 0 0 0 8; load_word 0 0 1 3;
                      load_word 0 1 1 5; load_word 0 2 1 7; enable_word 1]
            (initial_system 8 4))).

(** The PIM queue is within its depth. *)
Definition queue_bounded (s : System) : Prop :=
  Z.of_nat (length (pim_trans_queue_ s)) <= pim_trans_queue_depth_ s.

(** The cut of [one_cut_loaded] 8 ticks later, its weight tile fetched. *)
Definition weight_fetched : System :=
  Eval vm_compute in
    with_ctrls (replicate 4 fresh_controller)
      (ticks ready_as_asked 8 one_cut_loaded).

(** An ideal memory of latency 3 at cycle 10 with three transactions that
    are all due. *)
Definition ideal_due : Ideal.System :=
  Ideal.mkSystem
    [mkTransaction 64 false 2 [] [] 0 0; mkTransaction 128 true 4 [] [] 0 0;
     mkTransaction 192 false 7 [] [] 0 0] 3 10.

(** * Properties *)

(** ** Machine integers and bit fields *)

Lemma wrap_small z : - 2 ^ 31 <= z < 2 ^ 31 → wrap z = z.
Proof.
  intros Hz. unfold wrap.
  rewrite Z.mod_small by lia. lia.
Qed.

Lemma wrap_range z : - 2 ^ 31 <= wrap z < 2 ^ 31.
Proof.
  unfold wrap.
  pose proof (Z.mod_pos_bound (z + 2 ^ 31) (2 ^ 32) ltac:(lia)). lia.
Qed.

Lemma field_bits w lo width :
  0 <= lo → 0 <= width → field (Z.shiftr w lo) width = bits w lo width.
Proof.
  intros Hlo Hw. unfold field, bits.
  replace (Z.shiftl 1 width - 1) with (Z.ones width)
    by (unfold Z.ones; lia).
  rewrite Z.land_ones by lia.
  now rewrite Z.shiftr_div_pow2 by lia.
Qed.

Lemma bits_range w lo width : 0 <= width → 0 <= bits w lo width < 2 ^ width.
Proof. intros. unfold bits. apply Z.mod_pos_bound. lia. Qed.

Lemma land_pow2 w n :
  0 <= n → Z.land w (2 ^ n) = if Z.testbit w n then 2 ^ n else 0.
Proof.
  intros Hn. apply Z.bits_inj'. intros m Hm.
  rewrite Z.land_spec, Z.pow2_bits_eqb by lia.
  destruct (Z.eqb_spec n m) as [->|Hne].
  - destruct (Z.testbit w m); simpl.
    + now rewrite Z.pow2_bits_true.
    + now rewrite Z.bits_0.
  - rewrite andb_false_r.
    destruct (Z.testbit w n).
    + now rewrite Z.pow2_bits_false.
    + now rewrite Z.bits_0.
Qed.

Lemma land_pow2_nonzero w n :
  0 <= n → negb (Z.land w (2 ^ n) =? 0) = Z.testbit w n.
Proof.
  intros Hn. rewrite land_pow2 by lia.
  destruct (Z.testbit w n); simpl; [|reflexivity].
  destruct (Z.eqb_spec (2 ^ n) 0); [|reflexivity].
  pose proof (Z.pow_pos_nonneg 2 n). lia.
Qed.

Lemma is_compute_bit w : is_compute w = Z.testbit w 0.
Proof. unfold is_compute. apply (land_pow2_nonzero w 0). lia. Qed.

Lemma is_configure_bits w :
  is_configure w = negb (Z.testbit w 0) && (Z.testbit w 6 && Z.testbit w 5).
Proof.
  unfold is_configure, cutting. rewrite is_compute_bit.
  change (Z.shiftl 1 6) with (2 ^ 6). change (Z.shiftl 1 5) with (2 ^ 5).
  now rewrite !land_pow2_nonzero by lia.
Qed.

Lemma bits_two w lo :
  0 <= lo →
  bits w lo 2 = Z.b2z (Z.testbit w lo) + 2 * Z.b2z (Z.testbit w (lo + 1)).
Proof.
  intros Hlo. unfold bits.
  rewrite <- Z.shiftr_div_pow2 by lia.
  change (2 ^ 2) with (2 * 2).
  rewrite Z.rem_mul_r by lia.
  rewrite <- (Z.bit0_mod (Z.shiftr w lo)).
  rewrite Z.shiftr_spec by lia. simpl (0 + lo).
  replace (Z.shiftr w lo / 2) with (Z.shiftr w (lo + 1)).
  2:{ rewrite <- Z.div2_div, Z.div2_spec, Z.shiftr_shiftr by lia.
      reflexivity. }
  rewrite <- Z.bit0_mod, Z.shiftr_spec by lia.
  reflexivity.
Qed.

Lemma shl1_pow2 f : 0 <= f < 31 → wrap (Z.shiftl 1 f) = 2 ^ f.
Proof.
  intros Hf. rewrite Z.shiftl_1_l. apply wrap_small.
  pose proof (Z.pow_pos_nonneg 2 f ltac:(lia) ltac:(lia)).
  pose proof (Z.pow_lt_mono_r 2 f 31 ltac:(lia) ltac:(lia) ltac:(lia)). lia.
Qed.

Lemma pow2_bits_bound w lo width :
  0 <= width → 0 < 2 ^ bits w lo width <= 2 ^ (2 ^ width - 1).
Proof.
  intros Hw. pose proof (bits_range w lo width Hw) as [H0 H1]. split.
  - apply Z.pow_pos_nonneg; lia.
  - apply Z.pow_le_mono_r; lia.
Qed.

(** ** Monadic plumbing *)

Lemma bind_Ok {A B} (m : result A) (f : A → result B) (b : B) :
  bind m f = Ok b → ∃ a, m = Ok a ∧ f a = Ok b.
Proof. destruct m; simpl; intros H; try discriminate. eauto. Qed.

Ltac inv_ok :=
  repeat match goal with
  | H : Ok _ = Ok _ |- _ => inversion H; subst; clear H
  | H : Abort = Ok _ |- _ => discriminate H
  | H : Undef = Ok _ |- _ => discriminate H
  | H : bind ?m _ = Ok _ |- _ =>
      let a := fresh "a" in
      let E := fresh "E" in
      apply bind_Ok in H; destruct H as (a & E & H)
  | H : (let (_, _) := ?p in _) = Ok _ |- _ => destruct p
  | H : (match ?p with (_, _) => _ end) = Ok _ |- _ => destruct p
  | H : (if ?b then _ else _) = Ok _ |- _ =>
      let E := fresh "E" in destruct b eqn:E
  end.

(** ** The three branches of the decoder *)

Lemma decode_configure s w rest :
  pim_trans_queue_ s = w :: rest → is_configure w = true →
  decode s = configure w rest s.
Proof.
  intros Hq Hw. unfold decode. rewrite Hq.
  unfold is_configure in Hw.
  destruct (is_compute w); [discriminate|]. simpl in Hw. now rewrite Hw.
Qed.

Lemma decode_load s w rest :
  pim_trans_queue_ s = w :: rest → is_load w = true →
  decode s = load w rest s.
Proof.
  intros Hq Hw. unfold decode. rewrite Hq.
  unfold is_load, is_configure in Hw.
  destruct (is_compute w), (cutting w); try discriminate; reflexivity.
Qed.

Lemma decode_compute s w rest :
  pim_trans_queue_ s = w :: rest → is_compute w = true →
  decode s = compute_enable w rest s.
Proof. intros Hq Hw. unfold decode. now rewrite Hq, Hw. Qed.

(** ** Configure *)

(** C5. A Configure word whose M-tile field decodes to at most 2048 is
    consumed: the decoder pops it, sets [vcuts], [hcuts], [mcf], [ucf],
    [M_tile_size] (and the two reserved cut counts) to 1 shifted left by
    their bit fields, takes [df], [kernel_size] and [stride] literally, and
    gives every per-cut vector exactly [vcuts * hcuts] entries, all zero
    or false except [out_cnt], which is -1. *)
Theorem configure_resizes_and_decodes (s : System) (w : Z) (rest : list Z) :
  pim_trans_queue_ s = w :: rest →
  is_configure w = true →
  bits w 18 4 <= 11 →
  ∃ s', decode s = Ok s'
    ∧ pim_trans_queue_ s' = rest
    ∧ vcuts (cfg s') = 2 ^ bits w 7 3
    ∧ hcuts (cfg s') = 2 ^ bits w 10 1
    ∧ mcf (cfg s') = 2 ^ bits w 11 3
    ∧ ucf (cfg s') = 2 ^ bits w 14 3
    ∧ df (cfg s') = bits w 17 1
    ∧ M_tile_size (cfg s') = 2 ^ bits w 18 4
    ∧ vcuts_next (cfg s') = 2 ^ bits w 22 3
    ∧ hcuts_next (cfg s') = 2 ^ bits w 25 1
    ∧ kernel_size (cfg s') = bits w 26 5
    ∧ stride (cfg s') = bits w 31 5
    ∧ let n := Z.to_nat (vcuts (cfg s') * hcuts (cfg s')) in
      base_rows_w (cut s') = replicate n 0
      ∧ base_rows_in (cut s') = replicate n 0
      ∧ base_rows_out (cut s') = replicate n 0
      ∧ M (cut s') = replicate n 0
      ∧ N (cut s') = replicate n 0
      ∧ K (cut s') = replicate n 0
      ∧ M_it (cut s') = replicate n 0
      ∧ K_tile_it (cut s') = replicate n 0
      ∧ N_it (cut s') = replicate n 0
      ∧ M_out_it (cut s') = replicate n 0
      ∧ N_out_tile_it (cut s') = replicate n 0
      ∧ in_pim (cut s') = replicate n false
      ∧ iw_status (cut s') = replicate n 0
      ∧ in_cnt (cut s') = replicate n 0
      ∧ out_cnt (cut s') = replicate n (-1)
      ∧ vpu_cnt (cut s') = replicate n 0
      ∧ in_act_placed (cut s') = replicate n false
      ∧ w_act_placed (cut s') = replicate n false
      ∧ out_act_placed (cut s') = replicate n false
      ∧ output_valid (cut s') = replicate n 0.
Proof.
  intros Hq Hw Hm.
  rewrite (decode_configure s w rest Hq Hw). unfold configure.
  unfold bw_vcuts, bw_hcuts, bw_mcf, bw_ucf, bw_df, bw_Mtile,
    bw_kernelSize, bw_stride.
  rewrite !Z.shiftr_shiftr by lia.
  rewrite !field_bits by lia.
  repeat match goal with
  | |- context [bits w ?e ?k] =>
      let v := eval vm_compute in e in progress change e with v
  end.
  pose proof (pow2_bits_bound w 7 3 ltac:(lia)) as Hv.
  pose proof (pow2_bits_bound w 10 1 ltac:(lia)) as Hh.
  pose proof (bits_range w 18 4 ltac:(lia)) as Ht.
  pose proof (bits_range w 7 3 ltac:(lia)).
  pose proof (bits_range w 10 1 ltac:(lia)).
  pose proof (bits_range w 11 3 ltac:(lia)).
  pose proof (bits_range w 14 3 ltac:(lia)).
  pose proof (bits_range w 17 1 ltac:(lia)).
  pose proof (bits_range w 22 3 ltac:(lia)).
  pose proof (bits_range w 25 1 ltac:(lia)).
  pose proof (bits_range w 26 5 ltac:(lia)).
  pose proof (bits_range w 31 5 ltac:(lia)).
  rewrite !shl1_pow2 by lia.
  rewrite !(wrap_small (bits _ _ _)) by lia.
  assert (Hle : 2 ^ bits w 18 4 <= 2048).
  { change 2048 with (2 ^ 11). apply Z.pow_le_mono_r; lia. }
  apply Z.leb_le in Hle. rewrite Hle. simpl.
  assert (Hcuts : 2 ^ bits w 7 3 *! 2 ^ bits w 10 1
                  = 2 ^ bits w 7 3 * 2 ^ bits w 10 1).
  { apply wrap_small. simpl in Hv, Hh. nia. }
  rewrite Hcuts.
  eexists. split; [reflexivity|]. simpl.
  repeat split; reflexivity.
Qed.

(** ** Vectors *)

Lemma vset_Ok {A} (v v' : list A) i x :
  vset v i x = Ok v' ↔
  0 <= i < Z.of_nat (length v) ∧ v' = <[Z.to_nat i := x]> v.
Proof.
  unfold vset.
  destruct (Z.ltb_spec i 0), (Z.leb_spec (Z.of_nat (length v)) i); simpl;
    split; try (intros [? ?]; lia); try discriminate.
  - intros [= <-]. split; [lia | reflexivity].
  - intros [_ ->]. reflexivity.
Qed.

Lemma vset_Undef {A} (v : list A) i x :
  vset v i x = Undef ↔ i < 0 ∨ Z.of_nat (length v) <= i.
Proof.
  unfold vset.
  destruct (Z.ltb_spec i 0), (Z.leb_spec (Z.of_nat (length v)) i); simpl;
    split; try discriminate; try lia; auto.
Qed.

Lemma vget_Ok {A} (v : list A) i x :
  vget v i = Ok x ↔ 0 <= i ∧ v !! Z.to_nat i = Some x.
Proof.
  unfold vget. destruct (Z.ltb_spec i 0).
  - split; [discriminate | lia].
  - destruct (v !! Z.to_nat i); split.
    + intros [= ->]. auto.
    + intros [_ [= ->]]. reflexivity.
    + discriminate.
    + intros [_ [=]].
Qed.

Lemma vget_no_abort {A} (v : list A) i : vget v i ≠ Abort.
Proof.
  unfold vget. destruct (i <? 0); [discriminate|].
  destruct (v !! Z.to_nat i); discriminate.
Qed.

Lemma vset_no_abort {A} (v : list A) i x : vset v i x ≠ Abort.
Proof. unfold vset. destruct (_ || _); discriminate. Qed.

Lemma put_Ok {A} (fld : CutState → list A) set_fld i x c c' :
  put fld set_fld i x c = Ok c' ↔
  0 <= i < Z.of_nat (length (fld c))
  ∧ c' = set_fld (<[Z.to_nat i := x]> (fld c)) c.
Proof.
  unfold put. split.
  - intros H. apply bind_Ok in H as (v & Hv & [= <-]).
    apply vset_Ok in Hv as [? ->]. auto.
  - intros [Hi ->].
    now rewrite (proj2 (vset_Ok (fld c) _ i x) (conj Hi eq_refl)).
Qed.

Lemma put_no_abort {A} (fld : CutState → list A) set_fld i x c :
  put fld set_fld i x c ≠ Abort.
Proof.
  unfold put. pose proof (vset_no_abort (fld c) i x).
  destruct (vset (fld c) i x); simpl; congruence.
Qed.

Lemma bind_no_abort {A B} (m : result A) (f : A → result B) :
  m ≠ Abort → (∀ a, f a ≠ Abort) → bind m f ≠ Abort.
Proof. destruct m; simpl; auto; congruence. Qed.

Lemma elem_of_range i n : i ∈ range n ↔ 0 <= i < n.
Proof.
  unfold range. rewrite list_elem_of_fmap. split.
  - intros (k & -> & Hk). apply elem_of_seq in Hk. lia.
  - intros Hi. exists (Z.to_nat i). split; [lia|].
    apply elem_of_seq. lia.
Qed.

(** ** The transaction queue *)

(** C8. [WillAcceptTransaction] is true exactly when the queue holds
    fewer than [pim_trans_queue_depth_] entries; under that condition
    [AddTransaction] returns true and appends exactly the one transaction;
    otherwise its assertion fails. *)
Theorem add_transaction_admission (s : System) (hex : Z) :
  (WillAcceptTransaction s = true ↔
   Z.of_nat (length (pim_trans_queue_ s)) < pim_trans_queue_depth_ s)
  ∧ (Z.of_nat (length (pim_trans_queue_ s)) < pim_trans_queue_depth_ s →
     ∃ s', AddTransaction s hex = Ok (s', true)
       ∧ pim_trans_queue_ s' = pim_trans_queue_ s ++ [hex]
       ∧ length (pim_trans_queue_ s') = S (length (pim_trans_queue_ s))
       ∧ cfg s' = cfg s ∧ cut s' = cut s ∧ ctrls_ s' = ctrls_ s
       ∧ last_req_clk_ s' = clk_ s)
  ∧ (pim_trans_queue_depth_ s <= Z.of_nat (length (pim_trans_queue_ s)) →
     AddTransaction s hex = Abort).
Proof.
  unfold AddTransaction, WillAcceptTransaction.
  destruct (Z.ltb_spec (Z.of_nat (length (pim_trans_queue_ s)))
              (pim_trans_queue_depth_ s)) as [Hlt|Hge].
  - split; [tauto|]. split; [|lia].
    intros _. eexists. split; [reflexivity|]. simpl.
    rewrite length_app. simpl. repeat split. lia.
  - split; [split; [discriminate | lia]|]. split; [lia|]. reflexivity.
Qed.

(** ** Configure and the multi-tenant flag *)

Lemma configure_Ok s w rest s' :
  configure w rest s = Ok s' →
  vcuts (cfg s') = 2 ^ bits w 7 3
  ∧ hcuts (cfg s') = 2 ^ bits w 10 1
  ∧ ctrls_ s' =
      (if 1 <? 2 ^ bits w 7 3 * 2 ^ bits w 10 1
       then set_multitenant <$> ctrls_ s else ctrls_ s).
Proof.
  unfold configure, bw_vcuts, bw_hcuts, bw_mcf, bw_ucf, bw_df, bw_Mtile,
    bw_kernelSize, bw_stride.
  rewrite !Z.shiftr_shiftr by lia.
  rewrite !field_bits by lia.
  repeat match goal with
  | |- context [bits w ?e ?k] =>
      let v := eval vm_compute in e in progress change e with v
  end.
  pose proof (pow2_bits_bound w 7 3 ltac:(lia)) as Hv.
  pose proof (pow2_bits_bound w 10 1 ltac:(lia)) as Hh.
  pose proof (bits_range w 7 3 ltac:(lia)).
  pose proof (bits_range w 10 1 ltac:(lia)).
  rewrite !(shl1_pow2 (bits w 7 3)), !(shl1_pow2 (bits w 10 1)) by lia.
  assert (Hcuts : 2 ^ bits w 7 3 *! 2 ^ bits w 10 1
                  = 2 ^ bits w 7 3 * 2 ^ bits w 10 1).
  { apply wrap_small. simpl in Hv, Hh. nia. }
  rewrite Hcuts. intros Hc. inv_ok. simpl. auto.
Qed.

(** C4, as the code has it. A Configure that decodes more than one cut
    raises [wr_multitenant] on every controller; a Configure that decodes
    a single cut leaves the controllers as they were, so a flag raised by
    an earlier Configure stays raised. *)
Theorem configure_multitenant (s s' : System) (w : Z) (rest : list Z) :
  pim_trans_queue_ s = w :: rest →
  is_configure w = true →
  decode s = Ok s' →
  (1 < vcuts (cfg s') * hcuts (cfg s') →
   length (ctrls_ s') = length (ctrls_ s)
   ∧ Forall (λ c, wr_multitenant c = true) (ctrls_ s'))
  ∧ (vcuts (cfg s') * hcuts (cfg s') <= 1 → ctrls_ s' = ctrls_ s).
Proof.
  intros Hq Hw Hd. rewrite (decode_configure s w rest Hq Hw) in Hd.
  apply configure_Ok in Hd as (-> & -> & ->).
  destruct (Z.ltb_spec 1 (2 ^ bits w 7 3 * 2 ^ bits w 10 1)).
  - split; [|lia]. intros _. split.
    + apply length_fmap.
    + apply Forall_fmap, Forall_true. reflexivity.
  - split; [lia | reflexivity].
Qed.

Lemma configure_multitenant_witness :
  ∃ s', decode (with_queue [configure_word 1 0 0 0 0 8] (initial_system 8 2))
        = Ok s'
    ∧ Forall (λ c, wr_multitenant c = true) (ctrls_ s').
Proof.
  destruct (decode (with_queue [configure_word 1 0 0 0 0 8]
                      (initial_system 8 2))) as [s'| |] eqn:Hd;
    try (vm_compute in Hd; discriminate Hd).
  exists s'. split; [reflexivity|].
  apply (configure_multitenant
           (with_queue [configure_word 1 0 0 0 0 8] (initial_system 8 2))
           s' (configure_word 1 0 0 0 0 8) [] eq_refl eq_refl Hd).
  vm_compute in Hd. injection Hd as <-. reflexivity.
Defined.

(** C4 fails as the specification states it: after a two-cut Configure and then a one-cut
    Configure the controllers are still multi-tenant. *)
Lemma multitenant_survives_single_cut :
  ∃ s1 s2 c,
    decode (with_queue [configure_word 1 0 0 0 0 8;
                        configure_word 0 0 0 0 0 8]
              (initial_system 8 2)) = Ok s1
    ∧ decode s1 = Ok s2
    ∧ c ∈ ctrls_ s2
    ∧ vcuts (cfg s2) = 1 ∧ hcuts (cfg s2) = 1
    ∧ ¬ (wr_multitenant c = true ↔ 1 < vcuts (cfg s2) * hcuts (cfg s2)).
Proof.
  eexists. eexists. exists (set_multitenant fresh_controller).
  split; [vm_compute; reflexivity|].
  split; [vm_compute; reflexivity|].
  split; [simpl; left|].
  split; [reflexivity|]. split; [reflexivity|].
  simpl. intros [H _]. specialize (H eq_refl). lia.
Qed.

(** ** When the decoder aborts *)

Lemma mask_bit_no_abort a i : mask_bit a i ≠ Abort.
Proof.
  unfold mask_bit, shl1. destruct (_ || _); simpl; discriminate.
Qed.

Lemma cut_ready_no_abort c a i : cut_ready c a i ≠ Abort.
Proof.
  unfold cut_ready.
  apply bind_no_abort; [apply mask_bit_no_abort|]. intros [|]; [|discriminate].
  apply bind_no_abort; [apply vget_no_abort|]. intros m.
  destruct (m =? 0); [discriminate|].
  apply bind_no_abort; [apply vget_no_abort|]. intros n.
  destruct (n =? 0); [discriminate|].
  apply bind_no_abort; [apply vget_no_abort|]. discriminate.
Qed.

Lemma all_configured_no_abort c a idx b : all_configured c a idx b ≠ Abort.
Proof.
  revert b. induction idx as [|i idx IH]; intros b; simpl; [discriminate|].
  apply bind_no_abort; [apply cut_ready_no_abort|]. intros r. apply IH.
Qed.

Lemma enable_cuts_no_abort a idx v : enable_cuts a idx v ≠ Abort.
Proof.
  revert v. induction idx as [|i idx IH]; intros v; simpl; [discriminate|].
  apply bind_no_abort; [apply mask_bit_no_abort|]. intros sel.
  apply bind_no_abort; [|intros; apply IH].
  destruct sel; [apply vset_no_abort | discriminate].
Qed.

Lemma compute_enable_no_abort w rest s : compute_enable w rest s ≠ Abort.
Proof.
  unfold compute_enable.
  apply bind_no_abort; [apply all_configured_no_abort|]. intros [|];
    [|discriminate].
  apply bind_no_abort; [apply enable_cuts_no_abort|]. discriminate.
Qed.

Lemma load_type_bits w :
  wrap (field (Z.shiftr (Z.shiftr w 1) 4) bw_loadType) = bits w 5 2.
Proof.
  unfold bw_loadType. rewrite Z.shiftr_shiftr by lia.
  change (1 + 4) with 5. rewrite field_bits by lia.
  pose proof (bits_range w 5 2 ltac:(lia)). apply wrap_small. lia.
Qed.

Lemma is_load_type w : is_load w = true → 0 <= bits w 5 2 <= 2.
Proof.
  unfold is_load. rewrite is_configure_bits, is_compute_bit.
  rewrite bits_two by lia. change (5 + 1) with 6.
  destruct (Z.testbit w 0), (Z.testbit w 5), (Z.testbit w 6); simpl;
    intros; try discriminate; lia.
Qed.

Lemma load_no_abort w rest s : is_load w = true → load w rest s ≠ Abort.
Proof.
  intros Hw. unfold load. rewrite load_type_bits.
  pose proof (is_load_type w Hw) as Ht.
  apply bind_no_abort; [|discriminate].
  destruct (Z.eqb_spec (bits w 5 2) 0).
  { apply bind_no_abort; [apply put_no_abort | intros; apply put_no_abort]. }
  destruct (Z.eqb_spec (bits w 5 2) 1).
  { apply bind_no_abort; [apply put_no_abort | intros; apply put_no_abort]. }
  destruct (Z.eqb_spec (bits w 5 2) 2).
  { apply bind_no_abort; [apply put_no_abort | intros; apply put_no_abort]. }
  lia.
Qed.

Lemma configure_abort w rest s :
  configure w rest s = Abort ↔ 2048 < 2 ^ bits w 18 4.
Proof.
  unfold configure, bw_vcuts, bw_hcuts, bw_mcf, bw_ucf, bw_df, bw_Mtile,
    bw_kernelSize, bw_stride.
  rewrite !Z.shiftr_shiftr by lia.
  rewrite !field_bits by lia.
  repeat match goal with
  | |- context [bits w ?e ?k] =>
      let v := eval vm_compute in e in progress change e with v
  end.
  pose proof (bits_range w 18 4 ltac:(lia)).
  rewrite (shl1_pow2 (bits w 18 4)) by lia.
  destruct (Z.leb_spec (2 ^ bits w 18 4) 2048); simpl.
  - split; [discriminate | lia].
  - tauto.
Qed.

(** C7, as the code has it. The decoder aborts exactly when the head of
    the queue is a Configure word whose M-tile field decodes to more than
    2048. A word with bit 0 clear and both load-type bits set is a
    Configure word, so the Load branch only sees load types 0, 1 and 2
    and never reaches its exit. *)
Theorem decode_abort_iff (s : System) :
  (decode s = Abort ↔
   ∃ w rest, pim_trans_queue_ s = w :: rest
     ∧ is_configure w = true ∧ 2048 < 2 ^ bits w 18 4)
  ∧ (∀ w, is_compute w = false → bits w 5 2 = 3 → is_configure w = true)
  ∧ (∀ w, is_load w = true → 0 <= bits w 5 2 <= 2).
Proof.
  split; [|split].
  - split.
    + unfold decode. destruct (pim_trans_queue_ s) as [|w rest] eqn:Hq;
        [discriminate|].
      destruct (is_compute w) eqn:Hc.
      { intros H. now apply compute_enable_no_abort in H. }
      destruct (cutting w) eqn:Hf.
      * intros H. apply configure_abort in H. exists w, rest.
        unfold is_configure. rewrite Hc, Hf. auto.
      * intros H. apply load_no_abort in H; [easy|].
        unfold is_load, is_configure. now rewrite Hc, Hf.
    + intros (w & rest & Hq & Hw & Hm).
      rewrite (decode_configure s w rest Hq Hw). now apply configure_abort.
  - intros w Hc Hb. rewrite is_configure_bits.
    rewrite is_compute_bit in Hc. rewrite Hc.
    rewrite bits_two in Hb by lia. change (5 + 1) with 6 in Hb.
    destruct (Z.testbit w 5), (Z.testbit w 6); simpl in *; try lia;
      reflexivity.
  - apply is_load_type.
Qed.

(** C7 fails as the specification states it: a word with bit 0 clear and load type 3 does not
    abort the decoder; it is taken as a Configure. *)
Lemma load_type_three_does_not_abort :
  let w := load_word 0 3 5 9 in
  is_compute w = false
  ∧ bits w 5 2 = 3
  ∧ 2 ^ bits w 18 4 <= 2048
  ∧ is_ok (decode (with_queue [w] (initial_system 8 2))) = true.
Proof. vm_compute. repeat split; congruence. Qed.

(** ** Load *)

Lemma put_again {A} (fld : CutState → list A) set_fld i x c t :
  0 <= i < Z.of_nat (length (fld c)) →
  fld t = <[Z.to_nat i := x]> (fld c) →
  put fld set_fld i x t = Ok (set_fld (fld t) t).
Proof.
  intros Hi Ht. apply put_Ok. rewrite Ht, length_insert.
  split; [assumption|]. now rewrite list_insert_insert_eq.
Qed.

(** C9. A Load that is decoded again for the same cut and load type, in
    any later state that still holds what the first Load wrote, succeeds
    and leaves the base rows and the dimensions of every cut as the first
    Load left them. *)
Theorem load_idempotent (s s1 t : System) (w : Z) (rest rest' : list Z) :
  pim_trans_queue_ s = w :: rest →
  is_load w = true →
  decode s = Ok s1 →
  pim_trans_queue_ t = w :: rest' →
  loaded (cut t) = loaded (cut s1) →
  ∃ s2, decode t = Ok s2 ∧ loaded (cut s2) = loaded (cut s1).
Proof.
  intros Hq Hw Hd Hq' Hsame.
  rewrite (decode_load s w rest Hq Hw) in Hd.
  rewrite (decode_load t w rest' Hq' Hw).
  unfold load in *. rewrite load_type_bits in *.
  set (i := wrap (field (Z.shiftr w 1) bw_cutNo)) in *.
  set (d := wrap (field _ bw_dimValue)) in *.
  set (b := wrap (field _ bw_baseRow)) in *.
  unfold loaded in Hsame. injection Hsame as Hw1 Hin Hout HM HK HN.
  apply bind_Ok in Hd as (c1 & Hc1 & [= <-]). simpl in *.
  destruct (bits w 5 2 =? 0);
    [|destruct (bits w 5 2 =? 1); [|destruct (bits w 5 2 =? 2);
       [|discriminate]]];
    apply bind_Ok in Hc1 as (c0 & H0 & H1);
    apply put_Ok in H0 as [Hi0 ->]; apply put_Ok in H1 as [Hi1 ->];
    simpl in *.
  - rewrite (put_again base_rows_w set_base_rows_w i b (cut s) (cut t))
      by assumption. simpl.
    rewrite (put_again M set_M i d (cut s)) by assumption. simpl.
    eexists. split; [reflexivity|]. unfold loaded. simpl. congruence.
  - rewrite (put_again base_rows_out set_base_rows_out i b (cut s) (cut t))
      by assumption. simpl.
    rewrite (put_again K set_K i d (cut s)) by assumption. simpl.
    eexists. split; [reflexivity|]. unfold loaded. simpl. congruence.
  - rewrite (put_again base_rows_in set_base_rows_in i b (cut s) (cut t))
      by assumption. simpl.
    rewrite (put_again N set_N i d (cut s)) by assumption. simpl.
    eexists. split; [reflexivity|]. unfold loaded. simpl. congruence.
Qed.

Lemma load_idempotent_witness :
  ∃ s2, decode load_done = Ok s2
    ∧ loaded (cut s2) = loaded (cut load_done)
    ∧ M (cut load_done) = [0; 16].
Proof.
  destruct (load_idempotent load_request load_done load_done
              (load_word 1 0 16 3) [load_word 1 0 16 3] []
              eq_refl eq_refl eq_refl eq_refl eq_refl) as (s2 & H2 & Hs).
  exists s2. repeat split; assumption || reflexivity.
Defined.

(** ** Compute-Enable *)

Lemma mask_bit_testbit a i :
  0 <= i < 31 → mask_bit a i = Ok (Z.testbit a i).
Proof.
  intros Hi. unfold mask_bit, shl1.
  destruct (Z.ltb_spec i 0); [lia|].
  destruct (Z.leb_spec 32 i); [lia|]. simpl.
  rewrite shl1_pow2 by lia. unfold u64.
  pose proof (Z.pow_pos_nonneg 2 i ltac:(lia) ltac:(lia)).
  pose proof (Z.pow_lt_mono_r 2 i 64 ltac:(lia) ltac:(lia) ltac:(lia)).
  rewrite Z.mod_small by lia.
  now rewrite land_pow2_nonzero by lia.
Qed.

Lemma cut_ready_true c a i :
  cut_ready c a i = Ok true → mask_bit a i = Ok true.
Proof.
  unfold cut_ready. intros H. apply bind_Ok in H as ([|] & Hs & H);
    [assumption | discriminate].
Qed.

Lemma all_configured_true c a idx b :
  all_configured c a idx b = Ok true →
  b = true ∧ ∀ i, i ∈ idx → mask_bit a i = Ok true.
Proof.
  revert b. induction idx as [|i idx IH]; intros b; simpl.
  - intros [= ->]. split; [reflexivity|]. intros i Hi. inversion Hi.
  - intros H. apply bind_Ok in H as (r & Hr & H).
    apply IH in H as [Hb Hall]. destruct r; [|discriminate].
    split; [assumption|]. intros j Hj. apply elem_of_cons in Hj as [->|Hj].
    + now apply cut_ready_true in Hr.
    + now apply Hall.
Qed.

(** C1, what the code does. A Compute-Enable whose mask leaves out a cut
    of the configuration is never consumed: the first loop clears
    [configured] at every cut that is not selected, so the word stays at
    the head of the queue and no cut is enabled, whatever the selected
    cuts hold. *)
Theorem compute_enable_partial_mask_waits
    (s s' : System) (w : Z) (rest : list Z) (i : Z) :
  pim_trans_queue_ s = w :: rest →
  is_compute w = true →
  0 <= i < vcuts (cfg s) *! hcuts (cfg s) →
  i < 31 →
  Z.testbit w (i + 1) = false →
  decode s = Ok s' →
  s' = s.
Proof.
  intros Hq Hw Hi Hi' Hbit Hd.
  rewrite (decode_compute s w rest Hq Hw) in Hd.
  unfold compute_enable in Hd.
  apply bind_Ok in Hd as ([|] & Hc & Hd); [|now injection Hd].
  apply all_configured_true in Hc as [_ Hall].
  specialize (Hall i (proj2 (elem_of_range _ _) Hi)).
  rewrite mask_bit_testbit in Hall by lia.
  rewrite Z.shiftr_spec in Hall by lia. congruence.
Qed.

Lemma compute_enable_partial_mask_waits_witness :
  pim_trans_queue_ ready_request = [enable_word 1]
  ∧ M (cut ready_request) = [4; 4]
  ∧ N (cut ready_request) = [4; 4]
  ∧ K (cut ready_request) = [4; 4]
  ∧ ∃ s', decode ready_request = Ok s' ∧ s' = ready_request.
Proof.
  repeat (split; [reflexivity|]).
  destruct (decode ready_request) as [s'| |] eqn:Hd;
    try (vm_compute in Hd; discriminate Hd).
  exists s'. split; [reflexivity|].
  apply (compute_enable_partial_mask_waits ready_request s'
           (enable_word 1) [] 1 eq_refl eq_refl);
    [vm_compute; split; congruence | lia | reflexivity | exact Hd].
Defined.

(** The same state accepts the word that selects both cuts. *)
Example compute_enable_full_mask :
  ∃ s', decode (with_queue [enable_word 3] ready_request) = Ok s'
    ∧ in_pim (cut s') = [true; true] ∧ pim_trans_queue_ s' = [].
Proof. eexists. split; [vm_compute; reflexivity|]. split; reflexivity. Qed.

(** ** Unguarded vector accesses *)

Lemma cut_no_bits w : wrap (field (Z.shiftr w 1) bw_cutNo) = bits w 1 4.
Proof.
  unfold bw_cutNo. rewrite field_bits by lia.
  pose proof (bits_range w 1 4 ltac:(lia)). apply wrap_small. lia.
Qed.

Lemma put_put {A B} (f1 : CutState → list A) s1 (f2 : CutState → list B) s2
    i x y c (n : nat) :
  length (f1 c) = n →
  (∀ v, length (f2 (s1 v c)) = n) →
  (bind (put f1 s1 i x c) (put f2 s2 i y) = Undef ↔ i < 0 ∨ Z.of_nat n <= i)
  ∧ (0 <= i < Z.of_nat n →
     ∃ c', bind (put f1 s1 i x c) (put f2 s2 i y) = Ok c').
Proof.
  intros H1 H2.
  destruct (decide (0 <= i < Z.of_nat n)) as [Hi|Hi].
  - assert (Ha : put f1 s1 i x c = Ok (s1 (<[Z.to_nat i := x]> (f1 c)) c)).
    { apply put_Ok. rewrite H1. auto. }
    rewrite Ha. simpl.
    assert (Hb : ∀ c1, length (f2 c1) = n →
                 put f2 s2 i y c1 = Ok (s2 (<[Z.to_nat i := y]> (f2 c1)) c1)).
    { intros c1 Hc1. apply put_Ok. rewrite Hc1. auto. }
    rewrite Hb by apply H2.
    split; [split; [discriminate | lia] | eauto].
  - assert (Hu : put f1 s1 i x c = Undef).
    { unfold put, vset. rewrite H1.
      destruct (Z.ltb_spec i 0); [reflexivity|].
      destruct (Z.leb_spec (Z.of_nat n) i); [reflexivity | lia]. }
    rewrite Hu. simpl. split; [split; [lia | reflexivity] | lia].
Qed.

(** C10, as the code has it. The decoder indexes the per-cut vectors
    without a check. A Load is in bounds exactly when its cut number is
    below the size the vectors were given; and before any Configure, where
    [vcuts * hcuts] is [(-1) * (-1) = 1], a Compute-Enable that selects
    cut 0 reads [M[0]] of an empty vector. *)
Theorem unguarded_vector_access
    (s : System) (w : Z) (rest : list Z) (n : nat) :
  pim_trans_queue_ s = w :: rest →
  load_sized n (cut s) →
  (is_load w = true →
   (decode s = Undef ↔ Z.of_nat n <= bits w 1 4)
   ∧ (bits w 1 4 < Z.of_nat n → ∃ s', decode s = Ok s'))
  ∧ (is_compute w = true → cfg s = unconfigured → n = 0%nat →
     Z.testbit w 1 = true → decode s = Undef).
Proof.
  intros Hq (Hw1 & Hin & Hout & HM & HN & HK). split.
  - intros Hw. rewrite (decode_load s w rest Hq Hw). unfold load.
    rewrite load_type_bits, cut_no_bits.
    pose proof (is_load_type w Hw) as Ht.
    pose proof (bits_range w 1 4 ltac:(lia)) as Hi.
    set (d := wrap (field _ bw_dimValue)).
    set (b := wrap (field _ bw_baseRow)).
    assert (Hgen : ∀ r : result CutState,
      ((r = Undef ↔ bits w 1 4 < 0 ∨ Z.of_nat n <= bits w 1 4)
       ∧ (0 <= bits w 1 4 < Z.of_nat n → ∃ c', r = Ok c')) →
      (bind r (λ c, Ok (with_queue rest (with_cut c s))) = Undef
       ↔ Z.of_nat n <= bits w 1 4)
      ∧ (bits w 1 4 < Z.of_nat n →
         ∃ s', bind r (λ c, Ok (with_queue rest (with_cut c s))) = Ok s')).
    { intros r [Hu Ho].
      destruct (decide (bits w 1 4 < Z.of_nat n)) as [Hlt|Hge].
      - destruct Ho as [c' ->]; [lia|]. simpl.
        split; [split; [discriminate | lia] | eauto].
      - rewrite (proj2 Hu) by lia. simpl.
        split; [split; [lia | reflexivity] | lia]. }
    apply Hgen.
    destruct (Z.eqb_spec (bits w 5 2) 0);
      [apply put_put; auto|].
    destruct (Z.eqb_spec (bits w 5 2) 1);
      [apply put_put; auto|].
    destruct (Z.eqb_spec (bits w 5 2) 2);
      [apply put_put; auto | lia].
  - intros Hw Hcfg -> Hbit.
    rewrite (decode_compute s w rest Hq Hw). unfold compute_enable.
    rewrite Hcfg. change (vcuts unconfigured *! hcuts unconfigured) with 1.
    change (range 1) with [0]. simpl. unfold cut_ready.
    rewrite mask_bit_testbit by lia. rewrite Z.shiftr_spec by lia.
    change (0 + 1) with 1. rewrite Hbit. simpl.
    destruct (M (cut s)); [reflexivity | discriminate].
Qed.

Lemma unguarded_vector_access_witness :
  decode overflowing_load = Undef ∧ decode early_enable = Undef.
Proof.
  split.
  - destruct (unguarded_vector_access overflowing_load
                (load_word 5 0 16 3) [] 2 eq_refl ltac:(repeat split))
      as [Hload _].
    destruct (Hload eq_refl) as [Hundef _]. apply Hundef.
    vm_compute. discriminate.
  - destruct (unguarded_vector_access early_enable (enable_word 1)
                [] 0 eq_refl ltac:(repeat split)) as [_ Hen].
    apply Hen; reflexivity.
Defined.

(** C10 fails as the specification states it, for the Compute-Enable that arrives before any
    Configure and does not select cut 0: the mask test comes first, no
    vector is read, and the word stays at the head of the queue. *)
Lemma early_enable_without_cut0_reads_nothing :
  decode (with_queue [enable_word 0] (initial_system 8 2))
  = Ok (with_queue [enable_word 0] (initial_system 8 2))
  ∧ decode (with_queue [enable_word 2] (initial_system 8 2))
    = Ok (with_queue [enable_word 2] (initial_system 8 2)).
Proof. split; reflexivity. Qed.

Lemma configure_resizes_and_decodes_witness :
  ∃ s', decode configure_request = Ok s'
    ∧ vcuts (cfg s') = 2 ∧ M_tile_size (cfg s') = 256
    ∧ out_cnt (cut s') = [-1; -1] ∧ in_pim (cut s') = [false; false].
Proof.
  destruct (configure_resizes_and_decodes configure_request
              (configure_word 1 0 2 1 0 8) [] eq_refl eq_refl)
    as (s' & Hd & _ & Hv & Hh & _ & _ & _ & Hm & _ & _ & _ & _ & Hcut).
  { vm_compute. discriminate. }
  cbv zeta in Hcut. rewrite Hv, Hh in Hcut.
  destruct Hcut as (_ & _ & _ & _ & _ & _ & _ & _ & _ & _ & _ & Hp & _ & _
                    & Ho & _).
  exists s'. repeat split; assumption.
Defined.

(** ** The engine and the placement flags *)

Lemma lowered_refl {A} (fld : A → list bool) c : lowered fld c c.
Proof. split; auto. Qed.

Lemma lowered_trans {A} (fld : A → list bool) c1 c2 c3 :
  lowered fld c1 c2 → lowered fld c2 c3 → lowered fld c1 c3.
Proof.
  intros [L1 H1] [L2 H2]. split; [congruence|].
  intros j b Hb. destruct (H2 j b Hb) as [|Hb2]; auto.
Qed.

Lemma lowered_same {A} (fld : A → list bool) c c' :
  fld c' = fld c → lowered fld c c'.
Proof. intros E. unfold lowered. rewrite E. auto. Qed.

Lemma lowered_insert {A} (fld : A → list bool) c c' i :
  fld c' = <[i := false]> (fld c) → lowered fld c c'.
Proof.
  intros E. unfold lowered. rewrite E, length_insert. split; [reflexivity|].
  intros j b Hb. apply list_lookup_insert_Some in Hb as [(-> & <- & _)|[_ Hb]];
    auto.
Qed.

Lemma only_lowered_refl c : only_lowered c c.
Proof. repeat split; auto. Qed.

Lemma only_lowered_trans c1 c2 c3 :
  only_lowered c1 c2 → only_lowered c2 c3 → only_lowered c1 c3.
Proof.
  intros (A1 & B1 & C1) (A2 & B2 & C2).
  repeat split; eauto using lowered_trans; eapply lowered_trans; eauto.
Qed.

Ltac invert_run :=
  repeat match goal with
  | H : Ok _ = Ok _ |- _ => inversion H; subst; clear H
  | H : Abort = Ok _ |- _ => discriminate H
  | H : Undef = Ok _ |- _ => discriminate H
  | H : put _ _ _ _ _ = Ok _ |- _ =>
      let Hi := fresh "Hi" in apply put_Ok in H; destruct H as [Hi ->]
  | H : bind ?m _ = Ok _ |- _ =>
      let a := fresh "a" in
      let E := fresh "E" in
      apply bind_Ok in H; destruct H as (a & E & H)
  | H : (let (_, _) := ?p in _) = Ok _ |- _ => destruct p
  | H : (if ?b then _ else _) = Ok _ |- _ =>
      let E := fresh "E" in destruct b eqn:E
  end.

Ltac solve_lowered :=
  unfold only_lowered; split; [|split];
  first [ apply lowered_same; reflexivity
        | eapply lowered_insert; reflexivity ].

Lemma lowered_clear {A} (fld : A → list bool) c c' j :
  lowered fld c c' → fld c !! j = Some false → fld c' !! j = Some false.
Proof.
  intros [Hl Hc] Hj.
  destruct (fld c' !! j) as [b|] eqn:Hb.
  - destruct (Hc j b Hb) as [->|Hb']; [reflexivity | congruence].
  - apply lookup_ge_None in Hb. apply lookup_lt_Some in Hj. lia.
Qed.

Lemma placed_clear_lowered n c c' :
  only_lowered c c' → placed_clear n c → placed_clear n c'.
Proof.
  intros (Hi & Hw & Ho) Hc j Hj. destruct (Hc j Hj) as (Hji & Hjw & Hjo).
  repeat split; eapply lowered_clear; eassumption.
Qed.

Section EngineFlags.

Variable config_ : Config.
Variable GetReadyCommand : Z → Controller → Command → Z → Command.
Variable AddressUnmapping : Address → Z.

Lemma fetch_weight_lowered g geo cs clk i c c' w :
  fetch_weight config_ GetReadyCommand AddressUnmapping g geo true cs clk i c
  = Ok (c', w) →
  only_lowered c c' ∧ is_type PIM_ACTIVATE w = false.
Proof.
  unfold fetch_weight. intros H. invert_run.
  all: try (split; [solve_lowered | try reflexivity; try assumption]).
  all: try (rewrite orb_true_r in *; discriminate).
Qed.

Lemma weight_finished_lowered cuts i c c' :
  weight_finished cuts i c = Ok c' → only_lowered c c'.
Proof. unfold weight_finished. intros H. invert_run; solve_lowered. Qed.

Lemma input_finished_lowered i c c' :
  input_finished i c = Ok c' → only_lowered c c'.
Proof. unfold input_finished. intros H. invert_run; solve_lowered. Qed.

Lemma feed_input_lowered g geo cs clk cuts i c c' b :
  feed_input config_ GetReadyCommand AddressUnmapping g geo true cs clk cuts
    i c = Ok (c', b) →
  only_lowered c c' ∧ is_type PIM_ACTIVATE b = false.
Proof.
  unfold feed_input, advance_input. intros H. invert_run.
  all: try (rewrite orb_true_r in *; discriminate).
  all: split; [solve_lowered | try reflexivity; try assumption].
Qed.

Lemma write_output_lowered g geo cs clk i ready c off c' off' out :
  write_output config_ GetReadyCommand AddressUnmapping g geo true cs clk i
    ready c off = Ok (c', off', out) →
  only_lowered c c' ∧ is_type PIM_ACTIVATE out = false.
Proof.
  unfold write_output, advance_output, count_down. intros H. invert_run.
  all: try (rewrite orb_true_r in *; discriminate).
  all: split; [solve_lowered | try reflexivity; try assumption].
Qed.

Lemma run_state_lowered g geo cs clk cuts i st c c' w b :
  run_state config_ GetReadyCommand AddressUnmapping g geo true cs clk cuts
    i st c = Ok (c', w, b) →
  only_lowered c c'
  ∧ is_type PIM_ACTIVATE w = false ∧ is_type PIM_ACTIVATE b = false.
Proof.
  unfold run_state. intros H. invert_run.
  - match goal with H : context [fetch_weight] |- _ =>
      apply fetch_weight_lowered in H as [? ?] end. auto.
  - match goal with H : context [weight_finished] |- _ =>
      apply weight_finished_lowered in H end. auto.
  - match goal with H : context [feed_input] |- _ =>
      apply feed_input_lowered in H as [? ?] end. auto.
  - match goal with H : context [input_finished] |- _ =>
      apply input_finished_lowered in H end. auto.
  - split; [apply only_lowered_refl | auto].
Qed.

Lemma cut_step_lowered ir cuts i s s' b :
  cut_step config_ GetReadyCommand AddressUnmapping true ir cuts i s
  = Ok (s', b) →
  cfg s' = cfg s ∧ only_lowered (cut s) (cut s') ∧ no_activate b.
Proof.
  unfold cut_step. intros H. invert_run.
  - split; [reflexivity|]. split; [apply only_lowered_refl|].
    repeat split.
  - match goal with H : context [run_state] |- _ =>
      apply run_state_lowered in H as (? & ? & ?) end.
    match goal with H : context [write_output] |- _ =>
      apply write_output_lowered in H as (? & ?) end.
    split; [reflexivity|]. split; [|repeat split; assumption].
    simpl. eapply only_lowered_trans; eassumption.
Qed.

Lemma cut_loop_lowered ir cuts idx s log s' log' :
  cut_loop config_ GetReadyCommand AddressUnmapping true ir cuts idx s log
  = Ok (s', log') →
  Forall no_activate log →
  cfg s' = cfg s ∧ only_lowered (cut s) (cut s') ∧ Forall no_activate log'.
Proof.
  revert s log. induction idx as [|i idx IH]; intros s log; simpl.
  - intros [= <- <-] Hlog. split; [reflexivity|].
    split; [apply only_lowered_refl | assumption].
  - intros H Hlog. apply bind_Ok in H as ([s1 b] & Hstep & H).
    apply cut_step_lowered in Hstep as (Hcfg & Hlow & Hb).
    apply IH in H as (Hcfg' & Hlow' & Hlog').
    + split; [congruence|].
      split; [eapply only_lowered_trans; eassumption | assumption].
    + apply Forall_app. split; [assumption|]. now constructor.
Qed.

End EngineFlags.

(** ** The refresh look-ahead *)

Lemma clear_placed_spec idx c c' :
  clear_placed idx c = Ok c' →
  only_lowered c c' ∧ unplaced c' = unplaced c
  ∧ ∀ j, j ∈ idx →
      in_act_placed c' !! Z.to_nat j = Some false
      ∧ w_act_placed c' !! Z.to_nat j = Some false
      ∧ out_act_placed c' !! Z.to_nat j = Some false.
Proof.
  revert c. induction idx as [|i idx IH]; intros c; simpl.
  - intros [= <-]. split; [apply only_lowered_refl|].
    split; [reflexivity|]. intros j Hj. inversion Hj.
  - intros H. invert_run. simpl in *.
    apply IH in H as (Hlow & Hun & Hidx).
    split; [|split].
    + eapply only_lowered_trans; [|exact Hlow]. solve_lowered.
    + rewrite Hun. reflexivity.
    + intros j Hj. apply elem_of_cons in Hj as [->|Hj]; [|auto].
      destruct Hlow as (Li & Lw & Lo). simpl in *.
      repeat split; (eapply lowered_clear; [eassumption|]); simpl;
        apply list_lookup_insert_eq; lia.
Qed.

Lemma refresh_lookahead_spec g cs c wr c' wr' :
  refresh_lookahead g cs c wr = Ok (c', wr') →
  only_lowered c c' ∧ unplaced c' = unplaced c
  ∧ wr' = wr || (existsb pim_refresh_coming cs && has_config g)
  ∧ (existsb pim_refresh_coming cs && has_config g = true →
     placed_clear (ncuts g) c')
  ∧ (existsb pim_refresh_coming cs && has_config g = false → c' = c).
Proof.
  revert c wr. induction cs as [|ctrl cs IH]; intros c wr; simpl.
  - intros [= <- <-]. rewrite orb_false_r.
    split; [apply only_lowered_refl|]. repeat split; try discriminate.
  - destruct (pim_refresh_coming ctrl); simpl; [|apply IH].
    destruct (has_config g) eqn:Hg; simpl.
    + intros H. apply bind_Ok in H as (c1 & Hc1 & H).
      apply clear_placed_spec in Hc1 as (Hlow & Hun & Hidx).
      apply IH in H as (Hlow' & Hun' & Hwr & _ & _).
      split; [|split; [|split; [|split]]].
      * eapply only_lowered_trans; eassumption.
      * congruence.
      * rewrite Hwr. now rewrite orb_true_r.
      * intros _. eapply placed_clear_lowered; [exact Hlow'|].
        intros j Hj. apply Hidx. now apply elem_of_range.
      * discriminate.
    + intros H. apply IH in H. rewrite !andb_false_r in H. exact H.
Qed.

(** ** The decoder, the lanes and the placement flags *)

Lemma lanes_set_multitenant (cs : list Controller) :
  lanes <$> (set_multitenant <$> cs) = lanes <$> cs.
Proof. rewrite <- list_fmap_compose. reflexivity. Qed.

Lemma any_in_ref_set_multitenant (cs : list Controller) :
  any_in_ref (set_multitenant <$> cs) = any_in_ref cs.
Proof. induction cs as [|c cs IH]; simpl; [reflexivity|]. now rewrite <- IH. Qed.

Lemma decode_ctrls s s' :
  decode s = Ok s' →
  ctrls_ s' = ctrls_ s ∨ ctrls_ s' = set_multitenant <$> ctrls_ s.
Proof.
  unfold decode. destruct (pim_trans_queue_ s) as [|w rest].
  { intros [= <-]. auto. }
  destruct (is_compute w); [|destruct (cutting w)].
  - unfold compute_enable. intros H. invert_run; auto.
  - unfold configure. intros H. invert_run. simpl.
    destruct (1 <? _); auto.
  - unfold load. intros H. invert_run; auto.
Qed.

Lemma decode_lanes s s' :
  decode s = Ok s' →
  lanes <$> ctrls_ s' = lanes <$> ctrls_ s
  ∧ any_in_ref (ctrls_ s') = any_in_ref (ctrls_ s).
Proof.
  intros H. apply decode_ctrls in H as [->| ->]; [auto|].
  split; [apply lanes_set_multitenant | apply any_in_ref_set_multitenant].
Qed.

Lemma placed_clear_fresh n : placed_clear n (fresh_cuts n).
Proof.
  intros j Hj. unfold fresh_cuts, assign. simpl.
  repeat split; apply lookup_replicate_2; lia.
Qed.

Lemma decode_placed_clear s s' :
  has_config (cfg s) = true →
  placed_clear (ncuts (cfg s)) (cut s) →
  decode s = Ok s' →
  has_config (cfg s') = true ∧ placed_clear (ncuts (cfg s')) (cut s').
Proof.
  intros Hg Hc. unfold decode.
  destruct (pim_trans_queue_ s) as [|w rest] eqn:Hq.
  { intros [= <-]. auto. }
  destruct (is_compute w) eqn:Hw; [|destruct (cutting w) eqn:Hf].
  - unfold compute_enable. intros H. invert_run; auto.
  - intros H. pose proof (configure_Ok _ _ _ _ H) as (Hv & Hh & _).
    split.
    + unfold has_config. rewrite Hv, Hh.
      pose proof (pow2_bits_bound w 7 3 ltac:(lia)).
      pose proof (pow2_bits_bound w 10 1 ltac:(lia)).
      destruct (Z.eqb_spec (2 ^ bits w 7 3) (-1)); [lia|].
      destruct (Z.eqb_spec (2 ^ bits w 10 1) (-1)); [lia|]. reflexivity.
    + unfold configure in H. invert_run. simpl. apply placed_clear_fresh.
  - unfold load. intros H. invert_run; auto.
Qed.

Section Tick.

Variable config_ : Config.
Variable GetReadyCommand : Z → Controller → Command → Z → Command.
Variable AddressUnmapping : Address → Z.

Lemma cut_loop_in_ref wr cuts idx s log s' log' :
  cut_loop config_ GetReadyCommand AddressUnmapping wr true cuts idx s log
  = Ok (s', log') →
  s' = s ∧ log' = log ++ replicate (length idx) no_batches.
Proof.
  revert log. induction idx as [|i idx IH]; intros log; simpl.
  - intros [= <- <-]. now rewrite app_nil_r.
  - unfold cut_step at 1. intros H. apply bind_Ok in H as ([s1 b] & Hs & H).
    apply bind_Ok in Hs as (p & _ & Hs). rewrite orb_true_r in Hs.
    injection Hs as <- <-.
    apply IH in H as [-> ->]. split; [reflexivity|].
    now rewrite <- app_assoc.
Qed.

(** C3, as the code has it. On a tick where some controller reports
    [pim_refresh_coming] and a configuration exists, the three placement
    flags of every cut are down at the end of the tick, and no batch that
    goes to a controller lane is headed by a PIM_ACTIVATE; READ and WRITE
    batches still go out. *)
Theorem refresh_coming_defers_activates
    (s s' : System) (log : list Batches) :
  wait_refresh_of s = true →
  pim_tick config_ GetReadyCommand AddressUnmapping s = Ok (s', log) →
  placed_clear (ncuts (cfg s')) (cut s') ∧ Forall no_activate log.
Proof.
  unfold wait_refresh_of, pim_tick. intros Hw H.
  apply bind_Ok in H as ([c wr] & Hla & H).
  apply bind_Ok in H as (s1 & Hd & H).
  apply refresh_lookahead_spec in Hla as (_ & _ & Hwr & Hclear & _).
  rewrite Hw in Hwr. simpl in Hwr. subst wr. specialize (Hclear Hw).
  apply andb_true_iff in Hw as [_ Hg].
  apply (decode_placed_clear (with_cut c s) s1 Hg Hclear) in Hd as [Hg1 Hc1].
  rewrite Hg1 in H.
  apply cut_loop_lowered in H as (Hcfg & Hlow & Hlog); [|constructor].
  rewrite Hcfg. split; [|assumption].
  eapply placed_clear_lowered; eassumption.
Qed.

(** C6, as the code has it. On a tick where some controller reports
    [IsInRef] or [pim_refresh_coming2], no cut emits a batch and no lane of
    any controller grows; the per-cut state at the end of the tick is what
    the decoder makes of the state at the start, in which the refresh
    look-ahead has lowered placement flags and changed nothing else (and
    changed nothing at all unless a controller also reports
    [pim_refresh_coming]). *)
Theorem in_ref_suppresses_cut_work (s s' : System) (log : list Batches) :
  any_in_ref (ctrls_ s) = true →
  pim_tick config_ GetReadyCommand AddressUnmapping s = Ok (s', log) →
  Forall (eq no_batches) log
  ∧ lanes <$> ctrls_ s' = lanes <$> ctrls_ s
  ∧ ∃ c, decode (with_cut c s) = Ok s'
      ∧ unplaced c = unplaced (cut s)
      ∧ (wait_refresh_of s = false → c = cut s).
Proof.
  unfold pim_tick. intros Href H.
  apply bind_Ok in H as ([c wr] & Hla & H).
  apply bind_Ok in H as (s1 & Hd & H).
  pose proof (decode_lanes _ _ Hd) as [Hlanes Hany]. simpl in Hlanes, Hany.
  rewrite Hany, Href in H.
  apply cut_loop_in_ref in H as [-> ->].
  apply refresh_lookahead_spec in Hla as (_ & Hun & _ & _ & Hsame).
  split; [apply Forall_replicate; reflexivity|].
  split; [assumption|]. exists c. auto.
Qed.

End Tick.

Lemma refresh_coming_defers_activates_witness :
  wait_refresh_of enable_while_refresh_coming = true
  ∧ ∃ s' log,
      pim_tick ddr_config ready_activate flat_address
        enable_while_refresh_coming = Ok (s', log)
      ∧ placed_clear (ncuts (cfg s')) (cut s') ∧ Forall no_activate log.
Proof.
  split; [reflexivity|].
  destruct (pim_tick ddr_config ready_activate flat_address
              enable_while_refresh_coming) as [[s' log]| |] eqn:Ht;
    try (vm_compute in Ht; discriminate Ht).
  exists s', log. split; [reflexivity|].
  exact (refresh_coming_defers_activates ddr_config ready_activate
           flat_address enable_while_refresh_coming s' log eq_refl Ht).
Defined.

(** C3 fails as the specification states it: with a refresh coming the weight READ batch of
    the cut still goes out, sixteen commands to each of the four
    controllers. *)
Lemma refresh_coming_still_emits_reads :
  wait_refresh_of enable_while_refresh_coming = true
  ∧ Forall (λ c, rd_w_cmds_ c = []) (ctrls_ enable_while_refresh_coming)
  ∧ ∃ s' b,
      pim_tick ddr_config ready_as_asked flat_address
        enable_while_refresh_coming = Ok (s', [b])
      ∧ length (w_cmds b) = 64%nat
      ∧ Forall (λ cmd, cmd_type cmd = PIM_READ) (w_cmds b)
      ∧ Forall (λ c, length (rd_w_cmds_ c) = 16%nat) (ctrls_ s').
Proof.
  split; [reflexivity|].
  split; [repeat constructor|].
  eexists. eexists. split; [vm_compute; reflexivity|].
  split; [reflexivity|]. split; repeat constructor.
Qed.

Lemma in_ref_suppresses_cut_work_witness :
  any_in_ref (ctrls_ activated_in_refresh) = true
  ∧ ∃ s' log,
      pim_tick ddr_config ready_activate flat_address activated_in_refresh
      = Ok (s', log)
      ∧ Forall (eq no_batches) log
      ∧ lanes <$> ctrls_ s' = lanes <$> ctrls_ activated_in_refresh.
Proof.
  split; [reflexivity|].
  destruct (pim_tick ddr_config ready_activate flat_address
              activated_in_refresh) as [[s' log]| |] eqn:Ht;
    try (vm_compute in Ht; discriminate Ht).
  exists s', log. split; [reflexivity|].
  destruct (in_ref_suppresses_cut_work ddr_config ready_activate
              flat_address activated_in_refresh s' log eq_refl Ht)
    as (Hlog & Hlanes & _).
  split; assumption.
Defined.

(** C6 fails as the specification states it: on a tick in refresh, with nothing to decode,
    the weight placement flag of the cut goes down, because a controller
    also reports a coming refresh. *)
Lemma in_ref_tick_lowers_placement_flag :
  any_in_ref (ctrls_ activated_in_refresh) = true
  ∧ pim_trans_queue_ activated_in_refresh = []
  ∧ w_act_placed (cut activated_in_refresh) = [true]
  ∧ ∃ s' log,
      pim_tick ddr_config ready_activate flat_address activated_in_refresh
      = Ok (s', log)
      ∧ w_act_placed (cut s') = [false].
Proof.
  repeat (split; [reflexivity|]).
  eexists. eexists. split; [vm_compute; reflexivity|]. reflexivity.
Qed.

(** ** Tile arithmetic *)

Lemma quot_nonneg a b : 0 <= a → 0 < b → a ÷ b = a / b.
Proof. intros. apply Z.quot_div_nonneg; lia. Qed.

Lemma rem_nonneg a b : 0 <= a → 0 < b → Z.rem a b = a mod b.
Proof. intros. apply Z.rem_mod_nonneg; lia. Qed.

Lemma tile_origin a b :
  0 <= a → 0 < b → 0 <= b * (a / b) <= a ∧ a < b * (a / b) + b.
Proof.
  intros Ha Hb. pose proof (Z.div_mod a b ltac:(lia)).
  pose proof (Z.mod_pos_bound a b Hb).
  pose proof (Z.div_pos a b Ha Hb). nia.
Qed.

Lemma div_succ_same a b :
  0 <= a → 0 < b → (a + 1) mod b ≠ 0 → (a + 1) / b = a / b.
Proof.
  intros Ha Hb Hm. pose proof (Z.div_mod a b ltac:(lia)) as Hd.
  pose proof (Z.mod_pos_bound a b Hb) as Hr.
  destruct (decide (a mod b + 1 = b)) as [He|Hne].
  - exfalso. apply Hm.
    replace (a + 1) with ((a / b + 1) * b) by nia. apply Z.mod_mul. lia.
  - symmetry. apply (Z.div_unique (a + 1) b (a / b) (a mod b + 1)); lia.
Qed.

Lemma div_of_multiple a b : 0 < b → b * a / b = a.
Proof. intros. rewrite Z.mul_comm. apply Z.div_mul. lia. Qed.

(** If stepping past [a] reaches the next multiple of [t] and no multiple
    of [p] lies between the origin of the tile and [a], then [p] is the
    whole tile. *)
Lemma tile_crossing a t p :
  0 <= a → 0 < p <= t → (a + 1) mod t = 0 →
  a / p = t * (a / t) / p → p = t ∧ (a + 1) mod p = 0.
Proof.
  intros Ha Hp Hm Hq.
  destruct (tile_origin a t Ha ltac:(lia)) as [Ho1 Ho2].
  assert (Hnext : a + 1 = t * (a / t) + t).
  { apply Z.mod_divide in Hm; [|lia]. destruct Hm as [k Hk].
    assert (k = a / t + 1) by nia. nia. }
  set (o := t * (a / t)) in *.
  destruct (tile_origin o p ltac:(lia) ltac:(lia)) as [Hq1 Hq2].
  destruct (tile_origin a p Ha ltac:(lia)) as [Hq3 Hq4].
  rewrite Hq in Hq3, Hq4.
  assert (p = t) by nia. subst p. split; [reflexivity|]. exact Hm.
Qed.

(** ** Iterator bounds *)

Lemma geometry_spec config_ g c j geo :
  geometry config_ g c j = Ok geo → geometry_of config_ g c j geo.
Proof.
  unfold geometry. intros H. inv_ok. simpl.
  unfold geometry_of. eexists _, _. simpl. repeat split; eassumption.
Qed.

Section BoundsArith.

Variable config_ : Config.
Variable g : ConfigState.
Hypothesis Hwf : well_formed config_ g.

Lemma N_tile_size_range : 1 <= 128 ÷ vcuts g <= 128.
Proof.
  destruct Hwf as (_ & Hv & _). rewrite quot_nonneg by lia.
  split.
  - apply Z.div_le_lower_bound; lia.
  - apply Z.div_le_upper_bound; lia.
Qed.

Lemma per_bank_range n :
  0 < n →
  banks config_ ÷ vcuts g ÷ (if df g =? 1 then 16 else 1) ≠ 0 →
  1 <= per_bank config_ g n <= 128 ÷ vcuts g.
Proof.
  intros Hn Hb. pose proof N_tile_size_range as Ht.
  destruct Hwf as (Hbanks & Hv & _). unfold per_bank.
  set (nb := banks config_ ÷ vcuts g ÷ _) in *.
  assert (0 < nb).
  { assert (0 <= nb); [|lia]. unfold nb.
    apply Z.quot_pos; [|destruct (df g =? 1); lia].
    apply Z.quot_pos; lia. }
  unfold isub, iadd. rewrite (wrap_small (_ - 1)) by lia.
  rewrite (quot_nonneg _ nb) by lia.
  assert (0 <= (128 ÷ vcuts g - 1) / nb <= 128 ÷ vcuts g - 1).
  { split; [apply Z.div_pos; lia|].
    apply Z.div_le_upper_bound; nia. }
  rewrite wrap_small by lia. lia.
Qed.

Lemma N_bounds_below n nit :
  N_bounds config_ g n nit → nit < n + 128 ÷ vcuts g ∧ nit < n + 128.
Proof.
  intros (H0 & Ho & _). pose proof N_tile_size_range as Ht.
  rewrite (quot_nonneg nit) in Ho by lia.
  pose proof (tile_origin nit (128 ÷ vcuts g) H0 ltac:(lia)). lia.
Qed.

Lemma N_bounds_origin n k :
  0 <= k → (128 ÷ vcuts g) * k < n →
  N_bounds config_ g n ((128 ÷ vcuts g) * k).
Proof.
  intros Hk Hn. pose proof N_tile_size_range as Ht.
  assert (E : (128 ÷ vcuts g) * k ÷ (128 ÷ vcuts g) = k).
  { rewrite quot_nonneg by nia. apply div_of_multiple. lia. }
  unfold N_bounds. rewrite E. repeat split; [nia | assumption].
Qed.

Lemma N_bounds_snap n nit :
  n + 128 < 2 ^ 31 → N_bounds config_ g n nit →
  N_bounds config_ g n ((128 ÷ vcuts g) *! (nit ÷ (128 ÷ vcuts g))).
Proof.
  intros Hn HN. pose proof N_tile_size_range as Ht.
  destruct HN as (H0 & Ho & _).
  assert (0 <= nit ÷ (128 ÷ vcuts g)) by (apply Z.quot_pos; lia).
  unfold imul. rewrite wrap_small by nia.
  apply N_bounds_origin; assumption.
Qed.

Lemma N_bounds_next n nit :
  n + 128 < 2 ^ 31 → N_bounds config_ g n nit →
  (n <=? (128 ÷ vcuts g) *! (nit ÷ (128 ÷ vcuts g) +! 1)) = false →
  N_bounds config_ g n ((128 ÷ vcuts g) *! (nit ÷ (128 ÷ vcuts g) +! 1)).
Proof.
  intros Hn HN. pose proof N_tile_size_range as Ht.
  destruct HN as (H0 & Ho & _).
  assert (0 <= nit ÷ (128 ÷ vcuts g)) by (apply Z.quot_pos; lia).
  unfold imul, iadd. rewrite (wrap_small (_ + 1)) by nia.
  rewrite wrap_small by nia.
  intros Hlt. apply Z.leb_gt in Hlt. apply N_bounds_origin; lia.
Qed.

Lemma N_bounds_zero n : 0 < n → N_bounds config_ g n 0.
Proof.
  intros Hn. replace 0 with ((128 ÷ vcuts g) * 0) by lia.
  apply N_bounds_origin; lia.
Qed.

Lemma N_bounds_step n nit :
  0 < n → n + 128 < 2 ^ 31 →
  banks config_ ÷ vcuts g ÷ (if df g =? 1 then 16 else 1) ≠ 0 →
  N_bounds config_ g n nit →
  (Z.rem (nit +! 1) (per_bank config_ g n) =? 0)
  && ((128 ÷ vcuts g =? per_bank config_ g n)
      || negb (Z.rem (nit +! 1) (128 ÷ vcuts g) =? 0)) = false →
  N_bounds config_ g n (nit +! 1).
Proof.
  intros Hn Hn' Hb HN Hsnap. pose proof N_tile_size_range as Ht.
  pose proof (per_bank_range n Hn Hb) as Hp.
  pose proof (N_bounds_below n nit HN) as [_ Hlt].
  destruct HN as (H0 & Ho & Hq).
  set (t := 128 ÷ vcuts g) in *. set (p := per_bank config_ g n) in *.
  unfold iadd in *. rewrite wrap_small in * by lia.
  rewrite !rem_nonneg in Hsnap by lia.
  rewrite (quot_nonneg nit t) in Ho, Hq by lia.
  rewrite (quot_nonneg nit p) in Hq by lia.
  rewrite (quot_nonneg (t * _)) in Hq
    by (destruct (tile_origin nit t H0 ltac:(lia)); lia).
  unfold N_bounds. fold t p.
  rewrite (quot_nonneg (nit + 1) t), (quot_nonneg (nit + 1) p) by lia.
  rewrite (quot_nonneg (t * _))
    by (destruct (tile_origin (nit + 1) t ltac:(lia) ltac:(lia)); lia).
  destruct (Z.eqb_spec ((nit + 1) mod t) 0) as [Hcross|Hin].
  - exfalso.
    destruct (tile_crossing nit t p H0 ltac:(lia) Hcross Hq) as [Heq Hm].
    rewrite Hm, <- Heq, !Z.eqb_refl in Hsnap. simpl in Hsnap. discriminate.
  - rewrite (div_succ_same nit t) by lia.
    split; [lia|]. split; [assumption|].
    destruct (Z.eqb_spec ((nit + 1) mod p) 0) as [Hm|Hm].
    + rewrite orb_true_r in Hsnap. discriminate.
    + rewrite (div_succ_same nit p) by lia. assumption.
Qed.

Lemma M_tile_facts mit :
  0 <= mit →
  0 <= M_tile_size g * (mit ÷ M_tile_size g) <= mit
  ∧ mit < M_tile_size g * (mit ÷ M_tile_size g + 1)
  ∧ M_tile_size g * (mit ÷ M_tile_size g + 1) <= mit + M_tile_size g
  ∧ 0 <= mit ÷ M_tile_size g.
Proof.
  intros H0. destruct Hwf as (_ & _ & Ht).
  rewrite quot_nonneg by lia.
  destruct (tile_origin mit (M_tile_size g) H0 Ht).
  pose proof (Z.div_pos mit (M_tile_size g) H0 Ht). lia.
Qed.

Lemma M_bounds_inside m mit cnt st cnt' st' :
  M_bounds g m mit cnt st → st ≠ 3 → m < 2 ^ 31 →
  (mit +! 1 =? m) = false →
  M_bounds g m (mit +! 1) cnt' st'.
Proof.
  intros (H0 & [Hlt|(_ & _ & ?)]) Hst Hm He; [|contradiction].
  unfold iadd in *. rewrite wrap_small in * by lia.
  apply Z.eqb_neq in He. split; [lia|]. left. lia.
Qed.

Lemma M_bounds_origin m mit cnt st cnt' st' :
  M_bounds g m mit cnt st → st ≠ 3 → m < 2 ^ 31 →
  M_bounds g m (M_tile_size g *! (mit ÷ M_tile_size g)) cnt' st'.
Proof.
  intros (H0 & [Hlt|(_ & _ & ?)]) Hst Hm; [|contradiction].
  pose proof (M_tile_facts mit H0).
  unfold imul. rewrite wrap_small by lia. split; [lia|]. left. lia.
Qed.

Lemma M_bounds_next m mit cnt st cnt' st' :
  M_bounds g m mit cnt st → st ≠ 3 → m + M_tile_size g < 2 ^ 31 →
  (m <=? M_tile_size g *! (mit ÷ M_tile_size g +! 1)) = false →
  M_bounds g m (M_tile_size g *! (mit ÷ M_tile_size g +! 1)) cnt' st'.
Proof.
  intros (H0 & [Hlt|(_ & _ & ?)]) Hst Hm; [|contradiction].
  pose proof (M_tile_facts mit H0). destruct Hwf as (_ & _ & Ht).
  unfold imul, iadd. rewrite (wrap_small (_ + 1)) by lia.
  rewrite wrap_small by lia.
  intros Hle. apply Z.leb_gt in Hle. split; [lia|]. left. lia.
Qed.

Lemma M_bounds_end m mit cnt st :
  M_bounds g m mit cnt st → st ≠ 3 → m + M_tile_size g < 2 ^ 31 →
  M_bounds g m (M_tile_size g *! (mit ÷ M_tile_size g +! 1)) (-1) 3.
Proof.
  intros (H0 & [Hlt|(_ & _ & ?)]) Hst Hm; [|contradiction].
  pose proof (M_tile_facts mit H0). destruct Hwf as (_ & _ & Ht).
  unfold imul, iadd. rewrite (wrap_small (_ + 1)) by lia.
  rewrite wrap_small by lia.
  split; [lia|]. right. repeat split. lia.
Qed.

Lemma M_bounds_status m mit cnt st cnt' st' :
  M_bounds g m mit cnt st → st ≠ 3 ∨ cnt ≠ -1 →
  M_bounds g m mit cnt' st'.
Proof.
  intros (H0 & [Hlt|(_ & ? & ?)]) Hst; [|lia]. split; [assumption|].
  left. assumption.
Qed.

Lemma bounds_update m n mit nit cnt st mit' nit' cnt' st' :
  bounds config_ g m n mit nit cnt st →
  M_bounds g m mit' cnt' st' → N_bounds config_ g n nit' →
  bounds config_ g m n mit' nit' cnt' st'.
Proof.
  intros (? & ? & ? & _ & _) ? ?.
  split; [|split; [|split; [|split]]]; assumption.
Qed.

End BoundsArith.

Ltac vget_lookups :=
  repeat match goal with
  | H : vget _ _ = Ok _ |- _ =>
      let H0 := fresh "Hnn" in
      apply vget_Ok in H; destruct H as [H0 H]; simpl in H
  end.

Ltac same_lookups :=
  repeat match goal with
  | H1 : ?l !! ?k = Some ?a, H2 : ?l !! ?k = Some ?b |- _ =>
      first [ constr_eq a b; clear H2
            | assert (a = b) by congruence;
              first [subst a | subst b | discriminate] ]
  end.

Ltac solve_lookup :=
  simpl;
  first [ eassumption
        | apply list_lookup_insert_eq; rewrite ?length_insert; lia
        | rewrite !list_lookup_insert_ne by lia; eassumption ].

Ltac keep_bounds Hb :=
  match type of Hb with
  | bounds _ _ ?m ?n ?mit ?nit ?cnt ?st =>
      exists m, n, mit, nit, cnt, st;
      do 6 (split; [solve_lookup|]); exact Hb
  end.

Ltac new_bounds :=
  unfold tile_bounds; do 6 eexists;
  do 6 (split; [solve_lookup|]).

Section BoundsSteps.

Variable config_ : Config.
Variable GetReadyCommand : Z → Controller → Command → Z → Command.
Variable AddressUnmapping : Address → Z.
Variable g : ConfigState.
Hypothesis Hwf : well_formed config_ g.

Lemma fetch_weight_bounds geo wr cs clk j c c' w i :
  geometry_of config_ g c j geo →
  vget (iw_status c) j = Ok 0 →
  fetch_weight config_ GetReadyCommand AddressUnmapping g geo wr cs clk j c
  = Ok (c', w) →
  tile_bounds config_ g c i → tile_bounds config_ g c' i.
Proof.
  intros (nit0 & mit0 & Hn0 & Hm0 & E1 & E2 & E3 & E4 & E5) Hst Hrun
    (m & n & mit & nit & cnt & st & HM & HN & HMit & HNit & Hcnt & Hstv & Hb).
  unfold fetch_weight in Hrun. rewrite E1, E2, E4, E5 in Hrun.
  invert_run; vget_lookups; simpl in *.
  all: destruct (decide (i = Z.to_nat j)) as [->|Hij].
  all: same_lookups.
  all: try keep_bounds Hb.
  all: new_bounds.
  all: destruct Hb as (Hn & Hn' & Hm & HMb & HNb).
  all: assert (Hnb : banks config_ ÷ vcuts g ÷ (if df g =? 1 then 16 else 1)
                     ≠ 0)
         by (unfold nonzero in *;
             destruct (Z.eqb_spec
                         (banks config_ ÷ vcuts g
                            ÷ (if df g =? 1 then 16 else 1)) 0);
             [discriminate | assumption]).
  all: split; [|split; [|split; [|split]]]; try assumption.
  all: try (eapply M_bounds_status; [eassumption | left; lia]).
  all: try (apply N_bounds_snap; assumption).
  all: apply N_bounds_step; assumption.
Qed.

Lemma weight_finished_bounds cuts j c c' i :
  vget (iw_status c) j = Ok 1 →
  weight_finished cuts j c = Ok c' →
  tile_bounds config_ g c i → tile_bounds config_ g c' i.
Proof.
  intros Hst Hrun
    (m & n & mit & nit & cnt & st & HM & HN & HMit & HNit & Hcnt & Hstv & Hb).
  unfold weight_finished in Hrun.
  invert_run; vget_lookups; simpl in *.
  all: destruct (decide (i = Z.to_nat j)) as [->|Hij].
  all: same_lookups.
  all: try keep_bounds Hb.
  all: new_bounds.
  all: eapply bounds_update; [exact Hb | | apply Hb].
  all: eapply (M_bounds_status g); [apply Hb | left; lia].
Qed.

Lemma input_finished_bounds j c c' i :
  input_finished j c = Ok c' →
  tile_bounds config_ g c i → tile_bounds config_ g c' i.
Proof.
  intros Hrun
    (m & n & mit & nit & cnt & st & HM & HN & HMit & HNit & Hcnt & Hstv & Hb).
  unfold input_finished in Hrun.
  invert_run; vget_lookups; simpl in *.
  all: destruct (decide (i = Z.to_nat j)) as [->|Hij].
  all: same_lookups.
  all: try keep_bounds Hb.
  all: new_bounds.
  all: eapply bounds_update; [exact Hb | | apply Hb].
  all: eapply (M_bounds_status g); [apply Hb | right; lia].
Qed.

Lemma write_output_bounds geo wr cs clk j ready c off c' off' out i :
  write_output config_ GetReadyCommand AddressUnmapping g geo wr cs clk j
    ready c off = Ok (c', off', out) →
  tile_bounds config_ g c i → tile_bounds config_ g c' i.
Proof.
  intros Hrun
    (m & n & mit & nit & cnt & st & HM & HN & HMit & HNit & Hcnt & Hstv & Hb).
  unfold write_output, advance_output, count_down in Hrun.
  invert_run; simpl in *.
  all: keep_bounds Hb.
Qed.

Lemma feed_input_bounds geo wr cs clk cuts j c c' b i :
  geometry_of config_ g c j geo →
  vget (iw_status c) j = Ok 2 →
  feed_input config_ GetReadyCommand AddressUnmapping g geo wr cs clk cuts
    j c = Ok (c', b) →
  tile_bounds config_ g c i → tile_bounds config_ g c' i.
Proof.
  intros (nit0 & mit0 & Hn0 & Hm0 & E1 & E2 & E3 & E4 & E5) Hst Hrun
    (m & n & mit & nit & cnt & st & HM & HN & HMit & HNit & Hcnt & Hstv & Hb).
  unfold feed_input, advance_input in Hrun. rewrite E1, E2, E3 in Hrun.
  invert_run; vget_lookups; simpl in *.
  all: destruct (decide (i = Z.to_nat j)) as [->|Hij].
  all: same_lookups.
  all: try keep_bounds Hb.
  all: new_bounds.
  all: change (2 +! 1) with 3.
  all: pose proof Hwf as (_ & _ & HMts).
  all: destruct Hb as (Hn & Hn' & Hm & HMb & HNb).
  all: repeat match goal with
       | H : _ || _ = false |- _ => apply orb_false_iff in H; destruct H
       end.
  all: split; [exact Hn | split; [exact Hn' | split; [exact Hm | split]]].
  all: first
    [ exact HNb
    | apply N_bounds_zero; assumption
    | apply N_bounds_next; assumption
    | eapply (M_bounds_end config_ g Hwf m mit cnt 2);
        first [assumption | lia]
    | eapply (M_bounds_next config_ g Hwf m mit cnt 2);
        first [assumption | lia]
    | eapply (M_bounds_origin config_ g Hwf m mit cnt 2);
        first [assumption | lia]
    | eapply (M_bounds_inside g m mit cnt 2);
        first [assumption | lia] ].
Qed.

Lemma run_state_bounds geo wr cs clk cuts j st c c' w b i :
  geometry_of config_ g c j geo →
  vget (iw_status c) j = Ok st →
  run_state config_ GetReadyCommand AddressUnmapping g geo wr cs clk cuts j
    st c = Ok (c', w, b) →
  tile_bounds config_ g c i → tile_bounds config_ g c' i.
Proof.
  intros Hgeo Hst. unfold run_state. intros H Hb. invert_run;
    repeat match goal with
    | H : (_ =? _) = true |- _ => apply Z.eqb_eq in H; subst
    end.
  - eapply fetch_weight_bounds; eassumption.
  - eapply weight_finished_bounds; eassumption.
  - eapply feed_input_bounds; eassumption.
  - eapply input_finished_bounds; eassumption.
  - assumption.
Qed.

End BoundsSteps.

Section BoundsTick.

Variable config_ : Config.
Variable GetReadyCommand : Z → Controller → Command → Z → Command.
Variable AddressUnmapping : Address → Z.

Lemma cut_step_bounds wr ir cuts j s s' b i :
  well_formed config_ (cfg s) →
  cut_step config_ GetReadyCommand AddressUnmapping wr ir cuts j s
  = Ok (s', b) →
  tile_bounds config_ (cfg s) (cut s) i →
  cfg s' = cfg s ∧ tile_bounds config_ (cfg s) (cut s') i.
Proof.
  intros Hwf. unfold cut_step. intros H Hb. invert_run; [auto|].
  split; [reflexivity|]. simpl.
  match goal with H : context [geometry] |- _ =>
    apply geometry_spec in H end.
  eapply write_output_bounds; [eassumption|].
  eapply run_state_bounds; eassumption.
Qed.

Lemma cut_loop_bounds wr ir cuts idx s log s' log' i :
  well_formed config_ (cfg s) →
  cut_loop config_ GetReadyCommand AddressUnmapping wr ir cuts idx s log
  = Ok (s', log') →
  tile_bounds config_ (cfg s) (cut s) i →
  cfg s' = cfg s ∧ tile_bounds config_ (cfg s) (cut s') i.
Proof.
  revert s log. induction idx as [|j idx IH]; intros s log Hwf; simpl.
  - intros [= <- <-]. auto.
  - intros H Hb. apply bind_Ok in H as ([s1 b] & Hstep & H).
    destruct (cut_step_bounds _ _ _ _ _ _ _ i Hwf Hstep Hb) as [Hcfg Hb1].
    rewrite <- Hcfg in Hwf, Hb1.
    destruct (IH _ _ Hwf H Hb1) as [Hcfg' Hb']. rewrite Hcfg in *.
    split; [congruence | assumption].
Qed.

Lemma tile_bounds_unplaced g c c' i :
  unplaced c' = unplaced c →
  tile_bounds config_ g c i → tile_bounds config_ g c' i.
Proof.
  intros Hu (m & n & mit & nit & cnt & st & HM & HN & HMit & HNit & Hcnt
             & Hst & Hb).
  pose proof (f_equal M Hu) as E1. pose proof (f_equal N Hu) as E2.
  pose proof (f_equal M_it Hu) as E3. pose proof (f_equal N_it Hu) as E4.
  pose proof (f_equal in_cnt Hu) as E5.
  pose proof (f_equal iw_status Hu) as E6. simpl in *.
  exists m, n, mit, nit, cnt, st. rewrite E1, E2, E3, E4, E5, E6.
  repeat (split; [assumption|]). assumption.
Qed.

Lemma decode_bounds s s' i :
  no_reconfig s → decode s = Ok s' →
  tile_bounds config_ (cfg s) (cut s) i →
  cfg s' = cfg s ∧ tile_bounds config_ (cfg s) (cut s') i.
Proof.
  unfold no_reconfig, decode.
  destruct (pim_trans_queue_ s) as [|w rest].
  { intros _ [= <-]. auto. }
  intros ->. unfold compute_enable. intros H Hb. invert_run; [|auto].
  split; [reflexivity|]. simpl.
  destruct Hb as (m & n & mit & nit & cnt & st & Hb).
  exists m, n, mit, nit, cnt, st. exact Hb.
Qed.

(** C2, as the code has it. On a tick that does not reconfigure (the
    queue is empty or headed by a Compute-Enable), every cut keeps its
    iterator bounds: [0 <= M_it] and [0 <= N_it]; [M_it < M] until the end
    of the computation, whose bookkeeping in state 2 leaves [M_it] at the
    next multiple of [M_tile_size], below [M + M_tile_size], with
    [in_cnt = -1] and [iw_status = 3]; and [N_it] stays in an N-tile that
    starts below [N], so [N_it < N + N_tile_size]. *)
Theorem tick_keeps_iterator_bounds
    (s s' : System) (log : list Batches) (i : nat) :
  well_formed config_ (cfg s) →
  no_reconfig s →
  pim_tick config_ GetReadyCommand AddressUnmapping s = Ok (s', log) →
  tile_bounds config_ (cfg s) (cut s) i →
  cfg s' = cfg s
  ∧ tile_bounds config_ (cfg s') (cut s') i
  ∧ ∃ m n mit nit cnt st,
      M (cut s') !! i = Some m ∧ N (cut s') !! i = Some n
      ∧ M_it (cut s') !! i = Some mit ∧ N_it (cut s') !! i = Some nit
      ∧ in_cnt (cut s') !! i = Some cnt ∧ iw_status (cut s') !! i = Some st
      ∧ 0 <= mit < m + M_tile_size (cfg s')
      ∧ (m <= mit → cnt = -1 ∧ st = 3)
      ∧ 0 <= nit < n + 128 ÷ vcuts (cfg s').
Proof.
  intros Hwf Hq. unfold pim_tick. intros H Hb.
  apply bind_Ok in H as ([c wr] & Hla & H).
  apply bind_Ok in H as (s1 & Hd & H).
  apply refresh_lookahead_spec in Hla as (_ & Hun & _).
  apply (tile_bounds_unplaced _ _ _ _ Hun) in Hb.
  destruct (decode_bounds (with_cut c s) s1 i Hq Hd Hb) as [Hcfg Hb1].
  simpl in Hcfg, Hb1. rewrite <- Hcfg in Hwf, Hb1.
  destruct (cut_loop_bounds _ _ _ _ _ _ _ _ i Hwf H Hb1) as [Hcfg' Hb'].
  assert (Hg : cfg s' = cfg s) by congruence.
  rewrite Hcfg in Hb'. rewrite Hg.
  split; [reflexivity|]. split; [assumption|].
  destruct Hb' as (m & n & mit & nit & cnt & st & HM & HN & HMit & HNit
                   & Hcnt & Hst & Hbd).
  exists m, n, mit, nit, cnt, st. repeat (split; [assumption|]).
  destruct Hbd as (Hn & _ & _ & (Hm0 & HMb) & HNb).
  rewrite Hcfg in Hwf. pose proof Hwf as (_ & _ & HMts).
  pose proof (N_bounds_below config_ (cfg s) Hwf n nit HNb) as [Hlt _].
  destruct HNb as (Hn0 & _).
  split; [|split]; [lia | intros; lia | lia].
Qed.

End BoundsTick.

Lemma tick_keeps_iterator_bounds_witness :
  ∃ s' log,
    pim_tick ddr_config ready_as_asked flat_address last_input_row
    = Ok (s', log)
    ∧ tile_bounds ddr_config (cfg s') (cut s') 0.
Proof.
  destruct (pim_tick ddr_config ready_as_asked flat_address last_input_row)
    as [[s' log]| |] eqn:Ht; try (vm_compute in Ht; discriminate Ht).
  exists s', log. split; [reflexivity|].
  assert (Hwf : well_formed ddr_config (cfg last_input_row))
    by (vm_compute; intuition congruence).
  assert (Hq : no_reconfig last_input_row) by exact I.
  assert (Hb : tile_bounds ddr_config (cfg last_input_row)
                 (cut last_input_row) 0).
  { exists 16, 16, 15, 0, 0, 2. repeat (split; [reflexivity|]).
    vm_compute. intuition congruence. }
  exact (proj1 (proj2 (tick_keeps_iterator_bounds ddr_config ready_as_asked
                         flat_address last_input_row s' log 0%nat
                         Hwf Hq Ht Hb))).
Defined.

(** C2 fails as the specification states it: the tick that feeds the last input row of the
    cut takes [M_it] from 15 to 256 while [M] is 16. *)
Lemma end_of_compute_leaves_M_it_above_M :
  M (cut last_input_row) = [16] ∧ M_it (cut last_input_row) = [15]
  ∧ ∃ s' log,
      pim_tick ddr_config ready_as_asked flat_address last_input_row
      = Ok (s', log)
      ∧ M (cut s') = [16] ∧ M_it (cut s') = [256]
      ∧ in_cnt (cut s') = [-1] ∧ iw_status (cut s') = [3].
Proof.
  split; [reflexivity|]. split; [reflexivity|].
  eexists. eexists. split; [vm_compute; reflexivity|].
  repeat split; reflexivity.
Qed.

(** The weight fetch of the last N-tile takes [N_it] past [N]. *)
Example weight_fetch_steps_N_it_past_N :
  N (cut second_tile_fetch) = [130]
  ∧ N_it (cut second_tile_fetch) = [130]
  ∧ ∃ s' log,
      pim_tick ddr_config ready_as_asked flat_address second_tile_fetch
      = Ok (s', log)
      ∧ N (cut s') = [130] ∧ N_it (cut s') = [131].
Proof.
  split; [reflexivity|]. split; [reflexivity|].
  eexists. eexists. split; [vm_compute; reflexivity|].
  split; reflexivity.
Qed.

(** ** The engine leaves what a Load wrote *)

Section EngineLoaded.

Variable config_ : Config.
Variable GetReadyCommand : Z → Controller → Command → Z → Command.
Variable AddressUnmapping : Address → Z.

Lemma fetch_weight_loaded g geo wr cs clk j c c' w :
  fetch_weight config_ GetReadyCommand AddressUnmapping g geo wr cs clk j c
  = Ok (c', w) →
  loaded c' = loaded c.
Proof. unfold fetch_weight. intros H. invert_run; reflexivity. Qed.

Lemma weight_finished_loaded cuts j c c' :
  weight_finished cuts j c = Ok c' → loaded c' = loaded c.
Proof. unfold weight_finished. intros H. invert_run; reflexivity. Qed.

Lemma feed_input_loaded g geo wr cs clk cuts j c c' b :
  feed_input config_ GetReadyCommand AddressUnmapping g geo wr cs clk cuts
    j c = Ok (c', b) →
  loaded c' = loaded c.
Proof.
  unfold feed_input, advance_input. intros H. invert_run; reflexivity.
Qed.

Lemma input_finished_loaded j c c' :
  input_finished j c = Ok c' → loaded c' = loaded c.
Proof. unfold input_finished. intros H. invert_run; reflexivity. Qed.

Lemma write_output_loaded g geo wr cs clk j ready c off c' off' out :
  write_output config_ GetReadyCommand AddressUnmapping g geo wr cs clk j
    ready c off = Ok (c', off', out) →
  loaded c' = loaded c.
Proof.
  unfold write_output, advance_output, count_down. intros H.
  invert_run; reflexivity.
Qed.

Lemma cut_step_loaded wr ir cuts j s s' b :
  cut_step config_ GetReadyCommand AddressUnmapping wr ir cuts j s
  = Ok (s', b) →
  loaded (cut s') = loaded (cut s).
Proof.
  unfold cut_step, run_state. intros H. invert_run; simpl;
    try reflexivity;
    match goal with H : context [write_output] |- _ =>
      apply write_output_loaded in H; rewrite H end;
    try reflexivity.
  - match goal with H : context [fetch_weight] |- _ =>
      now apply fetch_weight_loaded in H end.
  - match goal with H : context [weight_finished] |- _ =>
      now apply weight_finished_loaded in H end.
  - match goal with H : context [feed_input] |- _ =>
      now apply feed_input_loaded in H end.
  - match goal with H : context [input_finished] |- _ =>
      now apply input_finished_loaded in H end.
Qed.

Lemma cut_loop_loaded wr ir cuts idx s log s' log' :
  cut_loop config_ GetReadyCommand AddressUnmapping wr ir cuts idx s log
  = Ok (s', log') →
  loaded (cut s') = loaded (cut s).
Proof.
  revert s log. induction idx as [|j idx IH]; intros s log; simpl.
  - intros [= <- <-]. reflexivity.
  - intros H. apply bind_Ok in H as ([s1 b] & Hstep & H).
    apply cut_step_loaded in Hstep. apply IH in H. congruence.
Qed.

(** X1. Between two Loads: a tick with nothing to decode, or with a
    Compute-Enable at the head of the queue, leaves the base rows and the
    dimensions of every cut as they are. *)
Lemma tick_keeps_loaded s s' log :
  no_reconfig s →
  pim_tick config_ GetReadyCommand AddressUnmapping s = Ok (s', log) →
  loaded (cut s') = loaded (cut s).
Proof.
  intros Hq. unfold pim_tick. intros H.
  apply bind_Ok in H as ([c wr] & Hla & H).
  apply bind_Ok in H as (s1 & Hd & H).
  apply refresh_lookahead_spec in Hla as (_ & Hun & _).
  apply cut_loop_loaded in H. rewrite H.
  assert (E : loaded (cut s1) = loaded c).
  { revert Hq Hd. unfold no_reconfig, decode. simpl.
    destruct (pim_trans_queue_ s) as [|w rest].
    - intros _ [= <-]. reflexivity.
    - intros ->. unfold compute_enable. intros Hd. invert_run; reflexivity. }
  rewrite E.
  change (loaded (unplaced c) = loaded (unplaced (cut s))). now rewrite Hun.
Qed.

End EngineLoaded.

Lemma tick_keeps_loaded_witness :
  ∃ s' log,
    pim_tick ddr_config ready_as_asked flat_address one_cut_loaded
    = Ok (s', log)
    ∧ loaded (cut s') = loaded (cut one_cut_loaded).
Proof.
  destruct (pim_tick ddr_config ready_as_asked flat_address one_cut_loaded)
    as [[s' log]| |] eqn:Ht; try (vm_compute in Ht; discriminate Ht).
  exists s', log. split; [reflexivity|].
  apply (tick_keeps_loaded ddr_config ready_as_asked flat_address
           one_cut_loaded s' log); [reflexivity | exact Ht].
Defined.

(** ** Channel selection *)

Lemma shr64_Ok x n : 0 <= n < 64 → shr64 x n = Ok (Z.shiftr x n).
Proof.
  intros Hn. unfold shr64.
  destruct (n <? 0) eqn:E1; [lia|]. destruct (64 <=? n) eqn:E2; [lia|].
  reflexivity.
Qed.

Lemma u64_range z : 0 <= u64 z < 2 ^ 64.
Proof. unfold u64. apply Z.mod_pos_bound. lia. Qed.

Lemma land_le a b : 0 <= b → Z.land a b <= b.
Proof.
  intros Hb.
  assert (Hd : Z.ldiff (Z.land a b) b = 0).
  { apply Z.bits_inj'. intros n Hn.
    rewrite Z.ldiff_spec, Z.land_spec, Z.bits_0.
    destruct (Z.testbit a n), (Z.testbit b n); reflexivity. }
  pose proof (Z.sub_nocarry_ldiff b (Z.land a b) Hd) as Hs.
  assert (0 <= Z.ldiff b (Z.land a b)) by (apply Z.ldiff_nonneg; lia).
  lia.
Qed.

Lemma GetChannel_land m hex :
  0 <= shift_bits m < 64 → 0 <= ch_pos m < 64 → 0 <= ch_mask m < 2 ^ 31 →
  GetChannel m hex
  = Ok (Z.land (Z.shiftr (u64 hex) (shift_bits m + ch_pos m)) (ch_mask m)).
Proof.
  intros Hs Hp Hm. unfold GetChannel.
  rewrite shr64_Ok by lia. simpl. rewrite shr64_Ok by lia. simpl.
  rewrite Z.shiftr_shiftr by lia.
  assert (Hu : u64 (ch_mask m) = ch_mask m)
    by (unfold u64; apply Z.mod_small; lia).
  rewrite Hu. f_equal. apply wrap_small.
  pose proof (u64_range hex) as Hh.
  assert (0 <= Z.shiftr (u64 hex) (shift_bits m + ch_pos m))
    by (apply Z.shiftr_nonneg; lia).
  assert (0 <= Z.land (Z.shiftr (u64 hex) (shift_bits m + ch_pos m))
                 (ch_mask m)) by (apply Z.land_nonneg; lia).
  assert (Z.land (Z.shiftr (u64 hex) (shift_bits m + ch_pos m)) (ch_mask m)
          <= ch_mask m) by (apply land_le; lia).
  lia.
Qed.

Lemma land_mask_range x m :
  0 <= m → 0 <= Z.land x m <= m.
Proof.
  intros Hm. split; [apply Z.land_nonneg; right; exact Hm | apply land_le, Hm].
Qed.

(** X2. With shift counts below 64 and a mask below 2^31, [GetChannel]
    returns normally, and the channel it returns is between 0 and the
    mask. *)
Theorem GetChannel_within_mask m hex :
  0 <= shift_bits m < 64 → 0 <= ch_pos m < 64 → 0 <= ch_mask m < 2 ^ 31 →
  ∃ c, GetChannel m hex = Ok c ∧ 0 <= c <= ch_mask m.
Proof.
  intros Hs Hp Hm. rewrite GetChannel_land by assumption.
  eexists. split; [reflexivity|]. apply land_mask_range. lia.
Qed.

Lemma GetChannel_within_mask_witness :
  ∃ c, GetChannel (mkAddressMap 6 0 3) 197 = Ok c ∧ 0 <= c <= 3.
Proof.
  apply (GetChannel_within_mask (mkAddressMap 6 0 3) 197); simpl; lia.
Defined.

(** X3. With a mask of [k] ones, [GetChannel] returns the [k] bits of the
    address that start at bit [shift_bits + ch_pos]; no other bit of the
    address matters. *)
Theorem GetChannel_bits m hex k :
  0 <= shift_bits m < 64 → 0 <= ch_pos m < 64 → 0 <= k <= 31 →
  ch_mask m = 2 ^ k - 1 →
  GetChannel m hex = Ok (bits (u64 hex) (shift_bits m + ch_pos m) k).
Proof.
  intros Hs Hp Hk Hm.
  assert (2 ^ k <= 2 ^ 31) by (apply Z.pow_le_mono_r; lia).
  assert (0 < 2 ^ k) by (apply Z.pow_pos_nonneg; lia).
  rewrite GetChannel_land by lia. f_equal. rewrite Hm.
  replace (2 ^ k - 1) with (Z.ones k) by (rewrite Z.ones_equiv; lia).
  rewrite Z.land_ones by lia. unfold bits.
  rewrite Z.shiftr_div_pow2 by lia. reflexivity.
Qed.

Lemma GetChannel_bits_witness :
  GetChannel (mkAddressMap 6 0 3) 197 = Ok (bits (u64 197) (6 + 0) 2).
Proof.
  apply (GetChannel_bits (mkAddressMap 6 0 3) 197 2); simpl; lia.
Defined.

(** ** Conventional transactions *)

Section ConventionalFacts.

Variable map_ : AddressMap.
Variable Controller_WillAcceptTransaction : Controller → Z → bool → bool.
Variable Controller_AddTransaction : Controller → Transaction → Controller.

Lemma vget_vset_Ok {A} (v : list A) i x y :
  vget v i = Ok x → vset v i y = Ok (<[Z.to_nat i := y]> v).
Proof.
  unfold vget, vset. destruct (i <? 0) eqn:E; [discriminate|].
  destruct (v !! Z.to_nat i) eqn:El; [|discriminate]. intros _.
  apply lookup_lt_Some in El.
  destruct (Z.of_nat (length v) <=? i) eqn:E2; [lia|]. reflexivity.
Qed.

(** X4. The conventional [AddTransaction] follows the answer of
    [WillAcceptTransaction] for the same address: it returns true where the
    answer is true, fails its assertion where the answer is false, and
    indexes [ctrls_] out of range exactly where [WillAcceptTransaction]
    does. *)
Theorem AddTransaction_rw_follows_WillAccept s hex w :
  match WillAcceptTransaction_rw map_ Controller_WillAcceptTransaction s hex
          w with
  | Ok true =>
      ∃ s', AddTransaction_rw map_ Controller_WillAcceptTransaction
              Controller_AddTransaction s hex w = Ok (s', true)
  | Ok false =>
      AddTransaction_rw map_ Controller_WillAcceptTransaction
        Controller_AddTransaction s hex w = Abort
  | Abort => False
  | Undef =>
      AddTransaction_rw map_ Controller_WillAcceptTransaction
        Controller_AddTransaction s hex w = Undef
  end.
Proof.
  unfold WillAcceptTransaction_rw, AddTransaction_rw.
  destruct (GetChannel map_ hex) as [ch| |] eqn:Ech; cbn [bind].
  - destruct (vget (ctrls_ s) ch) as [c| |] eqn:Ec; cbn [bind].
    + destruct (Controller_WillAcceptTransaction c hex w); cbn [bind assert].
      * erewrite vget_vset_Ok by exact Ec.
        cbn [bind]. eexists. reflexivity.
      * reflexivity.
    + unfold vget in Ec. destruct (ch <? 0); [discriminate|].
      destruct (ctrls_ s !! Z.to_nat ch); discriminate.
    + reflexivity.
  - unfold GetChannel in Ech. unfold shr64 in Ech.
    repeat match type of Ech with
           | context [if ?b then _ else _] => destruct b; simpl in Ech
           end; discriminate.
  - reflexivity.
Qed.

(** X5. A conventional transaction that is accepted changes the
    controller of its channel and [last_req_clk_], and nothing else: the
    PIM queue, the configuration, the cut state, the clock and the other
    controllers are as before. *)
Theorem AddTransaction_rw_frame s hex w s' ok :
  AddTransaction_rw map_ Controller_WillAcceptTransaction
    Controller_AddTransaction s hex w = Ok (s', ok) →
  ok = true
  ∧ cfg s' = cfg s ∧ cut s' = cut s ∧ turn_off s' = turn_off s
  ∧ pim_trans_queue_ s' = pim_trans_queue_ s
  ∧ pim_trans_queue_depth_ s' = pim_trans_queue_depth_ s
  ∧ clk_ s' = clk_ s ∧ last_req_clk_ s' = clk_ s
  ∧ ∃ ch c, GetChannel map_ hex = Ok ch ∧ 0 <= ch
      ∧ ctrls_ s !! Z.to_nat ch = Some c
      ∧ ctrls_ s'
        = <[Z.to_nat ch := Controller_AddTransaction c
                             (new_transaction hex w)]> (ctrls_ s).
Proof.
  unfold AddTransaction_rw. intros Hrun.
  destruct (GetChannel map_ hex) as [ch| |] eqn:Ech; cbn [bind] in Hrun;
    try discriminate.
  destruct (vget (ctrls_ s) ch) as [c| |] eqn:Ec; cbn [bind] in Hrun;
    try discriminate.
  destruct (Controller_WillAcceptTransaction c hex w);
    cbn [bind assert] in Hrun; try discriminate.
  erewrite vget_vset_Ok in Hrun by exact Ec. cbn [bind] in Hrun.
  inversion Hrun; subst; clear Hrun. simpl.
  repeat (split; [reflexivity|]).
  exists ch, c. unfold vget in Ec.
  destruct (ch <? 0) eqn:E; [discriminate|].
  destruct (ctrls_ s !! Z.to_nat ch) eqn:El; [|discriminate].
  inversion Ec; subst. repeat split; try reflexivity. lia.
Qed.

(** X6. When the channel mask is below the number of controllers,
    [GetChannel] always names an existing controller: the conventional
    [WillAcceptTransaction] returns the answer of that controller for every
    address. *)
Theorem WillAcceptTransaction_rw_in_range s hex w :
  0 <= shift_bits map_ < 64 → 0 <= ch_pos map_ < 64 →
  0 <= ch_mask map_ < 2 ^ 31 →
  ch_mask map_ < Z.of_nat (length (ctrls_ s)) →
  ∃ ch c, GetChannel map_ hex = Ok ch
    ∧ ctrls_ s !! Z.to_nat ch = Some c
    ∧ WillAcceptTransaction_rw map_ Controller_WillAcceptTransaction s hex w
      = Ok (Controller_WillAcceptTransaction c hex w).
Proof.
  intros Hs Hp Hm Hlen.
  pose proof (GetChannel_land map_ hex Hs Hp Hm) as Ech.
  pose proof (land_mask_range
                (Z.shiftr (u64 hex) (shift_bits map_ + ch_pos map_))
                (ch_mask map_) ltac:(lia)) as Hch.
  set (ch := Z.land _ _) in *.
  destruct (lookup_lt_is_Some_2 (ctrls_ s) (Z.to_nat ch)) as [c Hc]; [lia|].
  exists ch, c. split; [exact Ech|]. split; [exact Hc|].
  unfold WillAcceptTransaction_rw. rewrite Ech. simpl.
  unfold vget. destruct (ch <? 0) eqn:E; [lia|]. rewrite Hc. reflexivity.
Qed.

End ConventionalFacts.

Lemma AddTransaction_rw_frame_witness :
  ∃ s', AddTransaction_rw (mkAddressMap 6 0 3) accept_reads
          count_transaction (initial_system 8 4) 197 false = Ok (s', true)
      ∧ pim_trans_queue_ s' = [] ∧ cut s' = empty_cut.
Proof.
  destruct (AddTransaction_rw (mkAddressMap 6 0 3) accept_reads
              count_transaction (initial_system 8 4) 197 false)
    as [[s' ok]| |] eqn:E; try (vm_compute in E; discriminate E).
  destruct (AddTransaction_rw_frame _ _ _ _ _ _ _ _ E)
    as (-> & _ & Hc & _ & Hq & _).
  exists s'. split; [reflexivity|]. split; [exact Hq | exact Hc].
Defined.

Lemma WillAcceptTransaction_rw_in_range_witness :
  ∃ ch c, GetChannel (mkAddressMap 6 0 3) 197 = Ok ch
    ∧ ctrls_ (initial_system 8 4) !! Z.to_nat ch = Some c
    ∧ WillAcceptTransaction_rw (mkAddressMap 6 0 3) accept_reads
        (initial_system 8 4) 197 true = Ok (accept_reads c 197 true).
Proof.
  apply (WillAcceptTransaction_rw_in_range (mkAddressMap 6 0 3) accept_reads
           (initial_system 8 4) 197 true); simpl; lia.
Defined.

(** ** [GetReadyCommandPIM] *)

Section ReadyPIMFacts.

Variable GetReadyCommand : Z → Controller → Command → Z → Command.
Variables (cs : list Controller) (occ : list (list bool)) (clk : Z).
Variables (trans : Transaction) (type : CommandType).

Lemma over_banks_Return itC bs st c :
  over_banks GetReadyCommand cs occ clk trans type itC bs st = Ok (Return c) →
  c = invalid_command.
Proof.
  revert st. induction bs as [|itB bs IH]; intros [[f sm] rc] Hrun;
    cbn [over_banks] in Hrun; [discriminate|].
  invert_run; try reflexivity; try discriminate.
  all: try (eapply IH; eassumption).
  all: match goal with H : Ok _ = Ok _ |- _ => inversion H; reflexivity end.
Qed.

Lemma over_banks_Next itC rc0 bs f sm rc f' sm' rc' :
  ready_state type rc0 (f, sm, rc) →
  over_banks GetReadyCommand cs occ clk trans type itC bs (f, sm, rc)
  = Ok (Next (f', sm', rc')) →
  ready_state type rc0 (f', sm', rc')
  ∧ (f = false → f' = false ∧ sm' = sm)
  ∧ (f' = true → bs = [])
  ∧ ∀ itB, itB ∈ bs →
      target_ready GetReadyCommand cs occ clk trans type sm' itC itB.
Proof.
  revert f sm rc. induction bs as [|itB bs IH]; intros f sm rc Hst Hrun;
    cbn [over_banks] in Hrun.
  - inversion Hrun; subst. split; [exact Hst|]. split; [tauto|].
    split; [reflexivity|]. intros itB Hin. inversion Hin.
  - apply bind_Ok in Hrun. destruct Hrun as (ctrl & Ectrl & Hrun).
    set (ready := GetReadyCommand itC ctrl (wanted trans type itC itB) clk)
      in *.
    destruct (negb f && negb (eqb sm (bool_decide
                (cmd_type (wanted trans type itC itB) = cmd_type ready))))
      eqn:Esame; [discriminate|].
    apply bind_Ok in Hrun. destruct Hrun as (fail & Efail & Hrun).
    destruct fail.
    { apply bind_Ok in Hrun. destruct Hrun as (? & _ & Hrun). discriminate. }
    destruct (IsValid ready) eqn:Evalid; simpl in Efail; [|discriminate].
    assert (Hsm : (if f then bool_decide
                     (cmd_type (wanted trans type itC itB) = cmd_type ready)
                   else sm) = bool_decide (type = cmd_type ready)).
    { destruct f; [reflexivity|]. simpl in Esame.
      destruct (eqb sm (bool_decide (type = cmd_type ready))) eqn:E;
        [|discriminate].
      apply eqb_prop in E. exact E. }
    apply IH in Hrun.
    + destruct Hrun as (Hst' & Hkeep & _ & Hall).
      destruct (Hkeep eq_refl) as [-> Hsm'].
      split; [exact Hst'|]. split.
      { intros ->. split; [reflexivity|exact Hsm']. }
      split; [discriminate|].
      intros b Hin. apply elem_of_cons in Hin as [->|Hin]; [|auto].
      exists ctrl. fold ready. repeat split; try assumption.
      rewrite Hsm'. symmetry. exact Hsm.
    + simpl. split; [exact Evalid|]. symmetry. exact Hsm.
Qed.

Lemma over_chans_Return chs st c :
  over_chans GetReadyCommand cs occ clk trans type chs st = Ok (Return c) →
  c = invalid_command.
Proof.
  revert st. induction chs as [|itC chs IH]; intros st Hrun;
    cbn [over_chans] in Hrun; [discriminate|].
  apply bind_Ok in Hrun. destruct Hrun as ([c1|st1] & Eb & Hrun).
  - inversion Hrun; subst. eapply over_banks_Return. exact Eb.
  - eapply IH. exact Hrun.
Qed.

Lemma over_chans_Next rc0 chs f sm rc f' sm' rc' :
  ready_state type rc0 (f, sm, rc) →
  over_chans GetReadyCommand cs occ clk trans type chs (f, sm, rc)
  = Ok (Next (f', sm', rc')) →
  ready_state type rc0 (f', sm', rc')
  ∧ (f = false → f' = false ∧ sm' = sm)
  ∧ ∀ itC itB, itC ∈ chs → itB ∈ targetBanks trans →
      target_ready GetReadyCommand cs occ clk trans type sm' itC itB.
Proof.
  revert f sm rc. induction chs as [|itC chs IH]; intros f sm rc Hst Hrun;
    cbn [over_chans] in Hrun.
  - inversion Hrun; subst. split; [exact Hst|]. split; [tauto|].
    intros itC itB Hin. inversion Hin.
  - apply bind_Ok in Hrun. destruct Hrun as ([c1|[[f1 sm1] rc1]] & Eb & Hrun);
      [discriminate|].
    apply (over_banks_Next itC rc0) in Eb; [|exact Hst].
    destruct Eb as (Hst1 & Hkeep1 & Hnone & Hall1).
    apply IH in Hrun; [|exact Hst1].
    destruct Hrun as (Hst' & Hkeep & Hall).
    split; [exact Hst'|]. split.
    { intros ->. destruct (Hkeep1 eq_refl) as [-> ->]. exact (Hkeep eq_refl). }
    intros c b Hc Hb. apply elem_of_cons in Hc as [->|Hc]; [|auto].
    destruct f1.
    + rewrite (Hnone eq_refl) in Hb. inversion Hb.
    + destruct (Hkeep eq_refl) as [_ ->]. auto.
Qed.

Lemma over_chans_no_banks chs st :
  targetBanks trans = [] →
  over_chans GetReadyCommand cs occ clk trans type chs st = Ok (Next st).
Proof.
  intros Hb. revert st. induction chs as [|itC chs IH]; intros st;
    cbn [over_chans]; [reflexivity|].
  rewrite Hb. cbn [over_banks bind]. apply IH.
Qed.

(** X7. With no target channel or no target bank, [GetReadyCommandPIM]
    asks no controller and returns the invalid command. *)
Theorem GetReadyCommandPIM_no_target :
  targetChans trans = [] ∨ targetBanks trans = [] →
  GetReadyCommandPIM GetReadyCommand cs occ clk trans type
  = Ok invalid_command.
Proof.
  unfold GetReadyCommandPIM. intros [Hc|Hb].
  - rewrite Hc. reflexivity.
  - rewrite over_chans_no_banks by exact Hb. reflexivity.
Qed.

(** X8. [GetReadyCommandPIM] is all or nothing: when it returns a valid
    command, there is at least one target, and at every target channel and
    bank the controller exists, has a valid command ready, the bank is not
    occupied, and the ready command is of the requested kind exactly if
    the returned one is. *)
Theorem GetReadyCommandPIM_all_targets_ready r :
  GetReadyCommandPIM GetReadyCommand cs occ clk trans type = Ok r →
  IsValid r = true →
  targetChans trans ≠ [] ∧ targetBanks trans ≠ []
  ∧ ∀ itC itB, itC ∈ targetChans trans → itB ∈ targetBanks trans →
      target_ready GetReadyCommand cs occ clk trans type
        (bool_decide (type = cmd_type r)) itC itB.
Proof.
  intros Hrun Hvalid.
  assert (Hne : targetChans trans ≠ [] ∧ targetBanks trans ≠ []).
  { unfold GetReadyCommandPIM in Hrun. split; intros He.
    - rewrite He in Hrun. inversion Hrun; subst. discriminate Hvalid.
    - rewrite over_chans_no_banks in Hrun by exact He.
      inversion Hrun; subst. discriminate Hvalid. }
  destruct Hne as [Hc Hb]. split; [exact Hc|]. split; [exact Hb|].
  unfold GetReadyCommandPIM in Hrun.
  apply bind_Ok in Hrun. destruct Hrun as ([c|[[f sm] rc]] & Eloop & Hrun).
  - apply over_chans_Return in Eloop. inversion Hrun; subst.
    discriminate Hvalid.
  - inversion Hrun; subst.
    apply (over_chans_Next invalid_command) in Eloop; [|reflexivity].
    destruct Eloop as (Hst & _ & Hall). simpl in Hst.
    destruct f.
    + subst. discriminate Hvalid.
    + destruct Hst as [_ <-]. exact Hall.
Qed.

End ReadyPIMFacts.

Lemma GetReadyCommandPIM_no_target_witness :
  GetReadyCommandPIM ready_as_asked (replicate 2 fresh_controller)
    free_banks 0 (new_transaction 64 false) PIM_READ = Ok invalid_command.
Proof.
  apply (GetReadyCommandPIM_no_target ready_as_asked
           (replicate 2 fresh_controller) free_banks 0
           (new_transaction 64 false) PIM_READ).
  left. reflexivity.
Defined.

Lemma GetReadyCommandPIM_all_targets_ready_witness :
  ∃ r, GetReadyCommandPIM ready_as_asked (replicate 2 fresh_controller)
         free_banks 0 pim_request PIM_READ = Ok r
     ∧ target_ready ready_as_asked (replicate 2 fresh_controller) free_banks
         0 pim_request PIM_READ (bool_decide (PIM_READ = cmd_type r)) 1 2.
Proof.
  destruct (GetReadyCommandPIM ready_as_asked (replicate 2 fresh_controller)
              free_banks 0 pim_request PIM_READ) as [r| |] eqn:E;
    try (vm_compute in E; discriminate E).
  exists r. split; [reflexivity|].
  assert (Hv : IsValid r = true)
    by (vm_compute in E; inversion E; reflexivity).
  destruct (GetReadyCommandPIM_all_targets_ready ready_as_asked
              (replicate 2 fresh_controller) free_banks 0 pim_request
              PIM_READ r E Hv) as (_ & _ & Hall).
  apply Hall; simpl; repeat constructor.
Defined.

Section ReadyPIMComplete.

Variable GetReadyCommand : Z → Controller → Command → Z → Command.
Variables (cs : list Controller) (occ : list (list bool)) (clk : Z).
Variables (trans : Transaction) (type : CommandType).

Lemma over_banks_ready itC same bs : ∀ f sm rc,
  bs ≠ [] →
  (f = false → sm = same) →
  (∀ itB, itB ∈ bs →
     target_ready GetReadyCommand cs occ clk trans type same itC itB) →
  ∃ rc',
    over_banks GetReadyCommand cs occ clk trans type itC bs (f, sm, rc)
    = Ok (Next (false, same, rc'))
    ∧ IsValid rc' = true.
Proof.
  induction bs as [|itB bs IH]; intros f sm rc Hne Hsm Hall; [contradiction|].
  destruct (Hall itB ltac:(constructor)) as (ctrl & Ectrl & Eocc & Ev & Es).
  cbn [over_banks]. rewrite Ectrl. cbn [bind].
  change (cmd_type (wanted trans type itC itB)) with type.
  rewrite Es, Ev. cbn [negb]. rewrite Eocc. cbn [bind].
  assert (Hflag : negb f && negb (eqb sm same) = false).
  { destruct f; [reflexivity|]. rewrite (Hsm eq_refl).
    rewrite eqb_reflx. reflexivity. }
  rewrite Hflag.
  assert (Hsm' : (if f then same else sm) = same)
    by (destruct f; [reflexivity | auto]).
  rewrite Hsm'.
  destruct bs as [|b bs].
  - eexists. split; [reflexivity | exact Ev].
  - apply IH; [discriminate | reflexivity|].
    intros x Hx. apply Hall. constructor. exact Hx.
Qed.

Lemma over_chans_ready same chs : ∀ f sm rc,
  chs ≠ [] → targetBanks trans ≠ [] →
  (f = false → sm = same) →
  (∀ itC itB, itC ∈ chs → itB ∈ targetBanks trans →
     target_ready GetReadyCommand cs occ clk trans type same itC itB) →
  ∃ rc',
    over_chans GetReadyCommand cs occ clk trans type chs (f, sm, rc)
    = Ok (Next (false, same, rc'))
    ∧ IsValid rc' = true.
Proof.
  induction chs as [|itC chs IH]; intros f sm rc Hne Hb Hsm Hall;
    [contradiction|].
  cbn [over_chans].
  destruct (over_banks_ready itC same (targetBanks trans) f sm rc Hb Hsm)
    as (rc1 & Hrun & Hv).
  { intros b Hin. apply Hall; [constructor | exact Hin]. }
  rewrite Hrun. cbn [bind].
  destruct chs as [|c chs].
  - exists rc1. split; [reflexivity | exact Hv].
  - apply IH; [discriminate | exact Hb | reflexivity|].
    intros x b Hx Hin. apply Hall; [|exact Hin]. constructor. exact Hx.
Qed.

(** X9. When every target channel and bank is ready, free and agrees on
    whether the ready command is of the requested kind, and there is at
    least one target, [GetReadyCommandPIM] returns a valid command. *)
Theorem GetReadyCommandPIM_ready same :
  targetChans trans ≠ [] → targetBanks trans ≠ [] →
  (∀ itC itB, itC ∈ targetChans trans → itB ∈ targetBanks trans →
     target_ready GetReadyCommand cs occ clk trans type same itC itB) →
  ∃ r, GetReadyCommandPIM GetReadyCommand cs occ clk trans type = Ok r
    ∧ IsValid r = true.
Proof.
  intros Hc Hb Hall. unfold GetReadyCommandPIM.
  destruct (over_chans_ready same (targetChans trans) true false
              invalid_command Hc Hb) as (rc' & Hrun & Hv).
  { discriminate. }
  { exact Hall. }
  rewrite Hrun. cbn [bind]. exists rc'. split; [reflexivity | exact Hv].
Qed.

End ReadyPIMComplete.

Lemma GetReadyCommandPIM_ready_witness :
  ∃ r, GetReadyCommandPIM ready_as_asked (replicate 2 fresh_controller)
         free_banks 0 pim_request PIM_READ = Ok r
     ∧ IsValid r = true.
Proof.
  apply (GetReadyCommandPIM_ready ready_as_asked
           (replicate 2 fresh_controller) free_banks 0 pim_request PIM_READ
           true); try discriminate.
  intros itC itB HC HB. simpl in HC, HB.
  assert (Hc : itC = 0 ∨ itC = 1).
  { apply elem_of_cons in HC as [->|HC]; [auto|].
    apply elem_of_cons in HC as [->|HC]; [auto|inversion HC]. }
  assert (Hb : itB = 0 ∨ itB = 2).
  { apply elem_of_cons in HB as [->|HB]; [auto|].
    apply elem_of_cons in HB as [->|HB]; [auto|inversion HB]. }
  destruct Hc as [-> | ->], Hb as [-> | ->];
    exists fresh_controller; repeat split.
Defined.

(** ** The ideal memory *)

Lemma by_pairs {A} (P : list A → Prop) :
  P [] → (∀ x, P [x]) → (∀ x y l, P l → P (y :: l) → P (x :: y :: l)) →
  ∀ l, P l.
Proof.
  intros H0 H1 H2 l.
  assert (H : P l ∧ ∀ x, P (x :: l)); [|tauto].
  induction l as [|y l [IH1 IH2]]; [auto|].
  split; [apply IH2|]. intros x. apply H2; [exact IH1 | apply IH2].
Qed.

Lemma scan_cons s t rest :
  Ideal.scan s (t :: rest)
  = if Ideal.due s t then
      match rest with
      | [] => ([], [Ideal.callback t])
      | t' :: rest' =>
          (t' :: (Ideal.scan s rest').1,
           Ideal.callback t :: (Ideal.scan s rest').2)
      end
    else (t :: (Ideal.scan s rest).1, (Ideal.scan s rest).2).
Proof.
  cbn [Ideal.scan]. destruct (Ideal.due s t).
  - destruct rest as [|t' rest']; [reflexivity|].
    destruct (Ideal.scan s rest'); reflexivity.
  - destruct (Ideal.scan s rest); reflexivity.
Qed.

Lemma scan_conserves s q :
  ∃ done, (Ideal.scan s q).2 = Ideal.callback <$> done
    ∧ q ≡ₚ done ++ (Ideal.scan s q).1
    ∧ sublist (Ideal.scan s q).1 q ∧ sublist done q
    ∧ Forall (λ t, Ideal.due s t = true) done.
Proof.
  induction q as [| |t t' q (d1 & E1 & P1 & S1 & D1 & F1)
                        (d2 & E2 & P2 & S2 & D2 & F2)] using by_pairs.
  - exists []. simpl. repeat split; constructor.
  - intros. rewrite scan_cons. destruct (Ideal.due s x) eqn:Ed.
    + exists [x]. simpl. repeat split; try reflexivity.
      * apply sublist_cons. constructor.
      * repeat constructor. exact Ed.
    + exists []. simpl. repeat split; try reflexivity; repeat constructor.
  - rewrite scan_cons. destruct (Ideal.due s t) eqn:Ed.
    + exists (t :: d1). cbn [fst snd fmap list_fmap]. rewrite E1.
      split; [reflexivity|]. split.
      { rewrite P1 at 1. simpl. constructor.
        rewrite <- Permutation_middle. reflexivity. }
      split; [apply sublist_cons, sublist_skip, S1|].
      split; [apply sublist_skip, sublist_cons, D1|].
      constructor; assumption.
    + exists d2. cbn [fst snd]. split; [exact E2|]. split.
      { rewrite <- Permutation_middle. constructor. exact P2. }
      split; [apply sublist_skip, S2|].
      split; [apply sublist_cons, D2 | exact F2].
Qed.

Lemma ClockTick_scan s :
  Ideal.ClockTick s
  = (Ideal.mkSystem (Ideal.scan s (Ideal.infinite_buffer_q_ s)).1
       (Ideal.latency_ s) (u64 (Ideal.clk_ s + 1)),
     (Ideal.scan s (Ideal.infinite_buffer_q_ s)).2).
Proof.
  unfold Ideal.ClockTick.
  destruct (Ideal.scan s (Ideal.infinite_buffer_q_ s)); reflexivity.
Qed.

(** X10. A tick of the ideal memory loses and invents nothing: the
    transactions it calls back, in the order of the calls, and the ones it
    leaves in the queue, in their old order, are together the old queue.
    The latency is unchanged and the clock advances by one. *)
Theorem ideal_tick_conserves s :
  ∃ done,
    (Ideal.ClockTick s).2 = Ideal.callback <$> done
    ∧ Ideal.infinite_buffer_q_ s
      ≡ₚ done ++ Ideal.infinite_buffer_q_ (Ideal.ClockTick s).1
    ∧ sublist (Ideal.infinite_buffer_q_ (Ideal.ClockTick s).1)
        (Ideal.infinite_buffer_q_ s)
    ∧ sublist done (Ideal.infinite_buffer_q_ s)
    ∧ Ideal.latency_ (Ideal.ClockTick s).1 = Ideal.latency_ s
    ∧ Ideal.clk_ (Ideal.ClockTick s).1 = u64 (Ideal.clk_ s + 1).
Proof.
  rewrite ClockTick_scan. cbn [fst snd Ideal.infinite_buffer_q_
    Ideal.latency_ Ideal.clk_].
  destruct (scan_conserves s (Ideal.infinite_buffer_q_ s))
    as (done & E & P & S1 & S2 & _).
  exists done. repeat split; assumption.
Qed.

Lemma scan_keeps_waiting s q t :
  t ∈ q → Ideal.due s t = false → t ∈ (Ideal.scan s q).1.
Proof.
  intros Hin Hdue.
  destruct (scan_conserves s q) as (done & _ & P & _ & _ & F).
  rewrite P in Hin. apply elem_of_app in Hin as [Hin|Hin]; [|exact Hin].
  rewrite list.Forall_forall in F. apply F in Hin. congruence.
Qed.

(** X11. The ideal memory calls back only transactions that have waited
    for the latency, and a transaction that has not stays in the queue. *)
Theorem ideal_tick_respects_latency s :
  (∀ cb, cb ∈ (Ideal.ClockTick s).2 →
     ∃ t, t ∈ Ideal.infinite_buffer_q_ s ∧ Ideal.due s t = true
          ∧ cb = Ideal.callback t)
  ∧ (∀ t, t ∈ Ideal.infinite_buffer_q_ s → Ideal.due s t = false →
       t ∈ Ideal.infinite_buffer_q_ (Ideal.ClockTick s).1).
Proof.
  rewrite ClockTick_scan. cbn [fst snd Ideal.infinite_buffer_q_]. split.
  - intros cb Hcb.
    destruct (scan_conserves s (Ideal.infinite_buffer_q_ s))
      as (done & E & P & _ & _ & F).
    rewrite E in Hcb. apply list_elem_of_fmap in Hcb as (t & -> & Hin).
    exists t. rewrite list.Forall_forall in F.
    split; [rewrite P; apply elem_of_app; left; exact Hin|].
    split; [apply F, Hin | reflexivity].
  - intros t. apply scan_keeps_waiting.
Qed.

Lemma scan_lengths s q :
  (2 * length (Ideal.scan s q).2 <= length q + 1)%nat
  ∧ (Forall (λ t, Ideal.due s t = true) q →
     length (Ideal.scan s q).1 = (length q / 2)%nat).
Proof.
  induction q as [| |t t' q [L1 A1] [L2 A2]] using by_pairs.
  - simpl. split; [lia|reflexivity].
  - rewrite scan_cons. split.
    + destruct (Ideal.due s x); simpl; lia.
    + intros F. apply list.Forall_cons in F as [-> _]. reflexivity.
  - rewrite scan_cons. split.
    + destruct (Ideal.due s t); cbn [fst snd length] in *; lia.
    + intros F. apply list.Forall_cons in F as [-> F].
      apply list.Forall_cons in F as [_ F]. cbn [fst length].
      rewrite (A1 F).
      change (S (S (length q))) with (2 + length q)%nat.
      replace (2 + length q)%nat with (length q + 1 * 2)%nat by lia.
      rewrite Nat.div_add by lia. lia.
Qed.

(** X12. A tick of the ideal memory steps over the transaction that
    follows every one it calls back: it calls back at most every other
    transaction, and of a queue in which every transaction is due it
    leaves half. *)
Theorem ideal_tick_steps_over s :
  (2 * length (Ideal.ClockTick s).2
   <= length (Ideal.infinite_buffer_q_ s) + 1)%nat
  ∧ (Forall (λ t, Ideal.due s t = true) (Ideal.infinite_buffer_q_ s) →
     length (Ideal.infinite_buffer_q_ (Ideal.ClockTick s).1)
     = (length (Ideal.infinite_buffer_q_ s) / 2)%nat).
Proof.
  rewrite ClockTick_scan. cbn [fst snd Ideal.infinite_buffer_q_].
  apply scan_lengths.
Qed.

Lemma ideal_ticks_keep_waiting n : ∀ s t k,
  0 <= Ideal.latency_ s < 2 ^ 64 →
  0 <= added_cycle t → 0 <= k →
  Ideal.clk_ s = added_cycle t + k →
  k + Z.of_nat n <= Ideal.latency_ s →
  added_cycle t + Ideal.latency_ s < 2 ^ 64 →
  t ∈ Ideal.infinite_buffer_q_ s →
  t ∈ Ideal.infinite_buffer_q_ (ideal_ticks n s).
Proof.
  induction n as [|n IH]; intros s t k HL Ha Hk Hclk Hn Hmax Hin;
    [exact Hin|].
  cbn [ideal_ticks]. rewrite ClockTick_scan. cbn [fst].
  apply (IH _ t (k + 1)); cbn [Ideal.latency_ Ideal.clk_
    Ideal.infinite_buffer_q_]; try lia.
  - rewrite Hclk. unfold u64. rewrite Z.mod_small by lia. lia.
  - apply scan_keeps_waiting; [exact Hin|].
    unfold Ideal.due. rewrite Hclk.
    replace (added_cycle t + k - added_cycle t) with k by lia.
    unfold u64. rewrite !Z.mod_small by lia. lia.
Qed.

(** X13. The latency is a lower bound: a transaction given to the ideal
    memory is still in its queue after every number of ticks up to the
    latency, as long as the clock does not wrap around. *)
Theorem ideal_latency_lower_bound s hex w n :
  0 <= Ideal.clk_ s → 0 <= Ideal.latency_ s →
  Ideal.clk_ s + Ideal.latency_ s < 2 ^ 64 →
  Z.of_nat n <= Ideal.latency_ s →
  mkTransaction hex w (Ideal.clk_ s) [] [] 0 0
  ∈ Ideal.infinite_buffer_q_
      (ideal_ticks n (Ideal.AddTransaction s hex w).1).
Proof.
  intros Hc HL Hmax Hn.
  apply (ideal_ticks_keep_waiting n _ _ 0);
    cbn [Ideal.AddTransaction fst Ideal.latency_ Ideal.clk_ added_cycle
         Ideal.infinite_buffer_q_]; try lia.
  apply elem_of_app. right. unfold new_transaction. simpl. constructor.
Qed.

Lemma ideal_latency_lower_bound_witness :
  mkTransaction 256 false 10 [] [] 0 0
  ∈ Ideal.infinite_buffer_q_
      (ideal_ticks 3 (Ideal.AddTransaction ideal_busy 256 false).1).
Proof.
  apply (ideal_latency_lower_bound ideal_busy 256 false 3); simpl; lia.
Defined.

(** A concrete tick: of two due transactions in a row the second is
    stepped over. *)
Example ideal_busy_tick :
  (Ideal.ClockTick ideal_busy).2 = [read_callback_ 64]
  ∧ length (Ideal.infinite_buffer_q_ (Ideal.ClockTick ideal_busy).1) = 2%nat.
Proof. vm_compute. split; reflexivity. Qed.

(** ** The ideal memory drains *)

(** X14. The ideal memory serves every transaction in the end, although
    a tick steps over every other one: a queue of fewer than 2^n
    transactions that are all due is empty after n ticks, as long as the
    clock does not wrap around. *)
Theorem ideal_memory_drains n : ∀ s,
  0 <= Ideal.latency_ s < 2 ^ 64 →
  0 <= Ideal.clk_ s → Ideal.clk_ s + Z.of_nat n < 2 ^ 64 →
  (∀ t, t ∈ Ideal.infinite_buffer_q_ s →
     0 <= added_cycle t ∧ added_cycle t + Ideal.latency_ s <= Ideal.clk_ s) →
  (length (Ideal.infinite_buffer_q_ s) < 2 ^ n)%nat →
  Ideal.infinite_buffer_q_ (ideal_ticks n s) = [].
Proof.
  induction n as [|n IH]; intros s HL Hc Hmax Hq Hlen.
  - cbn [ideal_ticks]. simpl in Hlen.
    destruct (Ideal.infinite_buffer_q_ s); [reflexivity|].
    simpl in Hlen. lia.
  - cbn [ideal_ticks]. rewrite ClockTick_scan. cbn [fst].
    assert (Hdue : Forall (λ t, Ideal.due s t = true)
                     (Ideal.infinite_buffer_q_ s)).
    { apply list.Forall_forall. intros t Ht. destruct (Hq t Ht) as [Ha Hd].
      unfold Ideal.due, u64. rewrite !Z.mod_small by lia. lia. }
    destruct (scan_lengths s (Ideal.infinite_buffer_q_ s)) as [_ Hhalf].
    specialize (Hhalf Hdue).
    destruct (scan_conserves s (Ideal.infinite_buffer_q_ s))
      as (done & _ & _ & Hsub & _).
    assert (Hclk : u64 (Ideal.clk_ s + 1) = Ideal.clk_ s + 1)
      by (unfold u64; apply Z.mod_small; lia).
    apply IH; cbn [Ideal.latency_ Ideal.clk_ Ideal.infinite_buffer_q_].
    + exact HL.
    + rewrite Hclk. lia.
    + rewrite Hclk. lia.
    + intros t Ht. rewrite Hclk.
      assert (Hin : t ∈ Ideal.infinite_buffer_q_ s).
      { eapply elem_of_sublist; eassumption. }
      destruct (Hq t Hin). lia.
    + rewrite Hhalf. rewrite Nat.pow_succ_r' in Hlen.
      apply Nat.Div0.div_lt_upper_bound. lia.
Qed.

Lemma ideal_memory_drains_witness :
  Ideal.infinite_buffer_q_ (ideal_ticks 2 ideal_due) = [].
Proof.
  apply (ideal_memory_drains 2 ideal_due); try (simpl; lia).
  intros t Ht. simpl in Ht.
  apply elem_of_cons in Ht as [->|Ht]; [simpl; lia|].
  apply elem_of_cons in Ht as [->|Ht]; [simpl; lia|].
  apply elem_of_cons in Ht as [->|Ht]; [simpl; lia|inversion Ht].
Defined.

(** ** The control words round trip *)

Lemma testbit_bits w lo width n :
  0 <= lo → 0 <= width → 0 <= n →
  Z.testbit (bits w lo width) n = (n <? width) && Z.testbit w (lo + n).
Proof.
  intros Hlo Hw Hn. unfold bits.
  rewrite <- Z.shiftr_div_pow2, <- Z.land_ones by lia.
  rewrite Z.land_spec, Z.shiftr_spec, Z.testbit_ones_nonneg by lia.
  rewrite (Z.add_comm n lo). apply andb_comm.
Qed.

Lemma testbit_small x k n : 0 <= x < 2 ^ k → k <= n → Z.testbit x n = false.
Proof.
  intros Hx Hn. destruct (Z.eq_dec x 0) as [->|Hne]; [apply Z.bits_0|].
  apply Z.bits_above_log2; [lia|].
  assert (0 <= k) by (destruct (Z.ltb_spec k 0);
                      [rewrite Z.pow_neg_r in Hx; lia | lia]).
  assert (Z.log2 x < k) by (apply Z.log2_lt_pow2; lia). lia.
Qed.

Ltac drop_bits :=
  repeat match goal with
  | |- context [Z.testbit ?x ?e] =>
      first [ rewrite (Z.testbit_neg_r x e) by lia
            | match goal with
              | H : 0 <= x < 2 ^ ?k |- _ =>
                  rewrite (testbit_small x k e H) by lia
              end ]
  end.

(** [bits W lo width = x] for a word [W] that is an explicit [Z.lor] of
    shifted fields with known ranges. *)
Ltac solve_bits :=
  apply Z.bits_inj'; intros n Hn; rewrite testbit_bits by lia;
  rewrite ?Z.lor_spec, ?Z.shiftl_spec by lia;
  match goal with
  | |- (n <? ?width) && _ = _ =>
      destruct (Z.ltb_spec n width); cbn [andb]
  end;
  drop_bits; rewrite ?orb_false_r, ?orb_false_l;
  try reflexivity;
  match goal with
  | |- Z.testbit ?x ?e = Z.testbit ?x n => f_equal; lia
  | |- Z.testbit ?x ?e = _ => idtac
  end.

Section LoadWord.

Variables cut_no loadType dim_value base_row : Z.
Hypothesis Hcut : 0 <= cut_no < 2 ^ 4.
Hypothesis Htype : 0 <= loadType < 2 ^ 2.
Hypothesis Hdim : 0 <= dim_value < 2 ^ 32.
Hypothesis Hbase : 0 <= base_row < 2 ^ 22.

Local Notation "'W'" := (load_word cut_no loadType dim_value base_row).

Lemma load_word_cut_no : bits W 1 4 = cut_no.
Proof. unfold load_word. solve_bits. Qed.

Lemma load_word_loadType : bits W 5 2 = loadType.
Proof. unfold load_word. solve_bits. Qed.

Lemma load_word_dim_value : bits W 7 32 = dim_value.
Proof. unfold load_word. solve_bits. Qed.

Lemma load_word_base_row : bits W 39 22 = base_row.
Proof. unfold load_word. solve_bits. Qed.

Lemma load_word_bit0 : Z.testbit W 0 = false.
Proof.
  unfold load_word. rewrite ?Z.lor_spec, ?Z.shiftl_spec by lia.
  drop_bits. reflexivity.
Qed.

End LoadWord.

Lemma dim_value_bits w :
  wrap (field (Z.shiftr (Z.shiftr (Z.shiftr w 1) 4) bw_loadType) bw_dimValue)
  = wrap (bits w 7 32).
Proof.
  unfold bw_loadType, bw_dimValue. rewrite !Z.shiftr_shiftr by lia.
  rewrite field_bits by lia. reflexivity.
Qed.

Lemma base_row_bits w :
  field (Z.shiftr (Z.shiftr (Z.shiftr (Z.shiftr w 1) 4) bw_loadType)
           bw_dimValue) bw_baseRow
  = bits w 39 22.
Proof.
  unfold bw_loadType, bw_dimValue, bw_baseRow.
  rewrite !Z.shiftr_shiftr by lia. rewrite field_bits by lia. reflexivity.
Qed.

Lemma put_in_range {A} (fld : CutState → list A) set_fld i x c :
  0 <= i < Z.of_nat (length (fld c)) →
  put fld set_fld i x c = Ok (set_fld (<[Z.to_nat i := x]> (fld c)) c).
Proof. intros Hi. apply put_Ok. split; [exact Hi|reflexivity]. Qed.

Lemma load_word_is_load cut_no loadType dim_value base_row :
  0 <= cut_no < 2 ^ 4 → 0 <= loadType <= 2 →
  0 <= dim_value < 2 ^ 32 → 0 <= base_row < 2 ^ 22 →
  is_load (load_word cut_no loadType dim_value base_row) = true.
Proof.
  intros Hc Ht Hd Hb. unfold is_load.
  rewrite is_configure_bits, is_compute_bit.
  rewrite load_word_bit0 by lia.
  assert (Hbits : bits (load_word cut_no loadType dim_value base_row) 5 2
                  = loadType) by (apply load_word_loadType; lia).
  rewrite bits_two in Hbits by lia. change (5 + 1) with 6 in Hbits.
  destruct (Z.testbit _ 5), (Z.testbit _ 6); simpl in *; try reflexivity.
  exfalso. lia.
Qed.

(** X15. A Load word built field by field is decoded back to its fields:
    it is taken from the queue, the dimension and the base row land at the
    cut it names, in the pair of vectors its load type names, and every
    other entry of the cut state is as before. *)
Theorem load_word_round_trip (s : System) (n : nat)
    (cut_no loadType dim_value base_row : Z) (rest : list Z) :
  0 <= cut_no < 16 → 0 <= loadType <= 2 →
  0 <= dim_value < 2 ^ 31 → 0 <= base_row < 2 ^ 22 →
  load_sized n (cut s) → cut_no < Z.of_nat n →
  pim_trans_queue_ s = load_word cut_no loadType dim_value base_row :: rest →
  ∃ s', decode s = Ok s'
    ∧ pim_trans_queue_ s' = rest ∧ cfg s' = cfg s ∧ ctrls_ s' = ctrls_ s
    ∧ engine_state (cut s') = engine_state (cut s)
    ∧ loaded (cut s')
      = let i := Z.to_nat cut_no in
        let '(bw, bi, bo, m, k, nn) := loaded (cut s) in
        if loadType =? 0
        then (<[i := base_row]> bw, bi, bo, <[i := dim_value]> m, k, nn)
        else if loadType =? 1
        then (bw, bi, <[i := base_row]> bo, m, <[i := dim_value]> k, nn)
        else (bw, <[i := base_row]> bi, bo, m, k, <[i := dim_value]> nn).
Proof.
  intros Hc Ht Hd Hb (L1 & L2 & L3 & L4 & L5 & L6) Hn Hq.
  rewrite (decode_load s _ rest Hq)
    by (apply load_word_is_load; simpl; lia).
  unfold load. rewrite load_type_bits, cut_no_bits, dim_value_bits,
    base_row_bits.
  rewrite load_word_cut_no, load_word_loadType, load_word_dim_value,
    load_word_base_row by (simpl; lia).
  rewrite !wrap_small by (simpl; lia).
  assert (Hcases : loadType = 0 ∨ loadType = 1 ∨ loadType = 2) by lia.
  destruct Hcases as [-> | [-> | ->]]; cbn [Z.eqb Pos.eqb];
    rewrite put_in_range by lia; cbn [bind];
    rewrite put_in_range by (simpl; lia); cbn [bind];
    eexists; (split; [reflexivity|]); simpl; repeat split; reflexivity.
Qed.

Lemma load_word_round_trip_witness :
  ∃ s', decode load_request = Ok s'
    ∧ M (cut s') = [0; 16] ∧ base_rows_w (cut s') = [0; 3].
Proof.
  destruct (load_word_round_trip load_request 2 1 0 16 3
              [load_word 1 0 16 3])
    as (s' & Hd & _ & _ & _ & _ & Hl);
    try (simpl; lia); try reflexivity.
  - repeat split.
  - exists s'. split; [exact Hd|].
    simpl in Hl. unfold loaded in Hl. inversion Hl. split; reflexivity.
Defined.

(** ** Compute-Enable over every cut *)

Lemma cut_ready_selected c a i m n k :
  0 <= i < 31 → Z.testbit a i = true →
  M c !! Z.to_nat i = Some m → N c !! Z.to_nat i = Some n →
  K c !! Z.to_nat i = Some k → m ≠ 0 → n ≠ 0 → k ≠ 0 →
  cut_ready c a i = Ok true.
Proof.
  intros Hi Hbit Hm Hn Hk Hm0 Hn0 Hk0. unfold cut_ready.
  rewrite mask_bit_testbit by lia. rewrite Hbit. cbn [bind].
  rewrite (proj2 (vget_Ok (M c) i m)) by (split; [lia|exact Hm]). cbn [bind].
  destruct (Z.eqb_spec m 0); [contradiction|].
  rewrite (proj2 (vget_Ok (N c) i n)) by (split; [lia|exact Hn]). cbn [bind].
  destruct (Z.eqb_spec n 0); [contradiction|].
  rewrite (proj2 (vget_Ok (K c) i k)) by (split; [lia|exact Hk]). cbn [bind].
  destruct (Z.eqb_spec k 0); [contradiction|]. reflexivity.
Qed.

Lemma all_configured_all c a idx b :
  (∀ i, i ∈ idx → cut_ready c a i = Ok true) →
  all_configured c a idx b = Ok b.
Proof.
  revert b. induction idx as [|i idx IH]; intros b Hall; [reflexivity|].
  cbn [all_configured]. rewrite (Hall i) by constructor. cbn [bind].
  apply IH. intros j Hj. apply Hall. constructor. exact Hj.
Qed.

Lemma enable_cuts_all a idx : ∀ v,
  (∀ i, i ∈ idx →
     0 <= i < 31 ∧ i < Z.of_nat (length v) ∧ Z.testbit a i = true) →
  ∃ v', enable_cuts a idx v = Ok v'
    ∧ length v' = length v
    ∧ ∀ j, (Z.of_nat j ∈ idx ∨ v !! j = Some true) → (j < length v)%nat →
        v' !! j = Some true.
Proof.
  induction idx as [|i idx IH]; intros v Hall.
  - exists v. split; [reflexivity|]. split; [reflexivity|].
    intros j [Hj|Hj] _; [inversion Hj | exact Hj].
  - destruct (Hall i ltac:(constructor)) as (Hi & Hlen & Hbit).
    cbn [enable_cuts]. rewrite mask_bit_testbit by lia. rewrite Hbit.
    cbn [bind].
    rewrite (proj2 (vset_Ok v _ i true)) by (split; [lia|reflexivity]).
    cbn [bind].
    destruct (IH (<[Z.to_nat i := true]> v)) as (v' & Hrun & Hl & Hset).
    { intros j Hj. rewrite length_insert. apply Hall. constructor. exact Hj. }
    exists v'. split; [exact Hrun|]. rewrite length_insert in Hl.
    split; [exact Hl|]. intros j Hj Hjl. apply Hset.
    2: rewrite length_insert; exact Hjl.
    destruct Hj as [Hj|Hj].
    + apply elem_of_cons in Hj as [Hj|Hj]; [|left; exact Hj].
      right. subst i. rewrite Nat2Z.id.
      apply list_lookup_insert_eq. exact Hjl.
    + destruct (decide (j = Z.to_nat i)) as [->|Hne].
      * right. apply list_lookup_insert_eq. exact Hjl.
      * right. rewrite list_lookup_insert_ne by congruence. exact Hj.
Qed.

(** X16. A Compute-Enable word that selects every cut of the
    configuration, all of them loaded with nonzero [M], [N] and [K], is
    consumed, and it enables every cut. *)
Theorem compute_enable_all_cuts (s : System) (w : Z) (rest : list Z)
    (n : nat) :
  pim_trans_queue_ s = w :: rest →
  is_compute w = true →
  vcuts (cfg s) *! hcuts (cfg s) = Z.of_nat n → (n <= 31)%nat →
  length (in_pim (cut s)) = n →
  (∀ i, (i < n)%nat →
     Z.testbit w (Z.of_nat i + 1) = true
     ∧ ∃ m nn k, M (cut s) !! i = Some m ∧ N (cut s) !! i = Some nn
         ∧ K (cut s) !! i = Some k ∧ m ≠ 0 ∧ nn ≠ 0 ∧ k ≠ 0) →
  decode s
  = Ok (with_queue rest
          (with_cut (set_in_pim (replicate n true) (cut s)) s)).
Proof.
  intros Hq Hw Hcuts Hn Hlen Hall.
  rewrite (decode_compute s w rest Hq Hw). unfold compute_enable.
  rewrite Hcuts.
  assert (Hbit : ∀ i, i ∈ range (Z.of_nat n) →
            0 <= i < 31 ∧ (Z.to_nat i < n)%nat
            ∧ Z.testbit (Z.shiftr w 1) i = true).
  { intros i Hi. apply elem_of_range in Hi.
    split; [lia|]. split; [lia|].
    rewrite Z.shiftr_spec by lia.
    destruct (Hall (Z.to_nat i) ltac:(lia)) as [Hb _].
    rewrite Z2Nat.id in Hb by lia. exact Hb. }
  rewrite all_configured_all.
  2:{ intros i Hi. destruct (Hbit i Hi) as (Hi31 & Hin & Hb).
      destruct (Hall (Z.to_nat i) Hin)
        as (_ & m & nn & k & Hm & HN & Hk & Hm0 & Hn0 & Hk0).
      eapply cut_ready_selected; eassumption. }
  cbn [bind].
  destruct (enable_cuts_all (Z.shiftr w 1) (range (Z.of_nat n))
              (in_pim (cut s))) as (v' & Hrun & Hl & Hset).
  { intros i Hi. destruct (Hbit i Hi) as (Hi31 & Hin & Hb).
    split; [exact Hi31|]. split; [lia | exact Hb]. }
  rewrite Hrun. cbn [bind].
  replace v' with (replicate n true); [reflexivity|]. symmetry.
  apply list_eq. intros j. destruct (decide (j < n)%nat) as [Hj|Hj].
  - rewrite lookup_replicate_2 by exact Hj. apply Hset; [|lia].
    left. apply elem_of_range. lia.
  - rewrite !lookup_ge_None_2; [reflexivity | rewrite length_replicate; lia
                               | lia].
Qed.

Lemma compute_enable_all_cuts_witness :
  decode (with_queue [enable_word 3] ready_request)
  = Ok (with_queue []
          (with_cut (set_in_pim (replicate 2 true)
                       (cut (with_queue [enable_word 3] ready_request)))
             (with_queue [enable_word 3] ready_request))).
Proof.
  apply (compute_enable_all_cuts (with_queue [enable_word 3] ready_request)
           (enable_word 3) [] 2); try reflexivity; try lia.
  intros [|[|i]] Hi; try lia.
  - split; [reflexivity|]. exists 4, 4, 4. repeat split; discriminate.
  - split; [reflexivity|]. exists 4, 4, 4. repeat split; discriminate.
Defined.

(** ** Compute-Enable only enables *)

Lemma enable_cuts_raises a idx : ∀ v v',
  enable_cuts a idx v = Ok v' →
  length v' = length v
  ∧ ∀ j,
      (v !! j = Some true → v' !! j = Some true)
      ∧ (v' !! j = Some true →
         v !! j = Some true
         ∨ (Z.of_nat j ∈ idx ∧ mask_bit a (Z.of_nat j) = Ok true)).
Proof.
  induction idx as [|i idx IH]; intros v v' Hrun; cbn [enable_cuts] in Hrun.
  - inversion Hrun; subst. split; [reflexivity|]. intros j. split; auto.
  - apply bind_Ok in Hrun. destruct Hrun as (sel & Esel & Hrun).
    apply bind_Ok in Hrun. destruct Hrun as (v1 & E1 & Hrun).
    apply IH in Hrun as [Hlen Hall]. destruct sel.
    + apply vset_Ok in E1 as [Hi ->]. rewrite length_insert in Hlen.
      split; [exact Hlen|]. intros j. destruct (Hall j) as [Hup Hdown].
      split.
      * intros Hj. apply Hup.
        destruct (decide (j = Z.to_nat i)) as [->|Hne].
        -- apply list_lookup_insert_eq. lia.
        -- rewrite list_lookup_insert_ne by congruence. exact Hj.
      * intros Hj. apply Hdown in Hj as [Hj|[Hin Hbit]].
        -- destruct (decide (j = Z.to_nat i)) as [->|Hne].
           ++ right. rewrite Z2Nat.id by lia. split; [constructor|exact Esel].
           ++ left. rewrite list_lookup_insert_ne in Hj by congruence.
              exact Hj.
        -- right. split; [constructor; exact Hin | exact Hbit].
    + inversion E1; subst. split; [exact Hlen|]. intros j.
      destruct (Hall j) as [Hup Hdown]. split; [exact Hup|].
      intros Hj. apply Hdown in Hj as [Hj|[Hin Hbit]]; [left; exact Hj|].
      right. split; [constructor; exact Hin | exact Hbit].
Qed.

Lemma set_in_pim_same c : set_in_pim (in_pim c) c = c.
Proof. destruct c; reflexivity. Qed.

(** X17. A Compute-Enable word only enables: whether it is consumed or
    not, the decoder leaves the configuration, the controllers and every
    per-cut vector but [in_pim] as they are; no cut that was enabled is
    disabled, and a cut that becomes enabled is one that the mask
    selects. *)
Theorem compute_enable_only_raises (s s' : System) (w : Z) (rest : list Z) :
  pim_trans_queue_ s = w :: rest →
  is_compute w = true →
  decode s = Ok s' →
  cfg s' = cfg s ∧ ctrls_ s' = ctrls_ s
  ∧ cut s' = set_in_pim (in_pim (cut s')) (cut s)
  ∧ length (in_pim (cut s')) = length (in_pim (cut s))
  ∧ ∀ j,
      (in_pim (cut s) !! j = Some true → in_pim (cut s') !! j = Some true)
      ∧ (in_pim (cut s') !! j = Some true →
         in_pim (cut s) !! j = Some true
         ∨ mask_bit (Z.shiftr w 1) (Z.of_nat j) = Ok true).
Proof.
  intros Hq Hw Hd. rewrite (decode_compute s w rest Hq Hw) in Hd.
  unfold compute_enable in Hd.
  apply bind_Ok in Hd. destruct Hd as (ready & _ & Hd).
  destruct ready.
  - apply bind_Ok in Hd. destruct Hd as (v & Hv & Hd).
    inversion Hd; subst; clear Hd.
    apply enable_cuts_raises in Hv as [Hlen Hall].
    cbn [cfg ctrls_ cut with_queue with_cut].
    split; [reflexivity|]. split; [reflexivity|]. split; [reflexivity|].
    split; [exact Hlen|]. intros j. destruct (Hall j) as [Hup Hdown].
    split; [exact Hup|]. intros Hj. apply Hdown in Hj. tauto.
  - inversion Hd; subst; clear Hd.
    split; [reflexivity|]. split; [reflexivity|].
    split; [symmetry; apply set_in_pim_same|].
    split; [reflexivity|]. intros j. split; auto.
Qed.

Lemma compute_enable_only_raises_witness :
  ∃ s', decode (with_queue [enable_word 3] ready_request) = Ok s'
     ∧ length (in_pim (cut s')) = 2%nat.
Proof.
  destruct (decode (with_queue [enable_word 3] ready_request))
    as [s'| |] eqn:Hd; try (vm_compute in Hd; discriminate Hd).
  exists s'. split; [reflexivity|].
  destruct (compute_enable_only_raises
              (with_queue [enable_word 3] ready_request) s' (enable_word 3)
              [] eq_refl eq_refl Hd) as (_ & _ & _ & Hl & _).
  exact Hl.
Defined.

(** ** What a tick leaves alone *)

Lemma decode_frame s s' :
  decode s = Ok s' →
  (pim_trans_queue_ s' = pim_trans_queue_ s
   ∨ ∃ w, pim_trans_queue_ s = w :: pim_trans_queue_ s')
  ∧ pim_trans_queue_depth_ s' = pim_trans_queue_depth_ s
  ∧ clk_ s' = clk_ s ∧ last_req_clk_ s' = last_req_clk_ s
  ∧ turn_off s' = turn_off s
  ∧ (cfg s' = cfg s
     ∨ ∃ w rest, pim_trans_queue_ s = w :: rest ∧ is_configure w = true).
Proof.
  unfold decode. destruct (pim_trans_queue_ s) as [|w rest] eqn:Hq.
  { intros [= <-]. rewrite Hq. tauto. }
  destruct (is_compute w) eqn:Ec.
  - unfold compute_enable. intros Hrun. invert_run; simpl; rewrite ?Hq; eauto 10.
  - destruct (cutting w) eqn:Ecut.
    + unfold configure. intros Hrun. invert_run. simpl.
      repeat split; eauto. right. exists w, rest. split; [reflexivity|].
      unfold is_configure. rewrite Ec, Ecut. reflexivity.
    + unfold load. intros Hrun.
      apply bind_Ok in Hrun. destruct Hrun as (c & _ & Hrun).
      inversion Hrun; subst. simpl. eauto 10.
Qed.

Section TickFrame.

Variable config_ : Config.
Variable GetReadyCommand : Z → Controller → Command → Z → Command.
Variable AddressUnmapping : Address → Z.

Local Notation "'tick'" :=
  (pim_tick config_ GetReadyCommand AddressUnmapping).

Lemma cut_step_frame wr ir cuts i s s' b :
  cut_step config_ GetReadyCommand AddressUnmapping wr ir cuts i s
  = Ok (s', b) →
  outside_engine s' = outside_engine s.
Proof.
  unfold cut_step. intros Hrun. invert_run; reflexivity.
Qed.

Lemma cut_loop_frame wr ir cuts idx : ∀ s log s' log',
  cut_loop config_ GetReadyCommand AddressUnmapping wr ir cuts idx s log
  = Ok (s', log') →
  outside_engine s' = outside_engine s
  ∧ length log' = (length log + length idx)%nat.
Proof.
  induction idx as [|i idx IH]; intros s log s' log' Hrun;
    cbn [cut_loop] in Hrun.
  - inversion Hrun; subst. split; [reflexivity|simpl; lia].
  - apply bind_Ok in Hrun. destruct Hrun as ([s1 b] & Estep & Hrun).
    apply cut_step_frame in Estep. apply IH in Hrun as [Hf Hl].
    split; [congruence|]. rewrite Hl, length_app. simpl. lia.
Qed.

Lemma tick_queue s s' log :
  tick s = Ok (s', log) →
  (pim_trans_queue_ s' = pim_trans_queue_ s
   ∨ ∃ w, pim_trans_queue_ s = w :: pim_trans_queue_ s')
  ∧ pim_trans_queue_depth_ s' = pim_trans_queue_depth_ s.
Proof.
  unfold pim_tick. intros Hrun.
  apply bind_Ok in Hrun. destruct Hrun as ([c wr] & _ & Hrun).
  apply bind_Ok in Hrun. destruct Hrun as (s1 & Hdec & Hrun).
  apply decode_frame in Hdec. simpl in Hdec.
  destruct Hdec as (Hq & Hd & _).
  apply cut_loop_frame in Hrun as [Hf _].
  unfold outside_engine in Hf. injection Hf as _ Hf2 Hf3 _ _.
  rewrite Hf2, Hf3. split; assumption.
Qed.

(** X18. A tick takes at most one control word from the PIM queue, and
    only from its head; the configuration changes only when that word is a
    Configure; the queue depth, the clock and [last_req_clk_] are
    untouched; and the tick reports one batch record for every cut. *)
Theorem tick_consumes_at_most_one s s' log :
  tick s = Ok (s', log) →
  (pim_trans_queue_ s' = pim_trans_queue_ s
   ∨ ∃ w, pim_trans_queue_ s = w :: pim_trans_queue_ s')
  ∧ (cfg s' = cfg s
     ∨ ∃ w rest, pim_trans_queue_ s = w :: rest ∧ is_configure w = true)
  ∧ pim_trans_queue_depth_ s' = pim_trans_queue_depth_ s
  ∧ clk_ s' = clk_ s ∧ last_req_clk_ s' = last_req_clk_ s
  ∧ length log
    = Z.to_nat (if has_config (cfg s') then ncuts (cfg s') else 0).
Proof.
  unfold pim_tick. intros Hrun.
  apply bind_Ok in Hrun. destruct Hrun as ([c wr] & _ & Hrun).
  apply bind_Ok in Hrun. destruct Hrun as (s1 & Hdec & Hrun).
  apply decode_frame in Hdec. simpl in Hdec.
  destruct Hdec as (Hq & Hd & Hc & Hl & _ & Hg).
  apply cut_loop_frame in Hrun as [Hf Hlen].
  unfold outside_engine in Hf. injection Hf as Hf1 Hf2 Hf3 Hf4 Hf5.
  rewrite Hf1, Hf2, Hf3, Hf4, Hf5.
  repeat (split; [assumption|]).
  rewrite Hlen. simpl. unfold range. rewrite length_fmap, length_seq.
  unfold ncuts. reflexivity.
Qed.

End TickFrame.

Lemma tick_consumes_at_most_one_witness :
  ∃ s' log,
    pim_tick ddr_config ready_as_asked flat_address one_cut_loaded
    = Ok (s', log)
    ∧ pim_trans_queue_ one_cut_loaded = enable_word 1 :: pim_trans_queue_ s'
    ∧ length log = 1%nat.
Proof.
  destruct (pim_tick ddr_config ready_as_asked flat_address one_cut_loaded)
    as [[s' log]| |] eqn:Ht; try (vm_compute in Ht; discriminate Ht).
  exists s', log. split; [reflexivity|].
  destruct (tick_consumes_at_most_one ddr_config ready_as_asked flat_address
              one_cut_loaded s' log Ht) as (_ & _ & _ & _ & _ & Hlen).
  vm_compute in Ht. inversion Ht; subst. split; reflexivity.
Defined.

(** ** An idle system *)


Section Idle.

Variable config_ : Config.
Variable GetReadyCommand : Z → Controller → Command → Z → Command.
Variable AddressUnmapping : Address → Z.




End Idle.


(** ** Where the batches go *)

Lemma sent_to_cons_eq j cmd l :
  Channel cmd = Z.of_nat j → sent_to j (cmd :: l) = cmd :: sent_to j l.
Proof. intros H. unfold sent_to. rewrite filter_cons_True by exact H. reflexivity. Qed.

Lemma sent_to_cons_ne j cmd l :
  Channel cmd ≠ Z.of_nat j → sent_to j (cmd :: l) = sent_to j l.
Proof. intros H. unfold sent_to. rewrite filter_cons_False by exact H. reflexivity. Qed.

Lemma emit_spec push batch : ∀ cs cs',
  emit push batch cs = Ok cs' →
  length cs' = length cs
  ∧ ∀ j c, cs !! j = Some c →
      cs' !! j = Some (foldl (λ c cmd, push cmd c) c (sent_to j batch)).
Proof.
  induction batch as [|cmd batch IH]; intros cs cs' Hrun; cbn [emit] in Hrun.
  - inversion Hrun; subst. split; [reflexivity|]. intros j c Hc. exact Hc.
  - apply bind_Ok in Hrun. destruct Hrun as (c0 & Eget & Hrun).
    apply bind_Ok in Hrun. destruct Hrun as (cs1 & Eset & Hrun).
    apply vget_Ok in Eget as [Hch Hc0]. apply vset_Ok in Eset as [Hr ->].
    apply IH in Hrun as [Hlen Hall]. rewrite length_insert in Hlen.
    split; [exact Hlen|]. intros j c Hc.
    destruct (decide (j = Z.to_nat (Channel cmd))) as [->|Hne].
    + rewrite sent_to_cons_eq by lia. cbn [foldl].
      assert (c = c0) by congruence. subst c0.
      apply Hall. apply list_lookup_insert_eq. lia.
    + rewrite sent_to_cons_ne by lia. apply Hall.
      rewrite list_lookup_insert_ne by congruence. exact Hc.
Qed.

Lemma foldl_push_rd_w l : ∀ c,
  foldl (λ c cmd, push_rd_w cmd c) c l
  = mkController (pim_refresh_coming c) (IsInRef c) (pim_refresh_coming2 c)
      (wr_multitenant c) (rd_w_cmds_ c ++ l) (rd_in_cmds_ c)
      (release_time c) (wr_cmds_ c).
Proof.
  induction l as [|x l IH]; intros c; cbn [foldl].
  - rewrite app_nil_r. destruct c; reflexivity.
  - rewrite IH. unfold push_rd_w. simpl. rewrite <- app_assoc. reflexivity.
Qed.

Lemma foldl_push_rd_in t l : ∀ c,
  foldl (λ c cmd, push_rd_in cmd t c) c l
  = mkController (pim_refresh_coming c) (IsInRef c) (pim_refresh_coming2 c)
      (wr_multitenant c) (rd_w_cmds_ c) (rd_in_cmds_ c ++ l)
      (release_time c ++ replicate (length l) t) (wr_cmds_ c).
Proof.
  induction l as [|x l IH]; intros c; cbn [foldl].
  - simpl. rewrite !app_nil_r. destruct c; reflexivity.
  - rewrite IH. unfold push_rd_in. simpl. rewrite <- !app_assoc. reflexivity.
Qed.

Lemma foldl_push_wr l : ∀ c,
  foldl (λ c cmd, push_wr cmd c) c l
  = mkController (pim_refresh_coming c) (IsInRef c) (pim_refresh_coming2 c)
      (wr_multitenant c) (rd_w_cmds_ c) (rd_in_cmds_ c)
      (release_time c) (wr_cmds_ c ++ l).
Proof.
  induction l as [|x l IH]; intros c; cbn [foldl].
  - rewrite app_nil_r. destruct c; reflexivity.
  - rewrite IH. unfold push_wr. simpl. rewrite <- app_assoc. reflexivity.
Qed.

Lemma emit_all_spec clk b cs cs' :
  emit_all clk b cs = Ok cs' →
  length cs' = length cs
  ∧ ∀ j c, cs !! j = Some c → cs' !! j = Some (deliver j clk b c).
Proof.
  unfold emit_all. intros Hrun.
  apply bind_Ok in Hrun. destruct Hrun as (cs1 & E1 & Hrun).
  apply bind_Ok in Hrun. destruct Hrun as (cs2 & E2 & E3).
  apply emit_spec in E1 as [L1 H1]. apply emit_spec in E2 as [L2 H2].
  apply emit_spec in E3 as [L3 H3].
  split; [congruence|]. intros j c Hc.
  rewrite (H3 j _ (H2 j _ (H1 j c Hc))). f_equal.
  rewrite foldl_push_rd_w, foldl_push_rd_in, foldl_push_wr. reflexivity.
Qed.

Section Delivery.

Variable config_ : Config.
Variable GetReadyCommand : Z → Controller → Command → Z → Command.
Variable AddressUnmapping : Address → Z.

Lemma cut_step_delivers wr ir cuts i s s' b :
  cut_step config_ GetReadyCommand AddressUnmapping wr ir cuts i s
  = Ok (s', b) →
  clk_ s' = clk_ s ∧ length (ctrls_ s') = length (ctrls_ s)
  ∧ ∀ j c, ctrls_ s !! j = Some c →
      ctrls_ s' !! j = Some (deliver j (clk_ s) b c).
Proof.
  unfold cut_step. intros Hrun. invert_run.
  - split; [reflexivity|]. split; [reflexivity|]. intros j c Hc.
    rewrite Hc. f_equal. unfold deliver, no_batches, sent_to. simpl.
    rewrite !app_nil_r. destruct c; reflexivity.
  - match goal with H : emit_all _ _ _ = Ok _ |- _ =>
      apply emit_all_spec in H as [Hl Hall] end.
    split; [reflexivity|]. split; [exact Hl|]. exact Hall.
Qed.

Lemma cut_loop_delivers wr ir cuts idx : ∀ s log s' log',
  cut_loop config_ GetReadyCommand AddressUnmapping wr ir cuts idx s log
  = Ok (s', log') →
  ∃ new, log' = log ++ new
    ∧ length (ctrls_ s') = length (ctrls_ s)
    ∧ ∀ j c, ctrls_ s !! j = Some c →
        ctrls_ s' !! j
        = Some (foldl (λ c b, deliver j (clk_ s) b c) c new).
Proof.
  induction idx as [|i idx IH]; intros s log s' log' Hrun;
    cbn [cut_loop] in Hrun.
  - inversion Hrun; subst. exists []. rewrite app_nil_r.
    split; [reflexivity|]. split; [reflexivity|]. intros j c Hc. exact Hc.
  - apply bind_Ok in Hrun. destruct Hrun as ([s1 b] & Estep & Hrun).
    apply cut_step_delivers in Estep as (Hclk & Hl1 & H1).
    apply IH in Hrun as (new & -> & Hl & Hall).
    exists (b :: new). rewrite <- app_assoc. split; [reflexivity|].
    split; [congruence|]. intros j c Hc. cbn [foldl].
    rewrite Hclk in Hall. apply Hall, H1, Hc.
Qed.

(** X20. Every command of a tick lands, in the order of emission, at the
    end of the lane of the controller that its channel names: weight
    commands in [rd_w_cmds_], input commands in [rd_in_cmds_] with the
    clock as their release time, output commands in [wr_cmds_]. Nothing
    else of a controller changes, except that a Configure may raise
    [wr_multitenant]. *)
Theorem tick_delivers_batches s s' log :
  pim_tick config_ GetReadyCommand AddressUnmapping s = Ok (s', log) →
  length (ctrls_ s') = length (ctrls_ s)
  ∧ ∀ j c, ctrls_ s !! j = Some c →
      ∃ c0, (c0 = c ∨ c0 = set_multitenant c)
        ∧ ctrls_ s' !! j
          = Some (foldl (λ c b, deliver j (clk_ s) b c) c0 log).
Proof.
  unfold pim_tick. intros Hrun.
  apply bind_Ok in Hrun. destruct Hrun as ([c1 wr] & _ & Hrun).
  apply bind_Ok in Hrun. destruct Hrun as (s1 & Hdec & Hrun).
  assert (Hclk : clk_ s1 = clk_ s).
  { apply decode_frame in Hdec. simpl in Hdec. tauto. }
  apply decode_ctrls in Hdec. simpl in Hdec.
  apply cut_loop_delivers in Hrun as (new & -> & Hl & Hall).
  rewrite Hclk in Hall. cbn [app].
  destruct Hdec as [Hc|Hc]; rewrite Hc in Hl, Hall.
  - split; [exact Hl|]. intros j c Hj. exists c. split; [left; reflexivity|].
    apply Hall, Hj.
  - rewrite length_fmap in Hl. split; [exact Hl|]. intros j c Hj.
    exists (set_multitenant c). split; [right; reflexivity|].
    apply Hall. rewrite list_lookup_fmap, Hj. reflexivity.
Qed.

End Delivery.

Lemma tick_delivers_batches_witness :
  ∃ s' log,
    pim_tick ddr_config ready_as_asked flat_address one_cut_loaded
    = Ok (s', log)
    ∧ length (ctrls_ s') = 4%nat.
Proof.
  destruct (pim_tick ddr_config ready_as_asked flat_address one_cut_loaded)
    as [[s' log]| |] eqn:Ht; try (vm_compute in Ht; discriminate Ht).
  exists s', log. split; [reflexivity|].
  destruct (tick_delivers_batches ddr_config ready_as_asked flat_address
              one_cut_loaded s' log Ht) as [Hlen _].
  exact Hlen.
Defined.

(** ** The batches of a tick *)

Lemma homogeneous_nil : homogeneous [].
Proof. constructor. Qed.

Lemma homogeneous_snoc acc r :
  homogeneous acc → IsValid r = true →
  head_type (acc ++ [r]) = cmd_type r → homogeneous (acc ++ [r]).
Proof.
  unfold homogeneous. intros Hacc Hv Hhead.
  destruct acc as [|a acc].
  - simpl. constructor; [|constructor]. split; [exact Hv|reflexivity].
  - apply Forall_app. split.
    + exact Hacc.
    + constructor; [|constructor]. split; [exact Hv|].
      symmetry. exact Hhead.
Qed.

Section Batches.

Variable config_ : Config.
Variable GetReadyCommand : Z → Controller → Command → Z → Command.
Variable AddressUnmapping : Address → Z.

Lemma atomic_inner_homogeneous cs clk mk ks : ∀ acc l,
  homogeneous acc →
  atomic_inner GetReadyCommand cs clk mk ks acc = Ok l → homogeneous l.
Proof.
  induction ks as [|k ks IH]; intros acc l Hacc Hrun;
    cbn [atomic_inner] in Hrun.
  - inversion Hrun; subst. exact Hacc.
  - apply bind_Ok in Hrun. destruct Hrun as ([ch cmd] & _ & Hrun).
    apply bind_Ok in Hrun. destruct Hrun as (ctrl & _ & Hrun).
    destruct (IsValid (GetReadyCommand ch ctrl cmd clk)) eqn:Ev;
      cbn [negb] in Hrun.
    2:{ inversion Hrun. apply homogeneous_nil. }
    destruct (bool_decide _) eqn:Eh in Hrun.
    { inversion Hrun. apply homogeneous_nil. }
    apply bool_decide_eq_false in Eh.
    eapply IH; [|exact Hrun].
    apply homogeneous_snoc; [exact Hacc | exact Ev|].
    destruct (decide (head_type (acc ++ [GetReadyCommand ch ctrl cmd clk])
                      = cmd_type (GetReadyCommand ch ctrl cmd clk)));
      [assumption | contradiction].
Qed.

Lemma atomic_outer_homogeneous cs clk mk js ks : ∀ acc l,
  homogeneous acc →
  atomic_outer GetReadyCommand cs clk mk js ks acc = Ok l → homogeneous l.
Proof.
  induction js as [|j js IH]; intros acc l Hacc Hrun;
    cbn [atomic_outer] in Hrun.
  - inversion Hrun; subst. exact Hacc.
  - apply bind_Ok in Hrun. destruct Hrun as (acc1 & E1 & Hrun).
    apply atomic_inner_homogeneous in E1; [|exact Hacc].
    destruct (empty acc1).
    + inversion Hrun. apply homogeneous_nil.
    + eapply IH; eassumption.
Qed.

Lemma feed_inner_valid cs clk mk ks : ∀ acc mixed l m,
  Forall (λ c, IsValid c = true) acc →
  (mixed = false → homogeneous acc) →
  feed_inner GetReadyCommand cs clk mk ks acc mixed = Ok (l, m) →
  Forall (λ c, IsValid c = true) l ∧ (m = false → homogeneous l).
Proof.
  induction ks as [|k ks IH]; intros acc mixed l m Hv Hh Hrun;
    cbn [feed_inner] in Hrun.
  - inversion Hrun; subst. split; assumption.
  - apply bind_Ok in Hrun. destruct Hrun as ([ch cmd] & _ & Hrun).
    apply bind_Ok in Hrun. destruct Hrun as (ctrl & _ & Hrun).
    destruct (IsValid (GetReadyCommand ch ctrl cmd clk)) eqn:Ev;
      cbn [negb] in Hrun.
    2:{ inversion Hrun. split; [constructor|]. intros _.
        apply homogeneous_nil. }
    eapply IH; [| |exact Hrun].
    + apply Forall_app. split; [exact Hv|]. constructor; [exact Ev|constructor].
    + destruct (bool_decide _) eqn:Eh; [discriminate|].
      intros ->. apply bool_decide_eq_false in Eh.
      apply homogeneous_snoc; [auto | exact Ev|].
      destruct (decide (head_type (acc ++ [GetReadyCommand ch ctrl cmd clk])
                        = cmd_type (GetReadyCommand ch ctrl cmd clk)));
        [assumption | contradiction].
Qed.

Lemma feed_outer_valid cs clk mk js ks : ∀ acc mixed l m,
  Forall (λ c, IsValid c = true) acc →
  (mixed = false → homogeneous acc) →
  feed_outer GetReadyCommand cs clk mk js ks acc mixed = Ok (l, m) →
  Forall (λ c, IsValid c = true) l ∧ (m = false → homogeneous l).
Proof.
  induction js as [|j js IH]; intros acc mixed l m Hv Hh Hrun;
    cbn [feed_outer] in Hrun.
  - inversion Hrun; subst. split; assumption.
  - apply bind_Ok in Hrun. destruct Hrun as ([acc1 m1] & E1 & Hrun).
    apply feed_inner_valid in E1 as [Hv1 Hh1]; [|assumption..].
    eapply IH; eassumption.
Qed.

Lemma fetch_weight_homogeneous g geo wr cs clk i c c' w :
  fetch_weight config_ GetReadyCommand AddressUnmapping g geo wr cs clk i c
  = Ok (c', w) →
  homogeneous w.
Proof.
  unfold fetch_weight. intros Hrun. invert_run;
    try apply homogeneous_nil;
    match goal with
    | H : atomic_outer _ _ _ _ _ _ _ = Ok _ |- _ =>
        apply atomic_outer_homogeneous in H; [exact H|apply homogeneous_nil]
    end.
Qed.

Lemma write_output_homogeneous g geo wr cs clk i rdy c off c' off' out :
  write_output config_ GetReadyCommand AddressUnmapping g geo wr cs clk i rdy
    c off = Ok (c', off', out) →
  homogeneous out.
Proof.
  unfold write_output. intros Hrun. invert_run;
    try apply homogeneous_nil;
    match goal with
    | H : atomic_outer _ _ _ _ _ _ _ = Ok _ |- _ =>
        apply atomic_outer_homogeneous in H; [exact H|apply homogeneous_nil]
    end.
Qed.

Lemma filter_no_read (l : list Command) :
  Forall (λ c, is_pim_read c = false)
    (filter (fun x => negb (is_pim_read x)) l).
Proof.
  apply list.Forall_forall. intros c Hc.
  apply list_elem_of_filter in Hc as [Hc _].
  destruct (is_pim_read c); [destruct Hc | reflexivity].
Qed.

Lemma input_batch_choice (batch : list Command) (mixed : bool) :
  Forall (λ c, IsValid c = true) batch →
  (mixed = false → homogeneous batch) →
  Forall (λ c, IsValid c = true)
    (if mixed then filter (fun x => negb (is_pim_read x)) batch else batch)
  ∧ (homogeneous
       (if mixed then filter (fun x => negb (is_pim_read x)) batch
        else batch)
     ∨ Forall (λ c, is_pim_read c = false)
         (if mixed then filter (fun x => negb (is_pim_read x)) batch
          else batch)).
Proof.
  intros Hv Hh. destruct mixed.
  - split; [|right; apply filter_no_read].
    apply list.Forall_forall. intros x Hx.
    apply list_elem_of_filter in Hx as [_ Hx].
    rewrite list.Forall_forall in Hv. auto.
  - split; [exact Hv|left; auto].
Qed.

Lemma feed_input_batch g geo wr cs clk cuts i c c' b :
  feed_input config_ GetReadyCommand AddressUnmapping g geo wr cs clk cuts i
    c = Ok (c', b) →
  Forall (λ c, IsValid c = true) b
  ∧ (homogeneous b ∨ Forall (λ c, is_pim_read c = false) b).
Proof.
  unfold feed_input. intros Hrun.
  assert (Hnil : Forall (λ c, IsValid c = true) (@nil Command)
                 ∧ (homogeneous [] ∨ Forall (λ c, is_pim_read c = false) []))
    by (split; [constructor|left; apply homogeneous_nil]).
  invert_run; try exact Hnil;
    match goal with
    | H : feed_outer _ _ _ _ _ _ _ _ = Ok (?batch, ?mixed) |- _ =>
        apply feed_outer_valid in H as [Hv Hh];
          [|constructor|intros _; apply homogeneous_nil];
        first [ exact (input_batch_choice batch mixed Hv Hh)
              | exact (input_batch_choice batch true Hv Hh)
              | exact (input_batch_choice batch false Hv Hh) ]
    end.
Qed.

Lemma cut_step_batch wr ir cuts i s s' b :
  cut_step config_ GetReadyCommand AddressUnmapping wr ir cuts i s
  = Ok (s', b) →
  batch_ok b.
Proof.
  assert (Hnone : batch_ok no_batches).
  { unfold batch_ok, no_batches. simpl.
    split; [apply homogeneous_nil|]. split; [apply homogeneous_nil|].
    split; [constructor|]. left. apply homogeneous_nil. }
  unfold cut_step, run_state. intros Hrun. invert_run; try exact Hnone;
    unfold batch_ok; cbn [w_cmds in_cmds out_cmds];
    repeat match goal with
    | H : fetch_weight _ _ _ _ _ _ _ _ _ _ = Ok _ |- _ =>
        apply fetch_weight_homogeneous in H
    | H : feed_input _ _ _ _ _ _ _ _ _ _ _ = Ok _ |- _ =>
        apply feed_input_batch in H; destruct H
    | H : write_output _ _ _ _ _ _ _ _ _ _ _ _ = Ok _ |- _ =>
        apply write_output_homogeneous in H
    end;
    (split; [|split; [|split]]);
    first [ assumption | apply homogeneous_nil | solve [constructor]
          | (left; apply homogeneous_nil) ].
Qed.

Lemma cut_loop_batches wr ir cuts idx : ∀ s log s' log',
  Forall batch_ok log →
  cut_loop config_ GetReadyCommand AddressUnmapping wr ir cuts idx s log
  = Ok (s', log') →
  Forall batch_ok log'.
Proof.
  induction idx as [|i idx IH]; intros s log s' log' Hlog Hrun;
    cbn [cut_loop] in Hrun.
  - inversion Hrun; subst. exact Hlog.
  - apply bind_Ok in Hrun. destruct Hrun as ([s1 b] & Estep & Hrun).
    apply cut_step_batch in Estep. eapply IH; [|exact Hrun].
    apply Forall_app. split; [exact Hlog|]. constructor; [exact Estep|].
    constructor.
Qed.

(** X21. What a tick sends for a cut is never a mixture that holds a
    read: its weight batch and its output batch each hold valid commands
    of one kind, and its input batch holds valid commands that are of one
    kind or else none of them a read. *)
Theorem tick_batches_are_uniform s s' log :
  pim_tick config_ GetReadyCommand AddressUnmapping s = Ok (s', log) →
  Forall batch_ok log.
Proof.
  unfold pim_tick. intros Hrun.
  apply bind_Ok in Hrun. destruct Hrun as ([c1 wr] & _ & Hrun).
  apply bind_Ok in Hrun. destruct Hrun as (s1 & _ & Hrun).
  eapply cut_loop_batches; [|exact Hrun]. constructor.
Qed.

End Batches.

Lemma tick_batches_are_uniform_witness :
  ∃ s' log,
    pim_tick ddr_config ready_as_asked flat_address one_cut_loaded
    = Ok (s', log)
    ∧ Forall batch_ok log.
Proof.
  destruct (pim_tick ddr_config ready_as_asked flat_address one_cut_loaded)
    as [[s' log]| |] eqn:Ht; try (vm_compute in Ht; discriminate Ht).
  exists s', log. split; [reflexivity|].
  exact (tick_batches_are_uniform ddr_config ready_as_asked flat_address
           one_cut_loaded s' log Ht).
Defined.

(** ** The sizes of the per-cut vectors *)

Ltac unfold_setters :=
  cbv [set_base_rows_w set_base_rows_in set_base_rows_out set_M set_N set_K
       set_M_it set_K_tile_it set_N_it set_M_out_it set_N_out_tile_it
       set_in_pim set_iw_status set_in_cnt set_out_cnt set_vpu_cnt
       set_in_act_placed set_w_act_placed set_out_act_placed set_output_valid
       base_rows_w base_rows_in base_rows_out M N K M_it K_tile_it N_it
       M_out_it N_out_tile_it in_pim iw_status in_cnt out_cnt vpu_cnt
       in_act_placed w_act_placed out_act_placed output_valid].

Ltac same_sizes :=
  unfold sizes; unfold_setters; rewrite ?length_insert; reflexivity.

Lemma clear_placed_sizes idx : ∀ c c',
  clear_placed idx c = Ok c' → sizes c' = sizes c.
Proof.
  induction idx as [|j idx IH]; intros c c' Hrun; cbn [clear_placed] in Hrun.
  - inversion Hrun; reflexivity.
  - apply bind_Ok in Hrun. destruct Hrun as (c1 & E1 & Hrun).
    apply bind_Ok in Hrun. destruct Hrun as (c2 & E2 & Hrun).
    apply bind_Ok in Hrun. destruct Hrun as (c3 & E3 & Hrun).
    apply IH in Hrun. rewrite Hrun. invert_run. same_sizes.
Qed.

Lemma refresh_lookahead_sizes g cs : ∀ c wr c' wr',
  refresh_lookahead g cs c wr = Ok (c', wr') → sizes c' = sizes c.
Proof.
  induction cs as [|ctrl cs IH]; intros c wr c' wr' Hrun;
    cbn [refresh_lookahead] in Hrun.
  - inversion Hrun; reflexivity.
  - destruct (pim_refresh_coming ctrl && has_config g).
    + apply bind_Ok in Hrun. destruct Hrun as (c1 & E1 & Hrun).
      apply clear_placed_sizes in E1. apply IH in Hrun. congruence.
    + eapply IH. exact Hrun.
Qed.

Lemma enable_cuts_length a idx : ∀ v v',
  enable_cuts a idx v = Ok v' → length v' = length v.
Proof.
  induction idx as [|i idx IH]; intros v v' Hrun; cbn [enable_cuts] in Hrun.
  - inversion Hrun; reflexivity.
  - apply bind_Ok in Hrun. destruct Hrun as (sel & _ & Hrun).
    apply bind_Ok in Hrun. destruct Hrun as (v1 & E1 & Hrun).
    apply IH in Hrun. rewrite Hrun. destruct sel.
    + apply vset_Ok in E1 as [_ ->]. apply length_insert.
    + inversion E1; reflexivity.
Qed.

Lemma sized_same s s' :
  cfg s' = cfg s → sizes (cut s') = sizes (cut s) → sized s → sized s'.
Proof. unfold sized. intros -> ->. auto. Qed.

Lemma decode_sized s s' :
  sized s → decode s = Ok s' → sized s'.
Proof.
  unfold decode. intros Hs.
  destruct (pim_trans_queue_ s) as [|w rest].
  { intros [= <-]. exact Hs. }
  destruct (is_compute w).
  - unfold compute_enable. intros Hrun. invert_run; [|exact Hs].
    match goal with H : enable_cuts _ _ _ = Ok _ |- _ =>
      apply enable_cuts_length in H; rename H into Hl end.
    apply (sized_same s); [reflexivity| |exact Hs].
    unfold sizes. cbn [cut with_queue with_cut]. unfold_setters.
    rewrite Hl. reflexivity.
  - destruct (cutting w).
    + unfold configure. intros Hrun. invert_run.
      unfold sized, sizes, fresh_cuts, assign, ncuts.
      cbn [cut cfg vcuts hcuts base_rows_w base_rows_in base_rows_out M N K
           M_it K_tile_it N_it M_out_it N_out_tile_it in_pim iw_status
           in_cnt out_cnt vpu_cnt in_act_placed w_act_placed out_act_placed
           output_valid].
      rewrite !length_replicate. reflexivity.
    + unfold load. intros Hrun.
      invert_run; (apply (sized_same s); [reflexivity| |exact Hs]);
        cbn [cut with_queue with_cut]; same_sizes.
Qed.

Section Sizes.

Variable config_ : Config.
Variable GetReadyCommand : Z → Controller → Command → Z → Command.
Variable AddressUnmapping : Address → Z.

Lemma fetch_weight_sizes g geo wr cs clk j c c' w :
  fetch_weight config_ GetReadyCommand AddressUnmapping g geo wr cs clk j c
  = Ok (c', w) →
  sizes c' = sizes c.
Proof. unfold fetch_weight. intros H. invert_run; same_sizes. Qed.

Lemma weight_finished_sizes cuts j c c' :
  weight_finished cuts j c = Ok c' → sizes c' = sizes c.
Proof. unfold weight_finished. intros H. invert_run; same_sizes. Qed.

Lemma feed_input_sizes g geo wr cs clk cuts j c c' b :
  feed_input config_ GetReadyCommand AddressUnmapping g geo wr cs clk cuts
    j c = Ok (c', b) →
  sizes c' = sizes c.
Proof.
  unfold feed_input, advance_input. intros H. invert_run; same_sizes.
Qed.

Lemma input_finished_sizes j c c' :
  input_finished j c = Ok c' → sizes c' = sizes c.
Proof. unfold input_finished. intros H. invert_run; same_sizes. Qed.

Lemma write_output_sizes g geo wr cs clk j ready c off c' off' out :
  write_output config_ GetReadyCommand AddressUnmapping g geo wr cs clk j
    ready c off = Ok (c', off', out) →
  sizes c' = sizes c.
Proof.
  unfold write_output, advance_output, count_down. intros H.
  invert_run; same_sizes.
Qed.

Lemma cut_step_sizes wr ir cuts j s s' b :
  cut_step config_ GetReadyCommand AddressUnmapping wr ir cuts j s
  = Ok (s', b) →
  sizes (cut s') = sizes (cut s).
Proof.
  unfold cut_step, run_state. intros H. invert_run; simpl;
    try reflexivity;
    match goal with H : context [write_output] |- _ =>
      apply write_output_sizes in H; rewrite H end;
    try reflexivity.
  - match goal with H : context [fetch_weight] |- _ =>
      now apply fetch_weight_sizes in H end.
  - match goal with H : context [weight_finished] |- _ =>
      now apply weight_finished_sizes in H end.
  - match goal with H : context [feed_input] |- _ =>
      now apply feed_input_sizes in H end.
  - match goal with H : context [input_finished] |- _ =>
      now apply input_finished_sizes in H end.
Qed.

Lemma cut_loop_sizes wr ir cuts idx : ∀ s log s' log',
  cut_loop config_ GetReadyCommand AddressUnmapping wr ir cuts idx s log
  = Ok (s', log') →
  sizes (cut s') = sizes (cut s).
Proof.
  induction idx as [|i idx IH]; intros s log s' log' Hrun;
    cbn [cut_loop] in Hrun.
  - inversion Hrun; reflexivity.
  - apply bind_Ok in Hrun. destruct Hrun as ([s1 b] & Estep & Hrun).
    apply cut_step_sizes in Estep. apply IH in Hrun. congruence.
Qed.

(** X22. Once every per-cut vector has one entry for each cut of the
    configuration, every tick keeps it so, whatever control word it
    decodes: the engine and the Load and Compute-Enable branches never
    resize a vector, and Configure resizes all of them together. *)
Theorem tick_keeps_vectors_sized s s' log :
  sized s →
  pim_tick config_ GetReadyCommand AddressUnmapping s = Ok (s', log) →
  sized s'.
Proof.
  unfold pim_tick. intros Hs Hrun.
  apply bind_Ok in Hrun. destruct Hrun as ([c1 wr] & Ela & Hrun).
  apply bind_Ok in Hrun. destruct Hrun as (s1 & Hdec & Hrun).
  apply refresh_lookahead_sizes in Ela.
  apply decode_sized in Hdec;
    [|apply (sized_same s); [reflexivity|exact Ela|exact Hs]].
  pose proof (cut_loop_frame _ _ _ _ _ _ _ _ _ _ _ Hrun) as [Hf _].
  apply cut_loop_sizes in Hrun.
  apply (sized_same s1); [|exact Hrun|exact Hdec].
  unfold outside_engine in Hf. injection Hf as -> _ _ _ _. reflexivity.
Qed.

End Sizes.

Lemma tick_keeps_vectors_sized_witness :
  ∃ s' log,
    pim_tick ddr_config ready_as_asked flat_address one_cut_loaded
    = Ok (s', log)
    ∧ sized s'.
Proof.
  destruct (pim_tick ddr_config ready_as_asked flat_address one_cut_loaded)
    as [[s' log]| |] eqn:Ht; try (vm_compute in Ht; discriminate Ht).
  exists s', log. split; [reflexivity|].
  apply (tick_keeps_vectors_sized ddr_config ready_as_asked flat_address
           one_cut_loaded s' log); [reflexivity | exact Ht].
Defined.

(** ** The state and the counters of a cut *)

Ltac unfold_setters_everywhere :=
  cbv [set_base_rows_w set_base_rows_in set_base_rows_out set_M set_N set_K
       set_M_it set_K_tile_it set_N_it set_M_out_it set_N_out_tile_it
       set_in_pim set_iw_status set_in_cnt set_out_cnt set_vpu_cnt
       set_in_act_placed set_w_act_placed set_out_act_placed set_output_valid
       base_rows_w base_rows_in base_rows_out M N K M_it K_tile_it N_it
       M_out_it N_out_tile_it in_pim iw_status in_cnt out_cnt vpu_cnt
       in_act_placed w_act_placed out_act_placed output_valid] in *.

(** What a lookup that succeeded says, with the entries just written
    read back. *)
Ltac read_back :=
  repeat match goal with
  | H : vget _ _ = Ok _ |- _ =>
      let H0 := fresh "Hnn" in apply vget_Ok in H; destruct H as [H0 H]
  end;
  repeat match goal with
  | H : <[?k := ?x]> ?l !! ?k = Some ?y |- _ =>
      rewrite list_lookup_insert_eq in H by (rewrite ?length_insert; lia);
      inversion H; subst; clear H
  end.

Ltac known_entries :=
  repeat match goal with
  | F : Forall ?P ?l, H : ?l !! ?k = Some ?x |- _ =>
      lazymatch goal with
      | _ : P x |- _ => fail
      | _ => pose proof (Forall_lookup_1 P l k x F H)
      end
  end;
  cbv beta in *.

Ltac wrap_ranges :=
  unfold iadd, isub, imul in *;
  repeat match goal with
  | |- context [wrap ?z] =>
      let x := fresh "x" in
      pose proof (wrap_range z); set (x := wrap z) in *; clearbody x
  end.

Ltac solve_counters :=
  unfold counters_ok in *; unfold_setters_everywhere;
  repeat match goal with H : _ ∧ _ |- _ => destruct H end;
  read_back; same_lookups; known_entries;
  rewrite ?list_insert_insert_eq;
  repeat split; repeat (apply Forall_insert); try assumption;
  unfold iadd, isub, imul in *;
  try (rewrite ?wrap_small by lia; lia);
  try (wrap_ranges; lia).

Lemma weight_finished_counters cuts j c c' :
  vget (iw_status c) j = Ok 1 →
  counters_ok c → weight_finished cuts j c = Ok c' → counters_ok c'.
Proof.
  unfold weight_finished. intros Hst Hok Hrun. destruct c.
  invert_run; solve_counters.
Qed.

Lemma input_finished_counters j c c' :
  counters_ok c → input_finished j c = Ok c' → counters_ok c'.
Proof.
  unfold input_finished. intros Hok Hrun. destruct c.
  invert_run; solve_counters.
Qed.

Lemma clear_placed_counters idx : ∀ c c',
  counters_ok c → clear_placed idx c = Ok c' → counters_ok c'.
Proof.
  induction idx as [|j idx IH]; intros c c' Hok Hrun;
    cbn [clear_placed] in Hrun.
  - inversion Hrun; subst. exact Hok.
  - apply bind_Ok in Hrun. destruct Hrun as (c1 & E1 & Hrun).
    apply bind_Ok in Hrun. destruct Hrun as (c2 & E2 & Hrun).
    apply bind_Ok in Hrun. destruct Hrun as (c3 & E3 & Hrun).
    eapply IH; [|exact Hrun]. destruct c. invert_run. exact Hok.
Qed.

Lemma refresh_lookahead_counters g cs : ∀ c wr c' wr',
  counters_ok c → refresh_lookahead g cs c wr = Ok (c', wr') →
  counters_ok c'.
Proof.
  induction cs as [|ctrl cs IH]; intros c wr c' wr' Hok Hrun;
    cbn [refresh_lookahead] in Hrun.
  - inversion Hrun; subst. exact Hok.
  - destruct (pim_refresh_coming ctrl && has_config g).
    + apply bind_Ok in Hrun. destruct Hrun as (c1 & E1 & Hrun).
      apply clear_placed_counters in E1; [|exact Hok].
      eapply IH; eassumption.
    + eapply IH; eassumption.
Qed.

Lemma decode_counters s s' :
  counters_ok (cut s) → decode s = Ok s' → counters_ok (cut s').
Proof.
  unfold decode. intros Hok.
  destruct (pim_trans_queue_ s) as [|w rest].
  { intros [= <-]. exact Hok. }
  destruct (is_compute w).
  - unfold compute_enable. intros Hrun. invert_run; exact Hok.
  - destruct (cutting w).
    + unfold configure. intros Hrun. invert_run.
      unfold counters_ok, fresh_cuts, assign. cbn [cut iw_status in_cnt
        out_cnt vpu_cnt].
      repeat split; apply Forall_replicate; lia.
    + unfold load. intros Hrun. destruct s as [g c t q d cs k l].
      destruct c. cbn [cut] in *.
      invert_run; exact Hok.
Qed.

Section Counters.

Variable config_ : Config.
Variable GetReadyCommand : Z → Controller → Command → Z → Command.
Variable AddressUnmapping : Address → Z.

Lemma fetch_weight_counters g geo wr cs clk j c c' w :
  vget (iw_status c) j = Ok 0 →
  counters_ok c →
  fetch_weight config_ GetReadyCommand AddressUnmapping g geo wr cs clk j c
  = Ok (c', w) →
  counters_ok c'.
Proof.
  unfold fetch_weight. intros Hst Hok Hrun. destruct c.
  invert_run; solve_counters.
Qed.

Lemma feed_input_counters g geo wr cs clk cuts j c c' b :
  vget (iw_status c) j = Ok 2 →
  counters_ok c →
  feed_input config_ GetReadyCommand AddressUnmapping g geo wr cs clk cuts
    j c = Ok (c', b) →
  counters_ok c'.
Proof.
  unfold feed_input, advance_input. intros Hst Hok Hrun. destruct c.
  invert_run; solve_counters.
Qed.

Lemma write_output_counters g geo wr cs clk j ready c off c' off' out :
  counters_ok c →
  write_output config_ GetReadyCommand AddressUnmapping g geo wr cs clk j
    ready c off = Ok (c', off', out) →
  counters_ok c'.
Proof.
  unfold write_output, advance_output, count_down. intros Hok Hrun.
  destruct c. invert_run; solve_counters.
Qed.

Lemma cut_step_counters wr ir cuts j s s' b :
  counters_ok (cut s) →
  cut_step config_ GetReadyCommand AddressUnmapping wr ir cuts j s
  = Ok (s', b) →
  counters_ok (cut s').
Proof.
  unfold cut_step, run_state. intros Hok Hrun.
  invert_run; cbn [cut with_ctrls with_turn_off with_cut];
    try exact Hok;
    match goal with H : context [write_output] |- _ =>
      apply write_output_counters in H; [exact H|] end;
    repeat match goal with
    | H : (_ =? _) = true |- _ => apply Z.eqb_eq in H; subst
    end.
  - match goal with H : context [fetch_weight] |- _ =>
      apply fetch_weight_counters in H; assumption end.
  - match goal with H : context [weight_finished] |- _ =>
      apply weight_finished_counters in H; assumption end.
  - match goal with H : context [feed_input] |- _ =>
      apply feed_input_counters in H; assumption end.
  - match goal with H : context [input_finished] |- _ =>
      apply input_finished_counters in H; assumption end.
  - exact Hok.
Qed.

Lemma cut_loop_counters wr ir cuts idx : ∀ s log s' log',
  counters_ok (cut s) →
  cut_loop config_ GetReadyCommand AddressUnmapping wr ir cuts idx s log
  = Ok (s', log') →
  counters_ok (cut s').
Proof.
  induction idx as [|i idx IH]; intros s log s' log' Hok Hrun;
    cbn [cut_loop] in Hrun.
  - inversion Hrun; subst. exact Hok.
  - apply bind_Ok in Hrun. destruct Hrun as ([s1 b] & Estep & Hrun).
    apply cut_step_counters in Estep; [|exact Hok].
    eapply IH; eassumption.
Qed.

(** X23. The state of every cut stays one of 0, 1, 2 and 3, its
    [in_cnt] and [out_cnt] never go below -1 and its [vpu_cnt] never
    below 0, over every tick and whatever control word the tick
    decodes. *)
Theorem tick_keeps_counters_in_range s s' log :
  counters_ok (cut s) →
  pim_tick config_ GetReadyCommand AddressUnmapping s = Ok (s', log) →
  counters_ok (cut s').
Proof.
  unfold pim_tick. intros Hok Hrun.
  apply bind_Ok in Hrun. destruct Hrun as ([c1 wr] & Ela & Hrun).
  apply bind_Ok in Hrun. destruct Hrun as (s1 & Hdec & Hrun).
  apply refresh_lookahead_counters in Ela; [|exact Hok].
  apply decode_counters in Hdec; [|exact Ela].
  eapply cut_loop_counters; eassumption.
Qed.

End Counters.

Lemma tick_keeps_counters_in_range_witness :
  ∃ s' log,
    pim_tick ddr_config ready_as_asked flat_address last_input_row
    = Ok (s', log)
    ∧ iw_status (cut last_input_row) = [2]
    ∧ iw_status (cut s') = [3]
    ∧ counters_ok (cut s').
Proof.
  destruct (pim_tick ddr_config ready_as_asked flat_address last_input_row)
    as [[s' log]| |] eqn:Ht; try (vm_compute in Ht; discriminate Ht).
  exists s', log. split; [reflexivity|].
  split; [reflexivity|].
  split; [vm_compute in Ht; inversion Ht; reflexivity|].
  apply (tick_keeps_counters_in_range ddr_config ready_as_asked flat_address
           last_input_row s' log); [|exact Ht].
  unfold counters_ok. simpl. repeat split; repeat constructor; lia.
Defined.

(** ** A cut step is local *)

Ltac same_entries :=
  unfold entries; unfold_setters_everywhere;
  rewrite ?list_lookup_insert_ne by lia; reflexivity.

Section Local.

Variable config_ : Config.
Variable GetReadyCommand : Z → Controller → Command → Z → Command.
Variable AddressUnmapping : Address → Z.

Lemma fetch_weight_local g geo wr cs clk j c c' w k :
  Z.of_nat k ≠ j →
  fetch_weight config_ GetReadyCommand AddressUnmapping g geo wr cs clk j c
  = Ok (c', w) →
  entries c' k = entries c k.
Proof.
  unfold fetch_weight. intros Hk Hrun. destruct c.
  invert_run; same_entries.
Qed.

Lemma weight_finished_local cuts j c c' k :
  Z.of_nat k ≠ j →
  weight_finished cuts j c = Ok c' → entries c' k = entries c k.
Proof.
  unfold weight_finished. intros Hk Hrun. destruct c.
  invert_run; same_entries.
Qed.

Lemma feed_input_local g geo wr cs clk cuts j c c' b k :
  Z.of_nat k ≠ j →
  feed_input config_ GetReadyCommand AddressUnmapping g geo wr cs clk cuts
    j c = Ok (c', b) →
  entries c' k = entries c k.
Proof.
  unfold feed_input, advance_input. intros Hk Hrun. destruct c.
  invert_run; same_entries.
Qed.

Lemma input_finished_local j c c' k :
  Z.of_nat k ≠ j →
  input_finished j c = Ok c' → entries c' k = entries c k.
Proof.
  unfold input_finished. intros Hk Hrun. destruct c.
  invert_run; same_entries.
Qed.

Lemma write_output_local g geo wr cs clk j ready c off c' off' out k :
  Z.of_nat k ≠ j → Z.of_nat k ≠ j +! 1 →
  write_output config_ GetReadyCommand AddressUnmapping g geo wr cs clk j
    ready c off = Ok (c', off', out) →
  entries c' k = entries c k.
Proof.
  unfold write_output, advance_output, count_down. intros Hk Hk1 Hrun.
  destruct c. invert_run; same_entries.
Qed.

(** X24. The step of cut [j] is local: it leaves every entry of every
    other cut as it is, except for the entries of cut [j + 1], which the
    end of the output can reach. *)
Theorem cut_step_is_local wr ir cuts j s s' b k :
  Z.of_nat k ≠ j → Z.of_nat k ≠ j +! 1 →
  cut_step config_ GetReadyCommand AddressUnmapping wr ir cuts j s
  = Ok (s', b) →
  entries (cut s') k = entries (cut s) k.
Proof.
  unfold cut_step, run_state. intros Hk Hk1 Hrun.
  invert_run; cbn [cut with_ctrls with_turn_off with_cut];
    try reflexivity;
    match goal with H : context [write_output] |- _ =>
      apply (write_output_local _ _ _ _ _ _ _ _ _ _ _ _ k Hk Hk1) in H;
      rewrite H end;
    try reflexivity.
  - match goal with H : context [fetch_weight] |- _ =>
      now apply (fetch_weight_local _ _ _ _ _ _ _ _ _ k Hk) in H end.
  - match goal with H : context [weight_finished] |- _ =>
      now apply (weight_finished_local _ _ _ _ k Hk) in H end.
  - match goal with H : context [feed_input] |- _ =>
      now apply (feed_input_local _ _ _ _ _ _ _ _ _ _ k Hk) in H end.
  - match goal with H : context [input_finished] |- _ =>
      now apply (input_finished_local _ _ _ k Hk) in H end.
Qed.

End Local.

Lemma cut_step_is_local_witness :
  ∃ s' b,
    cut_step narrow_config ready_as_asked flat_address false false 2 1
      both_enabled = Ok (s', b)
    ∧ N_it (cut s') = [0; 1]
    ∧ entries (cut s') 0 = entries (cut both_enabled) 0.
Proof.
  destruct (cut_step narrow_config ready_as_asked flat_address false false 2
              1 both_enabled) as [[s' b]| |] eqn:Hs;
    try (vm_compute in Hs; discriminate Hs).
  exists s', b. split; [reflexivity|].
  split; [vm_compute in Hs; inversion Hs; reflexivity|].
  apply (cut_step_is_local narrow_config ready_as_asked flat_address false
           false 2 1 both_enabled s' b 0); [lia | vm_compute; lia | exact Hs].
Defined.

(** ** [turn_off] *)

Lemma none_active_false c idx : ∀ r,
  none_active c idx false = Ok r → r = false.
Proof.
  induction idx as [|j idx IH]; intros r Hrun; cbn [none_active] in Hrun.
  - inversion Hrun; reflexivity.
  - invert_run; eapply IH; eassumption.
Qed.

Lemma none_active_true c idx : ∀ off,
  none_active c idx off = Ok true →
  ∀ j, j ∈ idx → in_pim c !! Z.to_nat j = Some false.
Proof.
  induction idx as [|i idx IH]; intros off Hrun j Hj; cbn [none_active] in Hrun.
  - inversion Hj.
  - apply bind_Ok in Hrun. destruct Hrun as (p & Ep & Hrun).
    destruct p.
    + invert_run.
      match goal with H : none_active _ _ false = Ok true |- _ =>
        apply none_active_false in H; discriminate H end.
    + apply elem_of_cons in Hj as [->|Hj].
      * apply vget_Ok in Ep as [_ Ep]. exact Ep.
      * eapply IH; eassumption.
Qed.

Lemma all_false (v : list bool) :
  (∀ j, j ∈ range (Z.of_nat (length v)) → v !! Z.to_nat j = Some false) →
  Forall (λ p, p = false) v.
Proof.
  intros Hall. apply Forall_lookup. intros k p Hk.
  specialize (Hall (Z.of_nat k)). rewrite Nat2Z.id in Hall.
  rewrite Hall in Hk; [congruence|].
  apply elem_of_range. apply lookup_lt_Some in Hk. lia.
Qed.

Section TurnOff.

Variable config_ : Config.
Variable GetReadyCommand : Z → Controller → Command → Z → Command.
Variable AddressUnmapping : Address → Z.

Lemma advance_output_off g geo i a1 a2 a3 a4 a5 c off c' off' :
  advance_output g geo i a1 a2 a3 a4 a5 c off = Ok (c', off') →
  (off' = off ∧ in_pim c' = in_pim c)
  ∨ (off' = true → Forall (λ p, p = false) (in_pim c')).
Proof.
  unfold advance_output. intros Hrun. destruct c.
  invert_run; unfold_setters_everywhere;
    try (left; split; reflexivity);
    right; intros ->;
    match goal with H : none_active _ _ true = Ok true |- _ =>
      pose proof (none_active_true _ _ _ H) as Hall end;
    unfold_setters_everywhere; apply all_false; exact Hall.
Qed.

Lemma write_output_off g geo wr cs clk j ready c off c' off' out :
  write_output config_ GetReadyCommand AddressUnmapping g geo wr cs clk j
    ready c off = Ok (c', off', out) →
  (off' = off ∧ in_pim c' = in_pim c)
  ∨ (off' = true → Forall (λ p, p = false) (in_pim c')).
Proof.
  unfold write_output, count_down. intros Hrun. destruct c.
  invert_run; unfold_setters_everywhere;
    try (left; split; reflexivity);
    match goal with H : advance_output _ _ _ _ _ _ _ _ _ _ = Ok _ |- _ =>
      apply advance_output_off in H; unfold_setters_everywhere; exact H end.
Qed.

Lemma run_state_in_pim g geo wr cs clk cuts j st c c' w b :
  run_state config_ GetReadyCommand AddressUnmapping g geo wr cs clk cuts j
    st c = Ok (c', w, b) →
  in_pim c' = in_pim c.
Proof.
  unfold run_state, fetch_weight, weight_finished, feed_input, advance_input,
    input_finished.
  intros Hrun. invert_run; reflexivity.
Qed.

Lemma cut_step_off wr ir cuts j s s' b :
  off_means_idle s →
  cut_step config_ GetReadyCommand AddressUnmapping wr ir cuts j s
  = Ok (s', b) →
  off_means_idle s'.
Proof.
  unfold cut_step. intros Hinv Hrun. invert_run; try exact Hinv.
  match goal with H : run_state _ _ _ _ _ _ _ _ _ _ _ _ = Ok _ |- _ =>
    apply run_state_in_pim in H; rename H into Hp end.
  match goal with H : write_output _ _ _ _ _ _ _ _ _ _ _ _ = Ok _ |- _ =>
    apply write_output_off in H; rename H into Ho end.
  unfold off_means_idle in *.
  cbn [cut turn_off with_ctrls with_turn_off with_cut].
  destruct Ho as [[-> Hsame]|Ho].
  - rewrite Hsame, Hp. exact Hinv.
  - match goal with |- ?o = false ∨ _ => destruct o end;
      [right; auto | left; reflexivity].
Qed.

Lemma cut_loop_off wr ir cuts idx : ∀ s log s' log',
  off_means_idle s →
  cut_loop config_ GetReadyCommand AddressUnmapping wr ir cuts idx s log
  = Ok (s', log') →
  off_means_idle s'.
Proof.
  induction idx as [|i idx IH]; intros s log s' log' Hinv Hrun;
    cbn [cut_loop] in Hrun.
  - inversion Hrun; subst. exact Hinv.
  - apply bind_Ok in Hrun. destruct Hrun as ([s1 b] & Estep & Hrun).
    apply cut_step_off in Estep; [|exact Hinv].
    eapply IH; eassumption.
Qed.

(** X25. [turn_off] is raised only when no cut is enabled any more: a
    tick that starts with [turn_off] down and ends with it up leaves every
    entry of [in_pim] false. *)
Theorem turn_off_means_no_cut_enabled s s' log :
  turn_off s = false →
  pim_tick config_ GetReadyCommand AddressUnmapping s = Ok (s', log) →
  turn_off s' = true →
  Forall (λ p, p = false) (in_pim (cut s')).
Proof.
  unfold pim_tick. intros Hoff Hrun Hon.
  apply bind_Ok in Hrun. destruct Hrun as ([c1 wr] & _ & Hrun).
  apply bind_Ok in Hrun. destruct Hrun as (s1 & Hdec & Hrun).
  apply decode_frame in Hdec. cbn [turn_off with_cut] in Hdec.
  destruct Hdec as (_ & _ & _ & _ & Ht & _).
  apply cut_loop_off in Hrun; [|left; congruence].
  destruct Hrun as [Hf|Hall]; [congruence | exact Hall].
Qed.

End TurnOff.

Lemma turn_off_means_no_cut_enabled_witness :
  turn_off last_output = false
  ∧ in_pim (cut last_output) = [true]
  ∧ ∃ s' log,
      pim_tick ddr_config ready_as_asked flat_address last_output
      = Ok (s', log)
      ∧ turn_off s' = true
      ∧ Forall (λ p, p = false) (in_pim (cut s')).
Proof.
  split; [reflexivity|]. split; [reflexivity|].
  destruct (pim_tick ddr_config ready_as_asked flat_address last_output)
    as [[s' log]| |] eqn:Ht; try (vm_compute in Ht; discriminate Ht).
  exists s', log. split; [reflexivity|].
  assert (Hon : turn_off s' = true)
    by (vm_compute in Ht; inversion Ht; reflexivity).
  split; [exact Hon|].
  exact (turn_off_means_no_cut_enabled ddr_config ready_as_asked
           flat_address last_output s' log eq_refl Ht Hon).
Defined.

(** ** State 1 *)

(** X26. In a configured system state 1 lasts one tick: with one entry
    of [iw_status] and [vpu_cnt] for each cut, [weight_finished] moves the
    cut to state 2 and sets its [vpu_cnt] to 1, and touches nothing else.
    The way back to state 1 needs a single cut and a second entry in
    [iw_status], which such a system does not have. *)
Theorem weight_finished_moves_on (cuts i : Z) (c : CutState) :
  length (iw_status c) = Z.to_nat cuts →
  length (vpu_cnt c) = Z.to_nat cuts →
  0 <= i < cuts →
  iw_status c !! Z.to_nat i = Some 1 →
  weight_finished cuts i c
  = Ok (set_vpu_cnt (<[Z.to_nat i := 1]> (vpu_cnt c))
          (set_iw_status (<[Z.to_nat i := 2]> (iw_status c)) c)).
Proof.
  intros Hl1 Hl2 Hi Hst. unfold weight_finished.
  rewrite (proj2 (vget_Ok (iw_status c) i 1)) by (split; [lia|exact Hst]).
  cbn [bind]. change (1 +! 1) with 2.
  rewrite (proj2 (put_Ok iw_status set_iw_status i 2 c _))
    by (split; [lia|reflexivity]).
  cbn [bind].
  rewrite (proj2 (put_Ok vpu_cnt set_vpu_cnt i 1 _ _))
    by (split; [destruct c; cbn in *; lia|reflexivity]).
  cbn [bind].
  destruct (Z.eqb_spec cuts 1) as [->|Hne]; [|reflexivity].
  assert (i = 0) by lia. subst i.
  replace (existsb (λ x, (x =? 0) || (x =? 3))
             (iw_status
                (set_vpu_cnt
                   (<[Z.to_nat 0:=1]>
                      (vpu_cnt
                         (set_iw_status (<[Z.to_nat 0:=2]> (iw_status c)) c)))
                   (set_iw_status (<[Z.to_nat 0:=2]> (iw_status c)) c))))
    with false; [reflexivity|].
  destruct c as [? ? ? ? ? ? ? ? ? ? ? ? status ? ? ? ? ? ? ?].
  cbn in Hl1 |- *.
  destruct status as [|st [|st' rest]]; try discriminate Hl1.
  reflexivity.
Qed.

Lemma weight_finished_moves_on_witness :
  ∃ c', weight_finished 1 0 (cut weight_fetched) = Ok c'
      ∧ iw_status c' = [2] ∧ vpu_cnt c' = [1].
Proof.
  eexists. split.
  - apply (weight_finished_moves_on 1 0 (cut weight_fetched));
      try reflexivity; lia.
  - split; reflexivity.
Defined.

(** ** The PIM queue stays within its depth *)

Section QueueBound.

Variable config_ : Config.
Variable GetReadyCommand : Z → Controller → Command → Z → Command.
Variable AddressUnmapping : Address → Z.

(** X27. The PIM queue never holds more entries than its depth: an
    [AddTransaction] that returns leaves it within the depth, and a tick
    of a system whose queue is within the depth leaves it so. *)
Theorem pim_queue_stays_bounded s :
  (∀ hex s' ok, AddTransaction s hex = Ok (s', ok) → queue_bounded s')
  ∧ (∀ s' log,
       queue_bounded s →
       pim_tick config_ GetReadyCommand AddressUnmapping s = Ok (s', log) →
       queue_bounded s').
Proof.
  unfold queue_bounded. split.
  - intros hex s' ok. unfold AddTransaction, WillAcceptTransaction.
    destruct (Z.ltb_spec (Z.of_nat (length (pim_trans_queue_ s)))
                (pim_trans_queue_depth_ s)); cbn [assert bind];
      [|discriminate].
    intros [= <- _]. simpl. rewrite length_app. simpl. lia.
  - intros s' log Hb Hrun.
    apply tick_queue in Hrun as (Hq & Hd).
    rewrite Hd. destruct Hq as [->|[w Hq]]; [exact Hb|].
    rewrite Hq in Hb. simpl in Hb. lia.
Qed.

End QueueBound.

(** ** The whole [ClockTick] *)

Section WholeTick.

Variable config_ : Config.
Variable GetReadyCommand : Z → Controller → Command → Z → Command.
Variable AddressUnmapping : Address → Z.
Variable Controller_ClockTick : Controller → Controller.
Variable Controller_drained : Controller → Controller.

(** X28. A [ClockTick] that returns has advanced the clock by exactly one
    (modulo 2^64) and has kept the number of controllers, the queue depth
    and [last_req_clk_]; of the PIM queue it has taken the head or
    nothing. *)
Theorem ClockTick_advances_clock s s' :
  ClockTick config_ GetReadyCommand AddressUnmapping Controller_ClockTick
    Controller_drained s = Ok s' →
  clk_ s' = u64 (clk_ s + 1)
  ∧ length (ctrls_ s') = length (ctrls_ s)
  ∧ last_req_clk_ s' = last_req_clk_ s
  ∧ pim_trans_queue_depth_ s' = pim_trans_queue_depth_ s
  ∧ (pim_trans_queue_ s' = pim_trans_queue_ s
     ∨ ∃ w, pim_trans_queue_ s = w :: pim_trans_queue_ s').
Proof.
  unfold ClockTick, pim_tick. intros Hrun.
  apply bind_Ok in Hrun. destruct Hrun as ([s2 log] & Htick & Hrun).
  inversion Hrun; subst; clear Hrun.
  apply bind_Ok in Htick. destruct Htick as ([c wr] & _ & Htick).
  apply bind_Ok in Htick. destruct Htick as (s1 & Hdec & Hloop).
  pose proof (decode_ctrls _ _ Hdec) as Hcs.
  apply decode_frame in Hdec.
  cbn [pim_trans_queue_ pim_trans_queue_depth_ clk_ last_req_clk_ ctrls_
       with_cut with_ctrls] in Hdec, Hcs.
  destruct Hdec as (Hq & Hd & Hc & Hl & _).
  pose proof (cut_loop_frame _ _ _ _ _ _ _ _ _ _ _ Hloop) as [Hf _].
  apply cut_loop_delivers in Hloop as (_ & _ & Hlen & _).
  unfold outside_engine in Hf. injection Hf as _ Hf2 Hf3 Hf4 Hf5.
  cbn [pim_trans_queue_ pim_trans_queue_depth_ clk_ last_req_clk_ ctrls_
       with_clk with_ctrls].
  rewrite Hf2, Hf3, Hf4, Hf5, Hc, Hl, Hd.
  split; [reflexivity|]. split.
  { rewrite length_fmap, Hlen.
    destruct Hcs as [-> | ->]; rewrite ?length_fmap; reflexivity. }
  split; [reflexivity|]. split; [reflexivity|]. exact Hq.
Qed.

End WholeTick.

Lemma ClockTick_advances_clock_witness :
  ∃ s', ClockTick ddr_config ready_as_asked flat_address id id one_cut_loaded
        = Ok s'
      ∧ clk_ s' = u64 (clk_ one_cut_loaded + 1).
Proof.
  destruct (ClockTick ddr_config ready_as_asked flat_address id id
              one_cut_loaded) as [s'| |] eqn:Ht;
    try (vm_compute in Ht; discriminate Ht).
  exists s'. split; [reflexivity|].
  destruct (ClockTick_advances_clock ddr_config ready_as_asked flat_address
              id id one_cut_loaded s' Ht) as [Hclk _].
  exact Hclk.
Defined.
